(** * alnvu/util.py: a shallow embedding of the alignment reformatter

    The Python module [alnvu/util.py] turns a multiple sequence alignment
    into a paginated text display.  This file embeds its functions as
    executable Rocq definitions and proves the properties that the
    specification states about them.

    Conventions of the embedding:
    - a Python 2 [str] is a [list ascii] (a byte string);
    - a Python [int] is a [Z]; lengths and indices that the code obtains
      from [len], [range] or [enumerate] are [nat];
    - a [dict] from characters to counts is a [gmap ascii Z];
    - an exception is the [Raise] case of [result];
    - [Seqobj] instances live in an explicit object store, since
      [reformat] assigns to their attributes. *)

From Stdlib Require Import ZArith Ascii String List Lia Bool.
From stdpp Require Import base option list gmap strings sorting.

Local Open Scope Z_scope.

(** ** Byte strings *)

Abbreviation str := (list ascii).

(** [lit "abc"] is the Python literal ['abc']. *)
Definition lit (s : string) : str := list_ascii_of_string s.

Definition chr_eqb (a b : ascii) : bool := Ascii.eqb a b.

Definition code (c : ascii) : nat := nat_of_ascii c.

Definition in_range (lo hi : nat) (c : ascii) : bool :=
  (Nat.leb lo (code c)) && (Nat.leb (code c) hi).

(** [c.isupper()], [c.islower()], and the class [[a-z]] under [re.I]. *)
Definition is_upper (c : ascii) : bool := in_range 65 90 c.
Definition is_lower (c : ascii) : bool := in_range 97 122 c.
Definition is_alpha (c : ascii) : bool := is_lower c || is_upper c.
Definition is_digit (c : ascii) : bool := in_range 48 57 c.

(** The characters that [int()] and [str.strip()] treat as white space. *)
Definition is_space (c : ascii) : bool :=
  (Nat.eqb (code c) 32) || in_range 9 13 c.

Definition upper_chr (c : ascii) : ascii :=
  if is_lower c then ascii_of_nat (code c - 32) else c.
Definition lower_chr (c : ascii) : ascii :=
  if is_upper c then ascii_of_nat (code c + 32) else c.

(** [s.upper()] and [s.lower()]. *)
Definition upper (s : str) : str := upper_chr <$> s.
Definition lower (s : str) : str := lower_chr <$> s.

Definition gap_chr : ascii := "-"%char.

(** ** Exceptions *)

Inductive exn : Set :=
| ValueError | IndexError | KeyError | TypeError | AttributeError
| AssertionError.

Inductive result (A : Type) : Type :=
| Ok (a : A)
| Raise (e : exn).
Arguments Ok {A} a.
Arguments Raise {A} e.

Definition rbind {A B} (m : result A) (k : A -> result B) : result B :=
  match m with Ok a => k a | Raise e => Raise e end.

Definition is_ok {A} (m : result A) : bool :=
  match m with Ok _ => true | Raise _ => false end.

(** [[f(x) for x in l]] where [f] may raise. *)
Fixpoint rmap {A B} (f : A -> result B) (l : list A) : result (list B) :=
  match l with
  | [] => Ok []
  | x :: l' => rbind (f x) (fun y => rbind (rmap f l') (fun ys => Ok (y :: ys)))
  end.

(** ** Python built-ins used by the module *)

(** [l[i]] for a Python integer [i]: negative indices count from the end,
    anything outside [-len(l) .. len(l)-1] raises [IndexError]. *)
Definition py_index {A} (l : list A) (i : Z) : result A :=
  let n := Z.of_nat (length l) in
  let j := if 0 <=? i then i else n + i in
  if (0 <=? j) && (j <? n) then
    match l !! Z.to_nat j with
    | Some x => Ok x
    | None => Raise IndexError
    end
  else Raise IndexError.

Fixpoint drop_while {A} (p : A -> bool) (l : list A) : list A :=
  match l with
  | [] => []
  | x :: l' => if p x then drop_while p l' else l
  end.

(** [s.rstrip()] generalised to a character class. *)
Definition rstrip_by (p : ascii -> bool) (s : str) : str :=
  reverse (drop_while p (reverse s)).

Definition digit_val (c : ascii) : Z := Z.of_nat (code c) - 48.

(** The value of a string of decimal digits, most significant first. *)
Definition digits_val (s : str) : Z :=
  fold_left (fun acc c => 10 * acc + digit_val c) s 0.

Definition parse_digits (s : str) : option Z :=
  match s with
  | [] => None
  | _ => if forallb is_digit s then Some (digits_val s) else None
  end.

(** [int(s)] for a byte string: surrounding white space is dropped, one
    optional sign is read, and what remains must be a non-empty run of
    decimal digits; [None] stands for [ValueError]. *)
Definition py_int (s : str) : option Z :=
  match rstrip_by is_space (drop_while is_space s) with
  | c :: t =>
      if chr_eqb c "-" then Z.opp <$> parse_digits t
      else if chr_eqb c "+" then parse_digits t
      else parse_digits (c :: t)
  | [] => None
  end.

(** [p in s] for strings: [p] occurs in [s] as a contiguous substring. *)
Fixpoint starts_with (p s : str) : bool :=
  match p, s with
  | [], _ => true
  | a :: p', b :: s' => chr_eqb a b && starts_with p' s'
  | _ :: _, [] => false
  end.

Fixpoint contains (p s : str) : bool :=
  starts_with p s ||
  match s with
  | [] => false
  | _ :: s' => contains p s'
  end.

(** ** [get_seq_from_list] *)

Section RefSelect.
(** The function only reads the [name] attribute of the items. *)
Context {A : Type} (name_of : A -> str).

(** [[i for i, seq in enumerate(seqlist) if compare_to in seq.name]],
    counting from [i]. *)
Fixpoint matches_from (i : nat) (compare_to : str) (seqlist : list A)
  : list nat :=
  match seqlist with
  | [] => []
  | s :: rest =>
      if contains compare_to (name_of s)
      then i :: matches_from (S i) compare_to rest
      else matches_from (S i) compare_to rest
  end.

(** The [try] block: [Some] when the selector is an index in range. *)
Definition by_index (compare_to : str) (seqlist : list A) : option A :=
  match py_int compare_to with
  | None => None                                   (* ValueError *)
  | Some ref_ix =>
      match (if 0 <? ref_ix then py_index seqlist (ref_ix - 1)
             else py_index seqlist ref_ix) with
      | Ok s => Some s
      | Raise _ => None                            (* IndexError *)
      end
  end.

Definition get_seq_from_list (compare_to : str) (seqlist : list A)
  : result A :=
  match by_index compare_to seqlist with
  | Some s => Ok s
  | None =>
      match matches_from 0 compare_to seqlist with
      | [m] => py_index seqlist (Z.of_nat m)
      | _ => Raise ValueError
      end
  end.
End RefSelect.

(** ** [get_extent] *)

(** [re.search(r'[a-z]', seqstr, flags=re.I)]: the offset of the first
    letter, [None] when there is no match. *)
Fixpoint search_alpha (s : str) : option nat :=
  match s with
  | [] => None
  | c :: s' => if is_alpha c then Some 0%nat else S <$> search_alpha s'
  end.

(** [re.sub(r'[^a-z]+$', '', seqstr, flags=re.I)]: the trailing run of
    characters that are not letters is removed. *)
Definition sub_trailing_nonalpha (s : str) : str :=
  rstrip_by (fun c => negb (is_alpha c)) s.

(** Calling [.start()] on the [None] that a failed search returns raises
    [AttributeError]. *)
Definition get_extent (seqstr : str) : result (nat * nat) :=
  match search_alpha seqstr with
  | None => Raise AttributeError
  | Some start => Ok (start, length (sub_trailing_nonalpha seqstr))
  end.

(** ** Decimal output: [repr], [str] and [%] formatting of integers *)

Definition digit_chr (d : nat) : ascii := ascii_of_nat (48 + d).

Fixpoint repr_fuel (fuel n : nat) : str :=
  match fuel with
  | O => []
  | S fuel' =>
      if Nat.ltb n 10 then [digit_chr n]
      else repr_fuel fuel' (n / 10) ++ [digit_chr (n mod 10)]
  end.

(** [repr(n)] (and [str(n)]) for a non-negative [int]; [n + 1] rounds of
    division always reach a single digit. *)
Definition repr_nat (n : nat) : str := repr_fuel (S n) n.

(** ['%<w>s' % s] and ['%-<w>s' % s]: pad with spaces to width [w]; a
    longer string is left as it is. *)
Definition rjust (w : nat) (s : str) : str :=
  replicate (w - length s) " "%char ++ s.
Definition ljust (w : nat) (s : str) : str :=
  s ++ replicate (w - length s) " "%char.

(** ['%0<w>i' % n] for a non-negative [n]. *)
Definition zfill (w : nat) (s : str) : str :=
  replicate (w - length s) "0"%char ++ s.

(** [s[start:stop]] for [0 <= start]. *)
Definition slice {A} (start stop : nat) (l : list A) : list A :=
  take (stop - start) (drop start l).

(** [xrange(0, stop, step)] for a non-negative [step]; Python refuses a
    zero step. *)
Fixpoint xrange_fuel (fuel start stop step : nat) : list nat :=
  match fuel with
  | O => []
  | S fuel' =>
      if Nat.ltb start stop
      then start :: xrange_fuel fuel' (start + step) stop step
      else []
  end.

Definition xrange (stop step : nat) : result (list nat) :=
  if Nat.eqb step 0 then Raise ValueError
  else Ok (xrange_fuel stop 0 stop step).

(** ** Column statistics: [tabulate], [consensus], [count_subs] *)

(** [d[c] = d.get(c, 0) + 1] *)
Definition tally (d : gmap ascii Z) (c : ascii) : gmap ascii Z :=
  <[c := default 0 (d !! c) + 1]> d.

(** The body of [for seq in seqList]: the local [seqString] is padded,
    then every column's dictionary is incremented. *)
Definition tabulate_step (maxLength : nat) (dictList : list (gmap ascii Z))
    (seqString : str) : list (gmap ascii Z) :=
  let padded := seqString ++ replicate (maxLength - length seqString) gap_chr in
  zip_with tally dictList padded.

(** [tabulate] on the character strings of the records; [max] of an empty
    list raises [ValueError]. *)
Definition tabulate_strs (strs : list str) : result (list (gmap ascii Z)) :=
  match strs with
  | [] => Raise ValueError
  | _ :: _ =>
      let maxLength := max_list (length <$> strs) in
      Ok (foldl (tabulate_step maxLength) (replicate maxLength ∅) strs)
  end.

(** [dict(items)]: a later pair replaces an earlier one with the same key. *)
Definition dict_of_items {K V} `{Countable K} (items : list (K * V))
  : gmap K V :=
  foldl (fun m kv => <[kv.1 := kv.2]> m) ∅ items.

(** [tabdict.copy()] followed by the guarded [del tabdict[gap]]. *)
Definition drop_gap (countGaps : bool) (gap : ascii) (tabdict : gmap ascii Z)
  : gmap ascii Z :=
  if countGaps then tabdict else delete gap tabdict.

Definition consensus (tabdict : gmap ascii Z) (countGaps : bool) (plu : Z)
    (gap errorchar : ascii) : result ascii :=
  let tabdict := drop_gap countGaps gap tabdict in
  if negb countGaps && Nat.eqb (size tabdict) 0 then Ok errorchar
  else if Nat.eqb (size tabdict) 1 then
    match map_to_list tabdict with
    | (k, _) :: _ => Ok k
    | [] => Raise IndexError
    end
  else
    let rdict :=
      dict_of_items ((fun kv => (kv.2, kv.1)) <$> map_to_list tabdict) in
    let vals := reverse (merge_sort Z.le (snd <$> map_to_list tabdict)) in
    match vals with
    | majority :: second :: _ =>
        if majority - second <? plu then Ok errorchar
        else match rdict !! majority with
             | Some k => Ok k
             | None => Raise KeyError
             end
    | _ => Raise ValueError
    end.

Definition count_subs (tabdict : gmap ascii Z) (countGaps : bool)
    (gap : ascii) : result Z :=
  let tabdict := drop_gap countGaps gap tabdict in
  if Nat.leb (size tabdict) 1 then Ok 0
  else
    let vals := merge_sort Z.le (snd <$> map_to_list tabdict) in
    let total := foldl Z.add 0 vals in
    match last vals with
    | Some majority_char_count => Ok (total - majority_char_count)
    | None => Raise IndexError
    end.

(** ** [seqdiff] *)

Definition seqdiff (seq templateseq simchar : str) : result str :=
  match simchar with
  | _ :: _ :: _ => Raise ValueError
  | [_] =>
      let seqstr := upper seq in
      let templatestr := upper templateseq in
      let diff s t :=
        if chr_eqb s t && negb (chr_eqb s gap_chr) then simchar else [s] in
      Ok (concat (zip_with diff seqstr templatestr))
  | [] =>
      let seqstr := lower seq in
      let templatestr := lower templateseq in
      let diff s t := if chr_eqb s t then [upper_chr s] else [s] in
      Ok (concat (zip_with diff seqstr templatestr))
  end.

(** ** [get_vnumbers] *)

(** The loop that fills [numchars], with the counter [i]. *)
Fixpoint numchars_loop (fmt : nat -> str) (gapstr : str) (ignore_gaps : bool)
    (i : nat) (seqstr : str) : list str :=
  match seqstr with
  | [] => []
  | c :: rest =>
      if negb ignore_gaps && chr_eqb c gap_chr
      then gapstr :: numchars_loop fmt gapstr ignore_gaps i rest
      else fmt i :: numchars_loop fmt gapstr ignore_gaps (S i) rest
  end.

(** [x[n]] *)
Definition char_at (x : str) (n : nat) : result ascii :=
  match x !! n with
  | Some c => Ok c
  | None => Raise IndexError
  end.

Definition get_vnumbers (seqstr : str) (ignore_gaps leadingZeros : bool)
  : result (list str) :=
  let seqlen := length seqstr in
  let digs := length (repr_nat (seqlen + 1)) in
  let fmt i := if leadingZeros then zfill digs (repr_nat i)
               else rjust digs (repr_nat i) in
  let gapstr := replicate digs gap_chr in
  let numchars := numchars_loop fmt gapstr ignore_gaps 1 seqstr in
  if ignore_gaps && negb (bool_decide (numchars = fmt <$> seq 1 seqlen))
  then Raise AssertionError
  else rmap (fun n => rmap (fun x => char_at x n) numchars) (seq 0 digs).

(** ** [Seqobj] and the object store *)

(** The attribute [seq] is the field [seq_] here ([seq] is the list of
    consecutive numbers in the standard library). *)
Record Seqobj : Type := mkSeqobj {
  name : str;
  seq_ : str;
  reference : bool
}.

(** Objects are identified by their address in the store; a fresh object
    is placed after all existing ones. *)
Abbreviation heap := (list Seqobj).
Abbreviation ref := nat.

(** A computation reads and updates the store; an exception leaves the
    store as it was when it was raised. *)
Definition M (A : Type) : Type := heap -> heap * result A.

Definition ret {A} (a : A) : M A := fun h => (h, Ok a).
Definition raise {A} (e : exn) : M A := fun h => (h, Raise e).
Definition bind {A B} (m : M A) (k : A -> M B) : M B :=
  fun h => match m h with
           | (h', Ok a) => k a h'
           | (h', Raise e) => (h', Raise e)
           end.
Definition lift {A} (r : result A) : M A := fun h => (h, r).

Notation "'do' x <- m ; k" := (bind m (fun x => k))
  (at level 10, x name, m at level 100, k at level 200).
Notation "'run' m ; k" := (bind m (fun _ => k))
  (at level 10, m at level 100, k at level 200).

(** [Seqobj(name, seq)]: [self.seq = seq or ''] and
    [self.reference = False]. *)
Definition new_Seqobj (n s : str) : M ref :=
  fun h => (h ++ [mkSeqobj n s false], Ok (length h)).

Definition read (r : ref) : M Seqobj :=
  fun h => match h !! r with
           | Some o => (h, Ok o)
           | None => (h, Raise AttributeError)
           end.

Definition get_name (r : ref) : M str := do o <- read r ; ret (name o).
Definition get_seq (r : ref) : M str := do o <- read r ; ret (seq_ o).

Definition write (r : ref) (f : Seqobj -> Seqobj) : M unit :=
  fun h => match h !! r with
           | Some o => (<[r := f o]> h, Ok tt)
           | None => (h, Raise AttributeError)
           end.

Definition set_name (r : ref) (n : str) : M unit :=
  write r (fun o => mkSeqobj n (seq_ o) (reference o)).
Definition set_seq (r : ref) (s : str) : M unit :=
  write r (fun o => mkSeqobj (name o) s (reference o)).
Definition set_reference (r : ref) (b : bool) : M unit :=
  write r (fun o => mkSeqobj (name o) (seq_ o) b).

(** [[f(x) for x in l]] and [for x in l: body(x)] in the store. *)
Fixpoint mapM {A B} (f : A -> M B) (l : list A) : M (list B) :=
  match l with
  | [] => ret []
  | x :: l' => do y <- f x ; do ys <- mapM f l' ; ret (y :: ys)
  end.

Fixpoint for_each {A} (body : A -> M unit) (l : list A) : M unit :=
  match l with
  | [] => ret tt
  | x :: l' => run body x ; for_each body l'
  end.

(** [tabulate(seqList)] on stored records: it reads [seq.seq] and builds
    the padded copy in a local variable. *)
Definition tabulate (seqList : list ref) : M (list (gmap ascii Z)) :=
  do strs <- mapM get_seq seqList ;
  lift (tabulate_strs strs).

(** ** [reformat] *)

Record options : Type := mkOptions {
  add_consensus : bool;
  compare : bool;
  compare_to : option str;
  exclude_gapcols : bool;
  exclude_invariant : bool;
  min_subs : Z;
  simchar : str;
  countGaps : bool;
  seqrange : option (Z * Z);
  trim_to : option str;
  reference_top : bool
}.

(** The defaults of the signature. *)
Definition default_options : options :=
  mkOptions true true None true false 1 (lit ".") false None None false.

(** Truth value of an optional argument: [None] and [''] are false, and
    so is no tuple at all. *)
Definition truthy (o : option str) : bool :=
  match o with
  | Some (_ :: _) => true
  | _ => false
  end.

Definition given {A} (o : option A) : bool :=
  match o with
  | Some _ => true
  | None => false
  end.

(** [get_seq_from_list(sel, seqlist)] on stored records: the names are
    read from the store and the selected object is returned. *)
Definition select (sel : str) (seqlist : list ref) : M ref :=
  do objs <- mapM read seqlist ;
  do p <- lift (get_seq_from_list (fun p : ref * Seqobj => name p.2) sel
                  (zip seqlist objs)) ;
  ret p.1.

Definition consensus_name : str := lit "CONSENSUS".
Definition ref_prefix : str := lit "==REF==> ".

(** [''.join(c for c, m in zip(instr, mask) if m)] *)
Definition apply_mask (mask : list bool) (instr : str) : str :=
  (filter (fun cm : ascii * bool => cm.2 = true) (zip instr mask)).*1.

(** The body of the loop under [if compare:]. *)
Definition compare_body (compare_to_name compare_to_str simchar : str)
    (r : ref) : M unit :=
  do n <- get_name r ;
  if bool_decide (n = compare_to_name) then
    run set_name r (ref_prefix ++ n) ;
    set_reference r true
  else
    do s <- get_seq r ;
    do d <- lift (seqdiff s compare_to_str simchar) ;
    set_seq r d.

(** Lines 103-135: copy the records, tabulate, call the consensus, add it
    to the list and replace characters identical to the reference. *)
Definition reformat_prepare (seqs : list ref) (o : options)
  : M (list ref * list (gmap ascii Z) * str * nat) :=
  do seqlist <- mapM (fun s => do n <- get_name s ; do q <- get_seq s ;
                               new_Seqobj n q) seqs ;
  let nseqs := length seqlist in
  do tabulated <- tabulate seqlist ;
  do cs <- lift (rmap (fun d => consensus d (countGaps o) 2 gap_chr "X"%char)
                   tabulated) ;
  let consensus_str := upper cs in
  do seqlist <- (if add_consensus o then
                   do consensus_seq <- new_Seqobj consensus_name consensus_str ;
                   if reference_top o then ret (consensus_seq :: seqlist)
                   else ret (seqlist ++ [consensus_seq])
                 else ret seqlist) ;
  run (if compare o then
         do ref_ <- match compare_to o with
                    | None => ret (consensus_name, consensus_str)
                    | Some sel =>
                        do s <- select sel seqlist ;
                        do n <- get_name s ; do q <- get_seq s ; ret (n, q)
                    end ;
         for_each (compare_body ref_.1 ref_.2 (simchar o)) seqlist
       else ret tt) ;
  ret (seqlist, tabulated, consensus_str, nseqs).

(** Lines 137-154: the composed column mask. *)
Definition reformat_mask (seqlist : list ref)
    (tabulated : list (gmap ascii Z)) (nseqs : nat) (o : options)
  : M (list bool) :=
  do first <- match seqlist with
              | r :: _ => get_seq r
              | [] => raise IndexError
              end ;
  let ii := seq 0 (length first) in
  do mask <- match seqrange o with
             | Some (start, stop) =>
                 ret ((fun i : nat => (start <=? Z.of_nat i + 1)
                                      && (Z.of_nat i + 1 <=? stop)) <$> ii)
             | None =>
                 if truthy (trim_to o) then
                   do s <- select (default [] (trim_to o)) seqlist ;
                   do q <- get_seq s ;
                   do ext <- lift (get_extent q) ;
                   ret ((fun i : nat => Nat.leb ext.1 i && Nat.ltb i ext.2)
                          <$> ii)
                 else ret ((fun _ => true) <$> ii)
             end ;
  let mask :=
    if exclude_gapcols o then
      let mask1 := (fun d : gmap ascii Z =>
                      negb (default 0 (d !! gap_chr) =? Z.of_nat nseqs))
                   <$> tabulated in
      zip_with andb mask mask1
    else mask in
  if exclude_invariant o then
    do subs <- lift (rmap (fun d => count_subs d (countGaps o) gap_chr)
                       tabulated) ;
    let mask1 := (fun n => min_subs o <=? n) <$> subs in
    ret (zip_with andb mask mask1)
  else ret mask.

Definition reformat (seqs : list ref) (o : options)
  : M (list ref * list str * list bool) :=
  do p <- reformat_prepare seqs o ;
  let '(seqlist, tabulated, consensus_str, nseqs) := p in
  do mask <- reformat_mask seqlist tabulated nseqs o ;
  let number_by_str := consensus_str in
  do nums <- lift (get_vnumbers number_by_str true true) ;
  let vnumstrs := apply_mask mask <$> nums in
  run (if given (seqrange o) || exclude_invariant o || exclude_gapcols o
       then for_each (fun r => do s <- get_seq r ;
                               set_seq r (apply_mask mask s)) seqlist
       else ret tt) ;
  ret (seqlist, vnumstrs, mask).

(** ** [pagify] *)

Record layout : Type := mkLayout {
  name_min : nat;
  name_max : nat;
  nrow : nat;
  ncol : nat;
  all_numstrs : bool;
  seqnums : bool
}.

Definition default_layout : layout := mkLayout 10 35 65 70 true false.

(** [fstr % {'count': .., 'name': .., 'seqstr': ..}] where [fstr] is
    ['%(name)<name_width>s %(seqstr)-<ncol>s'], preceded by
    ['%(count)<num_width>s '] under [seqnums]. *)
Definition fstr (lay : layout) (name_width num_width : nat)
    (count name seqstr : str) : str :=
  (if seqnums lay then rjust num_width count ++ lit " " else [])
  ++ rjust name_width name ++ lit " " ++ ljust (ncol lay) seqstr.

(** ['sequences %s to %s of %s' % (first + 1, last, seqcount)] *)
Definition status_line (first last seqcount : nat) : str :=
  lit "sequences " ++ repr_nat (first + 1) ++ lit " to " ++ repr_nat last
  ++ lit " of " ++ repr_nat seqcount.

(** The lines that carry the column numbers of a block. *)
Definition number_lines (lay : layout) (name_width num_width : nat)
    (vnumstrs : list str) (start stop : nat) : list str :=
  if all_numstrs lay then
    (fun s => fstr lay name_width num_width [] (lit "#") (slice start stop s))
      <$> vnumstrs
  else
    let half_ncol := ((stop - start) / 2)%nat in
    [replicate name_width " "%char ++ lit " "
     ++ ljust half_ncol (repr_nat (start + 1))
     ++ rjust half_ncol (repr_nat stop) ++ ["010"%char]].

(** The records of a block; [counter] is the next value of [counter.next()]. *)
Fixpoint record_lines (lay : layout) (name_width num_width : nat)
    (start stop : nat) (counter : nat) (this_seqlist : list Seqobj)
  : list str :=
  match this_seqlist with
  | [] => []
  | s :: rest =>
      fstr lay name_width num_width (repr_nat counter)
        (take name_width (name s)) (slice start stop (seq_ s))
      :: record_lines lay name_width num_width start stop (S counter) rest
  end.

(** One pass of the inner loop: the block of rows that starts at [first]. *)
Definition page (lay : layout) (name_width num_width : nat)
    (seqlist : list Seqobj) (vnumstrs : list str) (start stop : nat)
    (counter first : nat) : list str :=
  let seqcount := length seqlist in
  let last := Nat.min (first + nrow lay) seqcount in
  let msg := if Nat.ltb (nrow lay) seqcount
             then [status_line first last seqcount] else [] in
  let this_seqlist := slice first last seqlist in
  msg ++ number_lines lay name_width num_width vnumstrs start stop
      ++ record_lines lay name_width num_width start stop counter this_seqlist.

(** The inner loop over the row blocks, threading the counter. *)
Fixpoint row_blocks (lay : layout) (name_width num_width : nat)
    (seqlist : list Seqobj) (vnumstrs : list str) (start stop : nat)
    (counter : nat) (firsts : list nat) : list (list str) :=
  match firsts with
  | [] => []
  | first :: rest =>
      let last := Nat.min (first + nrow lay) (length seqlist) in
      page lay name_width num_width seqlist vnumstrs start stop counter first
      :: row_blocks lay name_width num_width seqlist vnumstrs start stop
           (counter + length (slice first last seqlist)) rest
  end.

(** The outer loop over the column blocks. *)
Fixpoint col_blocks (lay : layout) (name_width num_width : nat)
    (seqlist : list Seqobj) (vnumstrs : list str) (colstop : nat)
    (starts : list nat) : result (list (list str)) :=
  match starts with
  | [] => Ok []
  | start :: rest =>
      let stop := Nat.min (start + ncol lay) colstop in
      rbind (xrange (length seqlist) (nrow lay)) (fun firsts =>
      rbind (col_blocks lay name_width num_width seqlist vnumstrs colstop rest)
        (fun out =>
      Ok (row_blocks lay name_width num_width seqlist vnumstrs start stop 1
            firsts ++ out)))
  end.

(** [pagify] reads the records and writes nothing, so it takes them by
    value.  [num_width] is [floor(log10(seqcount)) + 1], the number of
    decimal digits of [seqcount]. *)
Definition pagify (seqlist : list Seqobj) (vnumstrs : list str)
    (lay : layout) : result (list (list str)) :=
  let seqcount := length seqlist in
  match seqlist with
  | [] => Raise ValueError
  | s0 :: _ =>
      let longest_name := max_list ((fun s => length (name s)) <$> seqlist) in
      let name_width :=
        Nat.max (name_min lay) (Nat.min longest_name (name_max lay)) in
      let num_width := length (repr_nat seqcount) in
      let colstop := length (seq_ s0) in
      rbind (xrange colstop (ncol lay)) (fun starts =>
        col_blocks lay name_width num_width seqlist vnumstrs colstop starts)
  end.

(** ** [readfasta] *)

(** The argument [name_split]: [False], [None] or a separator string. *)
Inductive name_split_arg : Type :=
| SplitFalse
| SplitNone
| SplitOn (sep : str).

Fixpoint take_while {A} (p : A -> bool) (l : list A) : list A :=
  match l with
  | [] => []
  | x :: l' => if p x then x :: take_while p l' else []
  end.

(** [s.strip()] *)
Definition strip (s : str) : str :=
  rstrip_by is_space (drop_while is_space s).

(** [s.lstrip(chars)] *)
Definition lstrip_chars (chars s : str) : str :=
  drop_while (fun c => existsb (chr_eqb c) chars) s.

(** [s.replace('-', '')] *)
Definition remove_gaps (s : str) : str :=
  filter (fun c => c <> gap_chr) s.

(** [s.split(None, 1)[0]]: the first run of characters that are not white
    space; the list of fields is empty when there is none, and indexing
    it raises [IndexError]. *)
Definition first_field (s : str) : result str :=
  match drop_while is_space s with
  | [] => Raise IndexError
  | c :: t => Ok (take_while (fun c => negb (is_space c)) (c :: t))
  end.

(** [s.split(sep, 1)[0]] for a non-empty [sep]: what precedes the first
    occurrence of [sep], or all of [s]. *)
Fixpoint before_first (sep s : str) : str :=
  if starts_with sep s then []
  else match s with
       | [] => []
       | c :: s' => c :: before_first sep s'
       end.

(** The name that a header line defines. *)
Definition header_name (name_split : name_split_arg) (line : str)
  : result str :=
  let rest := lstrip_chars (lit "> ") line in
  match name_split with
  | SplitFalse => Ok rest
  | SplitNone => first_field rest
  | SplitOn [] => Raise ValueError
  | SplitOn sep => Ok (before_first sep rest)
  end.

(** [if name: yield Seqobj(name, seq)] *)
Definition yield_record (name seq : str) : list Seqobj :=
  match name with
  | [] => []
  | _ :: _ => [mkSeqobj name seq false]
  end.

(** The loop of [readfasta] over the lines of the file, with the current
    [name] and [seq]; the result is the list of the records that the
    generator yields when it is run to its end. *)
Fixpoint readfasta_loop (degap : bool) (name_split : name_split_arg)
    (infile : list str) (name seq : str) : result (list Seqobj) :=
  match infile with
  | [] => Ok (yield_record name seq)
  | raw :: rest =>
      let line := strip raw in
      if starts_with (lit ">") line then
        rbind (header_name name_split line) (fun name' =>
        rbind (readfasta_loop degap name_split rest name' []) (fun out =>
        Ok (yield_record name seq ++ out)))
      else
        readfasta_loop degap name_split rest name
          (seq ++ (if degap then remove_gaps line else line))
  end.

Definition readfasta (infile : list str) (degap : bool)
    (name_split : name_split_arg) : result (list Seqobj) :=
  readfasta_loop degap name_split infile [] [].

(** ** Notions used to state the properties *)

(** [p] occurs in [s]: the meaning of Python's [p in s] on strings. *)
Definition substring (p s : str) : Prop :=
  exists pre post, s = pre ++ p ++ post.

(** Item [i] is the only item of [l] whose name has [sel] as a substring. *)
Definition unique_match {A} (name_of : A -> str) (sel : str) (l : list A)
    (i : nat) : Prop :=
  (exists x, l !! i = Some x /\ substring sel (name_of x)) /\
  (forall j y, l !! j = Some y -> substring sel (name_of y) -> j = i).

(** The records of the reference-resolution example. *)
Definition foo_bar_foobar : list Seqobj :=
  [mkSeqobj (lit "foo") (lit "ACGT") false;
   mkSeqobj (lit "bar") (lit "ACGA") false;
   mkSeqobj (lit "foobar") (lit "AC-T") false].

(** A Hoare triple for store computations: from a store that satisfies
    [P], a normal return with value [a] leaves a store that satisfies
    [Q a], and an exception [e] leaves one that satisfies [E e]. *)
Definition hoare {A} (P : heap -> Prop) (m : M A)
    (Q : A -> heap -> Prop) (E : exn -> heap -> Prop) : Prop :=
  forall h, P h ->
    match m h with
    | (h', Ok a) => Q a h'
    | (h', Raise e) => E e h'
    end.

(** The attribute [seq] of the object at [r] has [n] characters. *)
Definition seq_length_at (h : heap) (n : nat) (r : ref) : Prop :=
  exists o, h !! r = Some o /\ length (seq_ o) = n.

(** A computation that leaves every store as it finds it. *)
Definition readonly {A} (m : M A) : Prop := forall h, (m h).1 = h.

(** Relative to the store [h0] at the time of a call: a later store
    [h] still holds every object of [h0] unchanged, and [r] is the address
    of an object created since. *)
Definition extends (h0 h : heap) : Prop := h0 `prefix_of` h.
Definition fresh (h0 : heap) (r : ref) : Prop := (length h0 <= r)%nat.

(** A store with a record that holds gaps only, and a configuration that
    trims to it. *)
Definition gap_record_store : heap :=
  [mkSeqobj (lit "a") (lit "AC-T") false;
   mkSeqobj (lit "gaps") (lit "----") false].

Definition trim_to_gap_record : options :=
  mkOptions true true None true false 1 (lit ".") false None
    (Some (lit "gaps")) false.

(** Column tables of the consensus examples. *)
Definition table_A5_G4 : gmap ascii Z := {[ "A"%char := 5; "G"%char := 4 ]}.
Definition table_A5_G3 : gmap ascii Z := {[ "A"%char := 5; "G"%char := 3 ]}.
Definition table_X5_A1 : gmap ascii Z := {[ "X"%char := 5; "A"%char := 1 ]}.

(** In the table [d], [k1] is a most frequent character with count [m]
    and [k2] is a most frequent one among the others, with count [s]. *)
Definition top_two (d : gmap ascii Z) (k1 k2 : ascii) (m s : Z) : Prop :=
  k1 <> k2 /\ d !! k1 = Some m /\ d !! k2 = Some s /\
  (forall k v, d !! k = Some v -> v <= m) /\
  (forall k v, k <> k1 -> d !! k = Some v -> v <= s).

(** The record string [s] padded with gaps to [n] columns, and the number
    of the records [strs] whose padded string has [c] in column [i]. *)
Definition padded (n : nat) (s : str) : str :=
  s ++ replicate (n - length s) gap_chr.

Fixpoint column_count (n : nat) (strs : list str) (i : nat) (c : ascii) : Z :=
  match strs with
  | [] => 0
  | s :: rest =>
      (if bool_decide (padded n s !! i = Some c) then 1 else 0)
      + column_count n rest i c
  end.

(** The dictionary [d] holds exactly the characters of non-zero count. *)
Definition table_of (cnt : ascii -> Z) (d : gmap ascii Z) : Prop :=
  forall c, d !! c = if cnt c =? 0 then None else Some (cnt c).

(** An alignment of 130 records and 150 columns. *)
Definition alignment_130x150 : list Seqobj :=
  replicate 130 (mkSeqobj (lit "seq") (replicate 150 "A"%char) false).

(** Two aligned records, and the default configuration except that
    all-gap columns are kept and the alignment is trimmed to the first
    record. *)
Definition trim_only_store : heap :=
  [mkSeqobj (lit "s1") (lit "-AC") false;
   mkSeqobj (lit "s2") (lit "-AG") false].

Definition trim_only_options : options :=
  mkOptions true true None false false 1 (lit ".") false None
    (Some (lit "1")) false.

(** The number of columns that a mask keeps. *)
Definition kept (mask : list bool) : nat :=
  length (filter (fun m : bool => m = true) mask).

(** The objects listed in [sl] are distinct and each holds [n] characters. *)
Definition aligned_at (n : nat) (sl : list ref) (h : heap) : Prop :=
  NoDup sl /\ Forall (seq_length_at h n) sl.

(** No postcondition on a failing run. *)
Definition any_failure : exn -> heap -> Prop := fun _ _ => True.

(** [sum(tabdict.values())] *)
Definition table_total (d : gmap ascii Z) : Z :=
  foldr Z.add 0 (map_to_list d).*2.

(** The positions of the true entries of a mask, counted from [i]. *)
Fixpoint true_indices (i : nat) (mask : list bool) : list nat :=
  match mask with
  | [] => []
  | m :: rest =>
      if m then i :: true_indices (S i) rest else true_indices (S i) rest
  end.

(** The number of characters other than the gap among the first [j]. *)
Definition non_gaps_before (s : str) (j : nat) : nat :=
  length (filter (fun c => c <> gap_chr) (take j s)).

(** The column tables of the records of [gap_record_store]. *)
Definition gap_record_tables : list (gmap ascii Z) :=
  match tabulate_strs (seq_ <$> gap_record_store) with
  | Ok t => t
  | Raise _ => []
  end.

(** The number of blocks of [step] items that cover [n] items. *)
Definition ceil_div (n step : nat) : nat := ((n + step - 1) / step)%nat.

(** The width of a record line: the optional counter, the name column and
    the column block, separated by single spaces. *)
Definition line_width (lay : layout) (name_width num_width : nat) : nat :=
  ((if seqnums lay then num_width + 1 else 0) + name_width + 1 + ncol lay)%nat.

(** The lines of a FASTA file that holds the records [rs], each a name, a
    description and the lines of its sequence: a header line
    ['>name description'] followed by the sequence lines, every line
    ended by a newline character. *)
Definition fasta_lines (rs : list (str * str * list str)) : list str :=
  rs ≫= (fun '(n, d, ls) =>
           (lit ">" ++ n ++ lit " " ++ d ++ ["010"%char])
           :: ((fun l => l ++ ["010"%char]) <$> ls)).

(** The record, its lines and its names are such that the file reads
    back: the name is not empty, starts with no ['>'] and has no white
    space; the sequence lines start with no ['>'] and have no white
    space. *)
Definition plain_record (r : str * str * list str) : Prop :=
  let '(n, d, ls) := r in
  n <> [] /\ head n <> Some ">"%char
  /\ Forall (fun c => is_space c = false) n
  /\ Forall (fun l => head l <> Some ">"%char
                      /\ Forall (fun c => is_space c = false) l) ls.

(** [raw] is a header line of the file. *)
Definition is_header (raw : str) : bool := starts_with (lit ">") (strip raw).

(** The line that shows the record [s] in the columns [start..stop] with
    the number [number]: the number, right-justified in [num_width]
    characters and followed by a blank (under [seqnums] only), the
    first [name_width] characters of the name, right-justified, a blank,
    and the columns, padded with blanks to [ncol] characters. *)
Definition record_line (lay : layout) (name_width num_width : nat)
    (start stop : nat) (number : nat) (s : Seqobj) : str :=
  (if seqnums lay then rjust num_width (repr_nat number) ++ lit " " else [])
  ++ rjust name_width (take name_width (name s)) ++ lit " "
  ++ ljust (ncol lay) (slice start stop (seq_ s)).

(** The lines of the records [l], which follow the first [first] records
    of the list: record [k] of [l] has the number [first + k + 1]. *)
Definition shown_records (lay : layout) (name_width num_width : nat)
    (start stop : nat) (first : nat) (l : list Seqobj) : list str :=
  imap (fun k s =>
          record_line lay name_width num_width start stop (first + k + 1) s)
    l.

(** The page that shows the columns [start..stop] of the [nrow] records
    that follow the first [first] ones: the status line when there are
    more than [nrow] records, the lines of the column numbers, and the
    lines of the records. *)
Definition shown_page (lay : layout) (name_width num_width : nat)
    (seqlist : list Seqobj) (vnumstrs : list str) (start stop : nat)
    (first : nat) : list str :=
  let seqcount := length seqlist in
  let last := Nat.min (first + nrow lay) seqcount in
  (if Nat.ltb (nrow lay) seqcount
   then [lit "sequences " ++ repr_nat (first + 1) ++ lit " to "
         ++ repr_nat last ++ lit " of " ++ repr_nat seqcount]
   else [])
  ++ number_lines lay name_width num_width vnumstrs start stop
  ++ shown_records lay name_width num_width start stop first
       (slice first last seqlist).

(** * Properties *)

(** ** Characters and strings *)

Lemma chr_eqb_eq a b : chr_eqb a b = true <-> a = b.
Proof. unfold chr_eqb. apply Ascii.eqb_eq. Qed.

Lemma chr_eqb_refl a : chr_eqb a a = true.
Proof. by apply chr_eqb_eq. Qed.

Lemma chr_eqb_neq a b : chr_eqb a b = false <-> a <> b.
Proof. unfold chr_eqb. apply Ascii.eqb_neq. Qed.

Lemma starts_with_spec p s :
  starts_with p s = true <-> exists post, s = p ++ post.
Proof.
  revert s. induction p as [|a p IH]; intros s; simpl.
  - split; eauto.
  - destruct s as [|b s]; simpl.
    + split; [done | intros [post H]; discriminate].
    + rewrite andb_true_iff, chr_eqb_eq, IH. split.
      * intros [-> [post ->]]. eauto.
      * intros [post H]. injection H as -> ->. eauto.
Qed.

Lemma contains_spec p s : contains p s = true <-> substring p s.
Proof.
  unfold substring. induction s as [|b s IH]; simpl.
  - rewrite orb_false_r, starts_with_spec. split.
    + intros [post H]. exists [], post. done.
    + intros (pre & post & H). destruct pre; simpl in H.
      * eauto.
      * discriminate.
  - rewrite orb_true_iff, starts_with_spec, IH. split.
    + intros [[post H] | (pre & post & H)].
      * exists [], post. done.
      * exists (b :: pre), post. by rewrite H.
    + intros (pre & post & H). destruct pre as [|c pre]; simpl in H.
      * left. eauto.
      * right. injection H as _ H. eauto.
Qed.

(** ** Python indexing *)

Ltac zcases :=
  repeat match goal with
    | |- context [Z.leb ?a ?b] => destruct (Z.leb_spec a b)
    | |- context [Z.ltb ?a ?b] => destruct (Z.ltb_spec a b)
    end; simpl; try lia; try done.

Lemma py_index_nonneg {A} (l : list A) (i : nat) x :
  l !! i = Some x -> py_index l (Z.of_nat i) = Ok x.
Proof.
  intros H. unfold py_index. pose proof (lookup_lt_Some _ _ _ H) as Hlt.
  cbv zeta. zcases. rewrite Nat2Z.id, H. done.
Qed.

Lemma py_index_neg {A} (l : list A) (k : nat) x :
  (0 < k)%nat -> l !! (length l - k)%nat = Some x -> (k <= length l)%nat ->
  py_index l (- Z.of_nat k) = Ok x.
Proof.
  intros Hk H Hle. unfold py_index. cbv zeta. zcases.
  replace (Z.to_nat (Z.of_nat (length l) + - Z.of_nat k))
    with (length l - k)%nat by lia.
  by rewrite H.
Qed.

Lemma py_index_out {A} (l : list A) (i : Z) :
  i < - Z.of_nat (length l) \/ Z.of_nat (length l) <= i ->
  py_index l i = Raise IndexError.
Proof. intros H. unfold py_index. cbv zeta. zcases. Qed.

(** ** Reference resolution *)

Section RefSelectFacts.
Context {A : Type} (name_of : A -> str).

Lemma matches_from_spec sel (l : list A) i m :
  m ∈ matches_from name_of i sel l <->
  exists j x, m = (i + j)%nat /\ l !! j = Some x /\
              contains sel (name_of x) = true.
Proof.
  revert i. induction l as [|a l IH]; intros i; simpl.
  - split; [by intros ?%elem_of_nil | by intros (j & x & _ & ? & _)].
  - destruct (contains sel (name_of a)) eqn:E.
    + rewrite elem_of_cons, IH. split.
      * intros [-> | (j & x & -> & Hj & Hx)].
        -- exists 0%nat, a. split; [lia | done].
        -- exists (S j), x. split; [lia | done].
      * intros (j & x & -> & Hj & Hx). destruct j as [|j]; simpl in Hj.
        -- left. lia.
        -- right. exists j, x. split; [lia | done].
    + rewrite IH. split.
      * intros (j & x & -> & Hj & Hx). exists (S j), x. split; [lia | done].
      * intros (j & x & -> & Hj & Hx). destruct j as [|j]; simpl in Hj.
        -- injection Hj as ->. congruence.
        -- exists j, x. split; [lia | done].
Qed.

Lemma matches_from_NoDup sel (l : list A) i :
  NoDup (matches_from name_of i sel l).
Proof.
  revert i. induction l as [|a l IH]; intros i; simpl.
  - constructor.
  - destruct (contains sel (name_of a)); [|apply IH].
    constructor; [|apply IH].
    rewrite matches_from_spec. intros (j & x & Hj & _). lia.
Qed.

Lemma matches_unique sel (l : list A) i :
  unique_match name_of sel l i <-> matches_from name_of 0 sel l = [i].
Proof.
  unfold unique_match. split.
  - intros [(x & Hx & Hs) Huniq].
    assert (Hin : i ∈ matches_from name_of 0 sel l).
    { apply matches_from_spec. exists i, x. by rewrite contains_spec. }
    assert (Hall : forall m, m ∈ matches_from name_of 0 sel l -> m = i).
    { intros m (j & y & -> & Hj & Hc)%matches_from_spec.
      apply contains_spec in Hc. simpl. eauto. }
    pose proof (matches_from_NoDup sel l 0) as Hnd.
    destruct (matches_from name_of 0 sel l) as [|m1 [|m2 ms]].
    + by apply elem_of_nil in Hin.
    + f_equal. apply Hall. left.
    + exfalso. apply NoDup_cons in Hnd as [Hnot _]. apply Hnot.
      rewrite (Hall m1), (Hall m2); [left | right; left | left].
  - intros Heq.
    assert (Hin : i ∈ matches_from name_of 0 sel l) by (rewrite Heq; left).
    apply matches_from_spec in Hin as (j & x & -> & Hj & Hc). simpl. split.
    + exists x. by rewrite <- contains_spec.
    + intros k y Hk Hy.
      assert (Hk' : k ∈ matches_from name_of 0 sel l).
      { apply matches_from_spec. exists k, y. by rewrite contains_spec. }
      rewrite Heq in Hk'. by apply list_elem_of_singleton in Hk'.
Qed.

Lemma by_index_not_int sel (l : list A) :
  py_int sel = None -> by_index sel l = None.
Proof. unfold by_index. by intros ->. Qed.

Lemma by_index_positive sel (l : list A) (n : nat) x :
  py_int sel = Some (Z.of_nat (S n)) -> l !! n = Some x ->
  by_index sel l = Some x.
Proof.
  intros Hint Hx. unfold by_index. rewrite Hint.
  replace (0 <? Z.of_nat (S n)) with true by (symmetry; apply Z.ltb_lt; lia).
  replace (Z.of_nat (S n) - 1) with (Z.of_nat n) by lia.
  by rewrite (py_index_nonneg _ _ _ Hx).
Qed.

Lemma by_index_nonpositive sel (l : list A) (k : nat) :
  py_int sel = Some (- Z.of_nat k) ->
  by_index sel l = match py_index l (- Z.of_nat k) with
                   | Ok s => Some s
                   | Raise _ => None
                   end.
Proof.
  intros Hint. unfold by_index. rewrite Hint.
  by replace (0 <? - Z.of_nat k) with false
    by (symmetry; apply Z.ltb_ge; lia).
Qed.
End RefSelectFacts.

(** ** C2: reference resolution *)

Lemma by_index_out_of_range {A} sel (l : list A) n :
  py_int sel = Some n ->
  Z.of_nat (length l) < n \/ n < - Z.of_nat (length l) ->
  by_index sel l = None.
Proof.
  intros Hint Hn. unfold by_index. rewrite Hint.
  destruct (Z.ltb_spec 0 n); rewrite py_index_out; (done || lia).
Qed.

(** C2 (as stated, refuted): with records named foo, bar and foobar the
    selector "bar" does not resolve to the record at index 1 (it is a
    substring of two names, so the call raises), and the selector "0"
    does not resolve to [records[-1]] (it resolves to [records[0]]). *)
Lemma get_seq_from_list_claimed_examples_fail :
  get_seq_from_list name (lit "bar") foo_bar_foobar
    <> py_index foo_bar_foobar 1 /\
  get_seq_from_list name (lit "0") foo_bar_foobar
    <> py_index foo_bar_foobar (-1).
Proof. split; vm_compute; discriminate. Qed.

(** C2 (amended): with records named foo, bar and foobar, "2" resolves to
    [records[1]], "0" to [records[0]], "-1" to [records[-1]], and both
    "bar" (a substring of two names) and "xyz" (of none) raise
    [ValueError].  In general a positive integer selector within range is
    a 1-based index from the start; a zero or negative one within range is
    the Python index [records[n]], so 0 is the first record and [-k] the
    [k]-th from the end; every other selector, an integer out of range
    included, must be a case-sensitive substring of exactly one record's
    name and raises [ValueError] otherwise. *)
Theorem get_seq_from_list_resolution :
  (get_seq_from_list name (lit "2") foo_bar_foobar = py_index foo_bar_foobar 1
   /\ get_seq_from_list name (lit "0") foo_bar_foobar
      = py_index foo_bar_foobar 0
   /\ get_seq_from_list name (lit "-1") foo_bar_foobar
      = py_index foo_bar_foobar (-1)
   /\ get_seq_from_list name (lit "bar") foo_bar_foobar = Raise ValueError
   /\ get_seq_from_list name (lit "xyz") foo_bar_foobar = Raise ValueError)
  /\ forall (A : Type) (name_of : A -> str) (sel : str) (l : list A),
      (forall (n : nat) x,
          py_int sel = Some (Z.of_nat (S n)) -> l !! n = Some x ->
          get_seq_from_list name_of sel l = Ok x)
      /\ (forall x,
          py_int sel = Some 0 -> l !! 0%nat = Some x ->
          get_seq_from_list name_of sel l = Ok x)
      /\ (forall (k : nat) x,
          py_int sel = Some (- Z.of_nat (S k)) ->
          (S k <= length l)%nat -> l !! (length l - S k)%nat = Some x ->
          get_seq_from_list name_of sel l = Ok x)
      /\ (py_int sel = None -> by_index sel l = None)
      /\ (forall n, py_int sel = Some n ->
          Z.of_nat (length l) < n \/ n < - Z.of_nat (length l) ->
          by_index sel l = None)
      /\ (forall i x,
          by_index sel l = None -> unique_match name_of sel l i ->
          l !! i = Some x ->
          get_seq_from_list name_of sel l = Ok x)
      /\ (by_index sel l = None ->
          (forall i, ~ unique_match name_of sel l i) ->
          get_seq_from_list name_of sel l = Raise ValueError).
Proof.
  split; [by vm_compute|].
  intros A name_of sel l. unfold get_seq_from_list. repeat split.
  - intros n x Hint Hx. by rewrite (by_index_positive sel l n x).
  - intros x Hint Hx. rewrite (by_index_nonpositive sel l 0) by done.
    change (- Z.of_nat 0) with (Z.of_nat 0).
    by rewrite (py_index_nonneg _ _ _ Hx).
  - intros k x Hint Hk Hx. rewrite (by_index_nonpositive sel l (S k)) by done.
    rewrite (py_index_neg l (S k) x); [done | lia | done | done].
  - apply by_index_not_int.
  - apply by_index_out_of_range.
  - intros i x -> Hu Hx. apply matches_unique in Hu. rewrite Hu.
    by apply py_index_nonneg.
  - intros -> Hnone.
    destruct (matches_from name_of 0 sel l) as [|m [|m' ms]] eqn:E; try done.
    exfalso. apply (Hnone m). by apply matches_unique.
Qed.

Lemma get_seq_from_list_resolution_witness :
  get_seq_from_list name (lit "3") foo_bar_foobar = py_index foo_bar_foobar 2
  /\ get_seq_from_list name (lit "0") foo_bar_foobar
     = py_index foo_bar_foobar 0
  /\ get_seq_from_list name (lit "-2") foo_bar_foobar
     = py_index foo_bar_foobar 1
  /\ get_seq_from_list name (lit "oob") foo_bar_foobar
     = py_index foo_bar_foobar 2
  /\ get_seq_from_list name (lit "9") foo_bar_foobar = Raise ValueError.
Proof.
  pose proof (proj2 get_seq_from_list_resolution Seqobj name) as H.
  split; [|split; [|split; [|split]]].
  - destruct (H (lit "3") foo_bar_foobar) as (H1 & _).
    apply (H1 2%nat); reflexivity.
  - destruct (H (lit "0") foo_bar_foobar) as (_ & H2 & _).
    apply H2; reflexivity.
  - destruct (H (lit "-2") foo_bar_foobar) as (_ & _ & H3 & _).
    apply (H3 1%nat); [reflexivity | simpl; lia | reflexivity].
  - destruct (H (lit "oob") foo_bar_foobar) as (_ & _ & _ & H4 & _ & H6 & _).
    apply (H6 2%nat); [apply H4; reflexivity | | reflexivity].
    apply matches_unique. reflexivity.
  - destruct (H (lit "9") foo_bar_foobar) as (_ & _ & _ & _ & H5 & _ & H7).
    apply H7.
    + apply (H5 9); [reflexivity | simpl; lia].
    + intros i Hi. apply matches_unique in Hi. discriminate Hi.
Defined.

(** ** C10: the extent of a sequence *)

Lemma search_alpha_None s :
  search_alpha s = None <-> forall c, c ∈ s -> is_alpha c = false.
Proof.
  induction s as [|a s IH]; simpl.
  - split; [intros _ c Hc; by apply elem_of_nil in Hc | done].
  - destruct (is_alpha a) eqn:E.
    + split; [done | intros H; specialize (H a); rewrite E in H].
      discriminate H. left.
    + destruct (search_alpha s) as [i|]; simpl.
      * split; [done | intros H]. exfalso.
        assert (Some i = None); [|done].
        apply IH. intros c Hc. apply H. by right.
      * split; [|done]. intros _ c [->|Hc]%elem_of_cons; [done|].
        by apply IH.
Qed.

Lemma search_alpha_Some s i :
  search_alpha s = Some i ->
  exists c, s !! i = Some c /\ is_alpha c = true /\
            forall k c', (k < i)%nat -> s !! k = Some c' -> is_alpha c' = false.
Proof.
  revert i. induction s as [|a s IH]; intros i; simpl; [done|].
  destruct (is_alpha a) eqn:E.
  - intros [= <-]. exists a. repeat split; [done|]. intros; lia.
  - destruct (search_alpha s) as [j|]; simpl; [|done].
    intros [= <-]. destruct (IH j eq_refl) as (c & Hc & Ha & Hbefore).
    exists c. repeat split; [done | done |].
    intros [|k] c' Hk; simpl; [by intros [= <-] | intros Hk'].
    apply (Hbefore k); [lia | done].
Qed.

Lemma drop_while_split {A} (p : A -> bool) (l : list A) :
  exists pre, l = pre ++ drop_while p l /\
              Forall (fun x => p x = true) pre /\
              match drop_while p l with
              | [] => True
              | x :: _ => p x = false
              end.
Proof.
  induction l as [|a l (pre & Heq & Hall & Hhd)]; simpl.
  - exists []. by repeat split.
  - destruct (p a) eqn:E.
    + exists (a :: pre).
      repeat split; [simpl; by f_equal | by constructor | done].
    + exists []. by repeat split.
Qed.

(** What remains of [s] when its trailing run of [p]-characters is
    removed: empty, or ending in a character outside [p]. *)
Lemma rstrip_by_spec (p : ascii -> bool) (s : str) :
  exists tail, s = rstrip_by p s ++ tail /\
               Forall (fun c => p c = true) tail /\
               (rstrip_by p s = [] \/
                exists init x, rstrip_by p s = init ++ [x] /\ p x = false).
Proof.
  unfold rstrip_by.
  destruct (drop_while_split p (reverse s)) as (pre & Heq & Hall & Hhd).
  exists (reverse pre). repeat split.
  - rewrite <- reverse_app, <- Heq. by rewrite reverse_involutive.
  - by apply Forall_reverse.
  - destruct (drop_while p (reverse s)) as [|x rest]; [by left | right].
    exists (reverse rest), x. by rewrite reverse_cons.
Qed.

Lemma get_extent_no_letter s :
  (forall c, c ∈ s -> is_alpha c = false) ->
  get_extent s = Raise AttributeError.
Proof.
  intros H. unfold get_extent. by rewrite (proj2 (search_alpha_None s) H).
Qed.

Lemma get_extent_letter s :
  (exists c, c ∈ s /\ is_alpha c = true) ->
  exists i j ci cj,
    get_extent s = Ok (i, S j) /\ (i <= j)%nat /\
    s !! i = Some ci /\ is_alpha ci = true /\
    s !! j = Some cj /\ is_alpha cj = true /\
    forall k c, s !! k = Some c -> (k < i \/ j < k)%nat -> is_alpha c = false.
Proof.
  intros (c0 & Hin & Hc0). unfold get_extent.
  destruct (search_alpha s) as [i|] eqn:Es.
  2:{ rewrite (proj1 (search_alpha_None s) Es c0 Hin) in Hc0. done. }
  destruct (search_alpha_Some s i Es) as (ci & Hi & Hai & Hbefore).
  unfold sub_trailing_nonalpha.
  destruct (rstrip_by_spec (fun c => negb (is_alpha c)) s)
    as (tail & Heq & Htail & [Hnil | (init & x & Hinit & Hx)]).
  - exfalso. rewrite Hnil in Heq. simpl in Heq. subst tail.
    rewrite Forall_forall in Htail. specialize (Htail c0 Hin). simpl in Htail.
    by rewrite Hc0 in Htail.
  - apply negb_false_iff in Hx.
    rewrite Hinit, length_app. simpl.
    replace (length init + 1)%nat with (S (length init)) by lia.
    assert (Hj : s !! length init = Some x).
    { rewrite Heq, Hinit, <- app_assoc. simpl.
      by rewrite list_lookup_middle. }
    assert (Hafter : forall k c, s !! k = Some c -> (length init < k)%nat ->
                                 is_alpha c = false).
    { intros k c Hk Hlt. rewrite Heq, Hinit, <- app_assoc in Hk. simpl in Hk.
      rewrite lookup_app_r in Hk by lia.
      destruct (k - length init)%nat as [|m] eqn:Ek; [lia|]. simpl in Hk.
      rewrite Forall_forall in Htail.
      apply negb_true_iff, Htail. by eapply list_elem_of_lookup_2. }
    exists i, (length init), ci, x. repeat split; try done.
    + destruct (decide (i <= length init)%nat) as [|Hgt]; [done|].
      rewrite (Hafter i ci Hi) in Hai; [done | lia].
    + intros k c Hk [Hlt | Hgt]; [by apply (Hbefore k) | by apply (Hafter k)].
Qed.

(** ** A program logic for the object store *)

Section Hoare.
Context {A B : Type}.
Implicit Types (P : heap -> Prop) (E : exn -> heap -> Prop).

Lemma hoare_ret P (a : A) (Q : A -> heap -> Prop) E :
  (forall h, P h -> Q a h) -> hoare P (ret a) Q E.
Proof. intros H h HP. simpl. by apply H. Qed.

Lemma hoare_raise P e (Q : A -> heap -> Prop) E :
  (forall h, P h -> E e h) -> hoare P (raise e) Q E.
Proof. intros H h HP. simpl. by apply H. Qed.

Lemma hoare_lift P (r : result A) (Q : A -> heap -> Prop) E :
  (forall h, P h -> match r with Ok a => Q a h | Raise e => E e h end) ->
  hoare P (lift r) Q E.
Proof. intros H h HP. unfold lift. specialize (H h HP). by destruct r. Qed.

Lemma hoare_bind P (m : M A) (k : A -> M B) R
    (Q : B -> heap -> Prop) E :
  hoare P m R E -> (forall a, hoare (R a) (k a) Q E) ->
  hoare P (bind m k) Q E.
Proof.
  intros Hm Hk h HP. unfold bind. specialize (Hm h HP).
  destruct (m h) as [h' [a|e]]; [by apply Hk | done].
Qed.

Lemma hoare_conseq P P' (m : M A) (Q Q' : A -> heap -> Prop) E E' :
  hoare P' m Q' E' ->
  (forall h, P h -> P' h) -> (forall a h, Q' a h -> Q a h) ->
  (forall e h, E' e h -> E e h) ->
  hoare P m Q E.
Proof.
  intros Hm HP HQ HE h Hh. specialize (Hm h (HP h Hh)).
  destruct (m h) as [h' [a|e]]; auto.
Qed.

Lemma hoare_pre P (m : M A) (Q : A -> heap -> Prop) E (X : Prop) :
  (X -> hoare P m Q E) -> hoare (fun h => X /\ P h) m Q E.
Proof. intros H h [HX HP]. by apply H. Qed.
End Hoare.

Lemma hoare_read P r (Q : Seqobj -> heap -> Prop) E :
  (forall h, P h -> match h !! r with
                    | Some o => Q o h
                    | None => E AttributeError h
                    end) ->
  hoare P (read r) Q E.
Proof.
  intros H h HP. unfold read. specialize (H h HP). by destruct (h !! r).
Qed.

Lemma hoare_get_name P r (Q : str -> heap -> Prop) E :
  (forall h, P h -> match h !! r with
                    | Some o => Q (name o) h
                    | None => E AttributeError h
                    end) ->
  hoare P (get_name r) Q E.
Proof.
  intros H h HP. unfold get_name, bind, read, ret. specialize (H h HP).
  by destruct (h !! r).
Qed.

Lemma hoare_get_seq P r (Q : str -> heap -> Prop) E :
  (forall h, P h -> match h !! r with
                    | Some o => Q (seq_ o) h
                    | None => E AttributeError h
                    end) ->
  hoare P (get_seq r) Q E.
Proof.
  intros H h HP. unfold get_seq, bind, read, ret. specialize (H h HP).
  by destruct (h !! r).
Qed.

Lemma hoare_write P r f (Q : unit -> heap -> Prop) E :
  (forall h, P h -> match h !! r with
                    | Some o => Q tt (<[r := f o]> h)
                    | None => E AttributeError h
                    end) ->
  hoare P (write r f) Q E.
Proof.
  intros H h HP. unfold write. specialize (H h HP). by destruct (h !! r).
Qed.

Lemma hoare_new P n s (Q : ref -> heap -> Prop) E :
  (forall h, P h -> Q (length h) (h ++ [mkSeqobj n s false])) ->
  hoare P (new_Seqobj n s) Q E.
Proof. intros H h HP. unfold new_Seqobj. by apply H. Qed.

(** A list comprehension: the invariant [I] is indexed by the results
    obtained so far. *)
Lemma hoare_mapM {A B} (f : A -> M B) (l : list A)
    (I : list B -> heap -> Prop) E :
  (forall x ys, x ∈ l ->
     hoare (I ys) (f x) (fun y h => I (ys ++ [y]) h) E) ->
  hoare (I []) (mapM f l) (fun ys h => I ys h /\ length ys = length l) E.
Proof.
  intros Hf.
  assert (Hgen : forall l' pre, l' ⊆ l ->
    hoare (I pre) (mapM f l')
      (fun ys h => I (pre ++ ys) h /\ length ys = length l') E).
  { induction l' as [|x l' IH]; intros pre Hsub; simpl.
    - apply hoare_ret. intros h Hh. by rewrite app_nil_r.
    - eapply hoare_bind; [apply (Hf x pre), Hsub; left|]. intros y. simpl.
      eapply hoare_bind.
      + apply (IH (pre ++ [y])). intros z Hz. apply Hsub. by right.
      + intros ys. apply hoare_ret. intros h [Hh Hlen]. simpl.
        rewrite <- app_assoc in Hh. simpl in Hh. split; [done | by f_equal]. }
  apply (Hgen l []). done.
Qed.

(** A [for] loop: the invariant is indexed by the items already visited
    and those still to come. *)
Lemma hoare_for_each {A} (body : A -> M unit) (l : list A)
    (I : list A -> list A -> heap -> Prop) E :
  (forall seen x todo, l = seen ++ x :: todo ->
     hoare (I seen (x :: todo)) (body x)
       (fun _ h => I (seen ++ [x]) todo h) E) ->
  hoare (I [] l) (for_each body l) (fun _ h => I l [] h) E.
Proof.
  intros Hbody.
  assert (Hgen : forall todo seen, l = seen ++ todo ->
    hoare (I seen todo) (for_each body todo) (fun _ h => I l [] h) E).
  { induction todo as [|x todo IH]; intros seen Heq; simpl.
    - apply hoare_ret. intros h Hh. rewrite app_nil_r in Heq. by subst.
    - eapply hoare_bind; [by apply Hbody|]. intros ?.
      apply IH. rewrite <- app_assoc. done. }
  by apply (Hgen l []).
Qed.

Lemma hoare_pre_r {A} (P : heap -> Prop) (m : M A) (Q : A -> heap -> Prop)
    (E : exn -> heap -> Prop) (X : Prop) :
  (X -> hoare P m Q E) -> hoare (fun h => P h /\ X) m Q E.
Proof. intros H h [HP HX]. by apply H. Qed.

(** ** Computations that only read *)

Lemma readonly_ret {A} (a : A) : readonly (ret a).
Proof. done. Qed.

Lemma readonly_raise {A} e : readonly (@raise A e).
Proof. done. Qed.

Lemma readonly_lift {A} (r : result A) : readonly (lift r).
Proof. done. Qed.

Lemma readonly_read r : readonly (read r).
Proof. intros h. unfold read. by destruct (h !! r). Qed.

Lemma readonly_bind {A B} (m : M A) (k : A -> M B) :
  readonly m -> (forall a, readonly (k a)) -> readonly (bind m k).
Proof.
  intros Hm Hk h. unfold bind. specialize (Hm h).
  destruct (m h) as [h' [a|e]]; simpl in *; subst; [apply Hk | done].
Qed.

Lemma readonly_get_name r : readonly (get_name r).
Proof.
  apply readonly_bind; [apply readonly_read | intros; apply readonly_ret].
Qed.

Lemma readonly_get_seq r : readonly (get_seq r).
Proof.
  apply readonly_bind; [apply readonly_read | intros; apply readonly_ret].
Qed.

Lemma readonly_mapM {A B} (f : A -> M B) l :
  (forall x, readonly (f x)) -> readonly (mapM f l).
Proof.
  intros Hf. induction l as [|x l IH]; simpl; [apply readonly_ret|].
  apply readonly_bind; [apply Hf | intros y].
  apply readonly_bind; [apply IH | intros; apply readonly_ret].
Qed.

Lemma readonly_tabulate seqList : readonly (tabulate seqList).
Proof.
  apply readonly_bind; [|intros; apply readonly_lift].
  apply readonly_mapM, readonly_get_seq.
Qed.

Lemma readonly_select sel seqlist : readonly (select sel seqlist).
Proof.
  apply readonly_bind; [apply readonly_mapM, readonly_read | intros objs].
  apply readonly_bind; [apply readonly_lift | intros; apply readonly_ret].
Qed.

Lemma readonly_reformat_mask seqlist tabulated nseqs o :
  readonly (reformat_mask seqlist tabulated nseqs o).
Proof.
  unfold reformat_mask. apply readonly_bind.
  { destruct seqlist; [apply readonly_raise | apply readonly_get_seq]. }
  intros first. apply readonly_bind.
  - destruct (seqrange o) as [[start stop]|]; [apply readonly_ret|].
    destruct (truthy (trim_to o)); [|apply readonly_ret].
    apply readonly_bind; [apply readonly_select | intros s].
    apply readonly_bind; [apply readonly_get_seq | intros q].
    apply readonly_bind; [apply readonly_lift | intros; apply readonly_ret].
  - intros mask. destruct (exclude_invariant o); [|apply readonly_ret].
    apply readonly_bind; [apply readonly_lift | intros; apply readonly_ret].
Qed.

Lemma hoare_readonly {A} (m : M A) (P : heap -> Prop) :
  readonly m -> hoare P m (fun _ => P) (fun _ => P).
Proof.
  intros Hm h HP. specialize (Hm h).
  destruct (m h) as [h' [a|e]]; simpl in Hm; by subst.
Qed.

Lemma hoare_readonly_gen {A} (m : M A) (P : heap -> Prop)
    (Q : A -> heap -> Prop) (E : exn -> heap -> Prop) :
  readonly m -> (forall a h, P h -> Q a h) -> (forall e h, P h -> E e h) ->
  hoare P m Q E.
Proof.
  intros Hm HQ HE h HP. specialize (Hm h).
  destruct (m h) as [h' [a|e]]; simpl in Hm; subst; auto.
Qed.

(** ** C9: [reformat] leaves the caller's records alone *)

Section Frame.
(** The store at the time of the call. *)
Variable h0 : heap.

Local Abbreviation ext := (extends h0).
Local Abbreviation fr := (fresh h0).

Lemma extends_alloc h o : ext h -> ext (h ++ [o]).
Proof. intros [t ->]. exists (t ++ [o]). by rewrite app_assoc. Qed.

Lemma extends_fresh h : ext h -> fr (length h).
Proof. intros [t ->]. unfold fresh. rewrite length_app. lia. Qed.

Lemma extends_write h r o : ext h -> fr r -> ext (<[r := o]> h).
Proof.
  intros [t ->] Hr. exists (<[(r - length h0)%nat := o]> t).
  by apply insert_app_r_alt.
Qed.

Lemma frame_write r f :
  fr r ->
  hoare ext (write r f) (fun _ => ext) (fun _ => ext).
Proof.
  intros Hr. apply hoare_write. intros h Hh.
  destruct (h !! r); [by apply extends_write | done].
Qed.

Lemma frame_readonly {A} (m : M A) :
  readonly m -> hoare ext m (fun _ => ext) (fun _ => ext).
Proof. apply hoare_readonly. Qed.

Lemma frame_for_each {A} (body : A -> M unit) (l : list A) :
  (forall x, x ∈ l ->
     hoare ext (body x) (fun _ => ext) (fun _ => ext)) ->
  hoare ext (for_each body l) (fun _ => ext) (fun _ => ext).
Proof.
  intros Hbody.
  apply (hoare_for_each body l (fun _ _ => ext)).
  intros seen x todo Heq. apply Hbody. rewrite Heq.
  apply elem_of_app. right. left.
Qed.

Lemma frame_compare_body cname cstr sim r :
  fr r ->
  hoare ext (compare_body cname cstr sim r)
    (fun _ => ext) (fun _ => ext).
Proof.
  intros Hr. unfold compare_body.
  eapply hoare_bind; [apply frame_readonly, readonly_get_name|].
  intros n. simpl. case_bool_decide.
  - eapply hoare_bind; [by apply frame_write|]. intros ?.
    by apply frame_write.
  - eapply hoare_bind; [apply frame_readonly, readonly_get_seq|].
    intros s. simpl.
    eapply hoare_bind; [apply frame_readonly, readonly_lift|].
    intros d. by apply frame_write.
Qed.

Lemma frame_copy seqs :
  hoare ext
    (mapM (fun s => do n <- get_name s ; do q <- get_seq s ;
                    new_Seqobj n q) seqs)
    (fun seqlist h => ext h /\ Forall fr seqlist)
    (fun _ => ext).
Proof.
  eapply hoare_conseq.
  - apply (hoare_mapM _ seqs
             (fun ys h => ext h /\ Forall fr ys) (fun _ => ext)).
    intros x ys _.
    eapply (hoare_bind _ _ _ (fun _ h => ext h /\ Forall fr ys)).
    { apply hoare_readonly_gen;
        [apply readonly_get_name | done | by intros e h [Hh _]]. }
    intros n. simpl.
    eapply (hoare_bind _ _ _ (fun _ h => ext h /\ Forall fr ys)).
    { apply hoare_readonly_gen;
        [apply readonly_get_seq | done | by intros e h [Hh _]]. }
    intros q. simpl. apply hoare_new. intros h [Hh Hys]. split.
    + by apply extends_alloc.
    + apply Forall_app. split; [done|]. constructor; [|done].
      by apply extends_fresh.
  - intros h Hh. split; [done | constructor].
  - by intros ys h [Hh _].
  - done.
Qed.

Lemma frame_prepare seqs o :
  hoare ext (reformat_prepare seqs o)
    (fun p h => ext h /\ Forall fr p.1.1.1)
    (fun _ => ext).
Proof.
  unfold reformat_prepare.
  eapply hoare_bind; [apply frame_copy|]. intros seqlist. simpl.
  apply hoare_pre_r. intros Hfresh.
  eapply hoare_bind; [apply frame_readonly, readonly_tabulate|].
  intros tabulated. simpl.
  eapply hoare_bind; [apply frame_readonly, readonly_lift|].
  intros cs. simpl.
  eapply (hoare_bind _ _ _
            (fun sl h => ext h /\ Forall fr sl)).
  { destruct (add_consensus o).
    - eapply (hoare_bind _ _ _ (fun r h => ext h /\ fr r)).
      + apply hoare_new. intros h Hh.
        split; [by apply extends_alloc | by apply extends_fresh].
      + intros r. apply hoare_pre_r. intros Hr.
        destruct (reference_top o); apply hoare_ret; intros h Hh.
        * split; [done | by constructor].
        * split; [done|]. apply Forall_app. split; [done | by constructor].
    - apply hoare_ret. by intros h Hh. }
  intros seqlist'. apply hoare_pre_r. intros Hfresh'.
  eapply hoare_bind.
  { instantiate (1 := fun _ => ext).
    destruct (compare o); [|by apply hoare_ret].
    eapply hoare_bind.
    - instantiate (1 := fun _ => ext).
      destruct (compare_to o) as [sel|]; [|by apply hoare_ret].
      eapply hoare_bind; [apply frame_readonly, readonly_select|].
      intros s. simpl.
      eapply hoare_bind; [apply frame_readonly, readonly_get_name|].
      intros n. simpl.
      eapply hoare_bind; [apply frame_readonly, readonly_get_seq|].
      intros q. simpl. by apply hoare_ret.
    - intros ref_. apply frame_for_each. intros r Hr.
      apply frame_compare_body.
      rewrite Forall_forall in Hfresh'. by apply Hfresh'. }
  intros ?. apply hoare_ret. by intros h Hh.
Qed.

Lemma frame_reformat seqs o :
  hoare ext (reformat seqs o) (fun _ => ext) (fun _ => ext).
Proof.
  unfold reformat.
  eapply hoare_bind; [apply frame_prepare|].
  intros [[[seqlist tabulated] consensus_str] nseqs]. simpl.
  apply hoare_pre_r. intros Hfresh.
  eapply hoare_bind; [apply frame_readonly, readonly_reformat_mask|].
  intros mask. simpl.
  eapply hoare_bind; [apply frame_readonly, readonly_lift|].
  intros nums. simpl.
  eapply hoare_bind.
  { instantiate (1 := fun _ => ext).
    destruct (given (seqrange o) || exclude_invariant o || exclude_gapcols o);
      [|by apply hoare_ret].
    apply frame_for_each. intros r Hr.
    eapply hoare_bind; [apply frame_readonly, readonly_get_seq|].
    intros s. simpl. apply frame_write.
    rewrite Forall_forall in Hfresh. by apply Hfresh. }
  intros ?. apply hoare_ret. by intros h Hh.
Qed.
End Frame.

(** C9: for every call of [reformat], normal or failing, every object that
    exists before the call (the caller's records among them) has the same
    name and the same characters after it; what [reformat] changes are
    the copies it creates, which are placed after them in the store. *)
Theorem reformat_preserves_input (seqs : list ref) (o : options) (h : heap) :
  h `prefix_of` (reformat seqs o h).1 /\
  forall r obj, h !! r = Some obj -> (reformat seqs o h).1 !! r = Some obj.
Proof.
  assert (Hext : h `prefix_of` (reformat seqs o h).1).
  { pose proof (frame_reformat h seqs o h) as H.
    destruct (reformat seqs o h) as [h' [a|e]]; apply H; done. }
  split; [done|]. intros r obj Hr. destruct Hext as [t ->].
  by apply lookup_app_l_Some.
Qed.

Lemma reformat_preserves_input_witness :
  (reformat [0; 1; 2]%nat default_options foo_bar_foobar).1 !! 1%nat
  = foo_bar_foobar !! 1%nat.
Proof.
  apply (proj2 (reformat_preserves_input [0; 1; 2]%nat default_options
                  foo_bar_foobar)).
  reflexivity.
Defined.

(** ** Selection among stored records *)

Lemma mapM_read_spec (l : list ref) (h : heap) :
  (exists objs, mapM read l h = (h, Ok objs) /\
                Forall2 (fun r o => h !! r = Some o) l objs) \/
  (mapM read l h = (h, Raise AttributeError) /\
   exists r, r ∈ l /\ h !! r = None).
Proof.
  induction l as [|r l IH]; simpl.
  - left. exists []. split; [done | constructor].
  - unfold bind. unfold read at 1. unfold read at 2.
    destruct (h !! r) as [o|] eqn:Er.
    + destruct IH as [(objs & Heq & Hall) | (Heq & r' & Hin & Hr')];
        rewrite Heq.
      * left. exists (o :: objs). split; [done | by constructor].
      * right. split; [done|]. exists r'. split; [by right | done].
    + right. split; [done|]. exists r. split; [left | done].
Qed.

Lemma py_index_elem {A} (l : list A) i x : py_index l i = Ok x -> x ∈ l.
Proof.
  unfold py_index. cbv zeta.
  destruct ((0 <=? (if 0 <=? i then i else Z.of_nat (length l) + i)) &&
            ((if 0 <=? i then i else Z.of_nat (length l) + i)
               <? Z.of_nat (length l))); [|done].
  destruct (l !! _) as [y|] eqn:E; [|done].
  intros [= <-]. by eapply list_elem_of_lookup_2.
Qed.

Lemma get_seq_from_list_elem {A} (name_of : A -> str) sel (l : list A) x :
  get_seq_from_list name_of sel l = Ok x -> x ∈ l.
Proof.
  unfold get_seq_from_list, by_index.
  destruct (py_int sel) as [n|].
  - destruct (0 <? n).
    + destruct (py_index l (n - 1)) eqn:E.
      * intros [= <-]. by eapply py_index_elem.
      * destruct (matches_from name_of 0 sel l) as [|m [|? ?]]; try done.
        apply py_index_elem.
    + destruct (py_index l n) eqn:E.
      * intros [= <-]. by eapply py_index_elem.
      * destruct (matches_from name_of 0 sel l) as [|m [|? ?]]; try done.
        apply py_index_elem.
  - destruct (matches_from name_of 0 sel l) as [|m [|? ?]]; try done.
    apply py_index_elem.
Qed.

(** A successful selection returns one of the listed objects, all of which
    exist in the store. *)
Lemma select_ok sel (l : list ref) (h h' : heap) r :
  select sel l h = (h', Ok r) ->
  h' = h /\ r ∈ l /\ forall x, x ∈ l -> is_Some (h !! x).
Proof.
  unfold select, bind.
  destruct (mapM_read_spec l h) as [(objs & -> & Hall) | (-> & _)]; [|done].
  unfold lift.
  destruct (get_seq_from_list _ sel (zip l objs)) as [[r' o']|e] eqn:E;
    [|done].
  simpl. intros [= <- <-]. split; [done|]. split.
  - apply get_seq_from_list_elem in E.
    apply list_elem_of_lookup in E as [i Hi].
    apply lookup_zip_with_Some in Hi as (x & y & [= <- <-] & Hx & Hy).
    by eapply list_elem_of_lookup_2.
  - intros x [i Hi]%list_elem_of_lookup.
    destruct (Forall2_lookup_l _ _ _ _ _ Hall Hi) as (o & _ & Ho). eauto.
Qed.

(** ** C10: [get_extent] needs a letter *)

Lemma reformat_trim_all_gaps seqs o h h1 seqlist tabulated cs nseqs r obj :
  seqrange o = None -> truthy (trim_to o) = true ->
  reformat_prepare seqs o h = (h1, Ok (seqlist, tabulated, cs, nseqs)) ->
  select (default [] (trim_to o)) seqlist h1 = (h1, Ok r) ->
  h1 !! r = Some obj ->
  (forall c, c ∈ seq_ obj -> is_alpha c = false) ->
  reformat seqs o h = (h1, Raise AttributeError).
Proof.
  intros Hrange Htrim Hprep Hsel Hr Hgaps.
  destruct (select_ok _ _ _ _ _ Hsel) as (_ & Hin & Hvalid).
  unfold reformat, bind at 1. rewrite Hprep.
  unfold bind at 1. unfold reformat_mask, bind at 1.
  destruct seqlist as [|r0 rest]; [by apply elem_of_nil in Hin|].
  destruct (Hvalid r0) as [o0 Ho0]; [left|].
  unfold get_seq at 1. unfold bind at 1. unfold read at 1. rewrite Ho0.
  unfold ret at 1. rewrite Hrange, Htrim.
  unfold bind at 1. unfold bind at 1. rewrite Hsel.
  unfold bind at 1. unfold get_seq at 1. unfold bind at 1, read at 1.
  rewrite Hr. unfold ret at 1. unfold bind at 1. unfold lift at 1.
  by rewrite (get_extent_no_letter _ Hgaps).
Qed.

(** C10: [get_extent] raises [AttributeError], an error outside the
    documented ones, on every string without a letter, so [reformat] with
    [trim_to] selecting such a record fails with it; on a string with a
    letter it returns the offset of the first letter and one past the
    offset of the last letter, and every other character (not only '-')
    counts as a gap. *)
Theorem get_extent_needs_letter :
  (forall s, (forall c, c ∈ s -> is_alpha c = false) ->
             get_extent s = Raise AttributeError)
  /\ (forall s, (exists c, c ∈ s /\ is_alpha c = true) ->
        exists i j ci cj,
          get_extent s = Ok (i, S j) /\ (i <= j)%nat /\
          s !! i = Some ci /\ is_alpha ci = true /\
          s !! j = Some cj /\ is_alpha cj = true /\
          forall k c, s !! k = Some c -> (k < i \/ j < k)%nat ->
                      is_alpha c = false)
  /\ (forall seqs o h h1 seqlist tabulated cs nseqs r obj,
        seqrange o = None -> truthy (trim_to o) = true ->
        reformat_prepare seqs o h = (h1, Ok (seqlist, tabulated, cs, nseqs)) ->
        select (default [] (trim_to o)) seqlist h1 = (h1, Ok r) ->
        h1 !! r = Some obj ->
        (forall c, c ∈ seq_ obj -> is_alpha c = false) ->
        reformat seqs o h = (h1, Raise AttributeError))
  /\ get_extent (lit "--ACGT--") = Ok (2%nat, 6%nat)
  /\ get_extent (lit "-.AC T*9") = Ok (2%nat, 6%nat)
  /\ get_extent (lit "----") = Raise AttributeError
  /\ get_extent [] = Raise AttributeError
  /\ (reformat [0; 1]%nat trim_to_gap_record gap_record_store).2
     = Raise AttributeError.
Proof.
  split; [apply get_extent_no_letter|].
  split; [apply get_extent_letter|].
  split; [apply reformat_trim_all_gaps|].
  by vm_compute.
Qed.

Lemma get_extent_needs_letter_witness :
  get_extent (lit "-*-") = Raise AttributeError
  /\ (exists i j ci cj,
        get_extent (lit "-aC-") = Ok (i, S j) /\ (i <= j)%nat /\
        lit "-aC-" !! i = Some ci /\ is_alpha ci = true /\
        lit "-aC-" !! j = Some cj /\ is_alpha cj = true /\
        forall k c, lit "-aC-" !! k = Some c -> (k < i \/ j < k)%nat ->
                    is_alpha c = false)
  /\ reformat [0; 1]%nat trim_to_gap_record gap_record_store
     = ((reformat [0; 1]%nat trim_to_gap_record gap_record_store).1,
        Raise AttributeError).
Proof.
  destruct get_extent_needs_letter as (H1 & H2 & H3 & _).
  split; [|split].
  - apply H1. intros c Hc.
    repeat (apply elem_of_cons in Hc as [-> | Hc]; [reflexivity|]).
    by apply elem_of_nil in Hc.
  - apply H2. exists "a"%char. split; [right; left | reflexivity].
  - eapply (H3 _ _ _ _ _ _ _ _ 3%nat);
      [reflexivity | reflexivity | by vm_compute | by vm_compute
      | by vm_compute |].
    intros c Hc. simpl in Hc.
    repeat (apply elem_of_cons in Hc as [-> | Hc]; [reflexivity|]).
    by apply elem_of_nil in Hc.
Defined.

(** ** Consensus calling *)

Lemma dict_of_items_snoc {K V} `{Countable K} (l : list (K * V)) kv :
  dict_of_items (l ++ [kv]) = <[kv.1 := kv.2]> (dict_of_items l).
Proof. unfold dict_of_items. by rewrite foldl_snoc. Qed.

Lemma dict_of_items_lookup {K V} `{Countable K} (l : list (K * V)) k v :
  dict_of_items l !! k = Some v -> (k, v) ∈ l.
Proof.
  induction l as [|[k' v'] l IH] using rev_ind.
  - unfold dict_of_items. simpl. by rewrite lookup_empty.
  - rewrite dict_of_items_snoc. simpl. rewrite elem_of_app.
    destruct (decide (k' = k)) as [->|Hne].
    + rewrite lookup_insert_eq. intros [= ->]. right. left.
    + rewrite lookup_insert_ne by done. intros ?%IH. by left.
Qed.

Lemma dict_of_items_is_Some {K V} `{Countable K} (l : list (K * V)) k :
  k ∈ l.*1 -> is_Some (dict_of_items l !! k).
Proof.
  induction l as [|[k' v'] l IH] using rev_ind.
  - intros Hk. by apply elem_of_nil in Hk.
  - rewrite fmap_app, elem_of_app, dict_of_items_snoc. simpl.
    destruct (decide (k' = k)) as [->|Hne].
    + intros _. rewrite lookup_insert_eq. eauto.
    + rewrite lookup_insert_ne by done.
      intros [Hk | Hk%list_elem_of_singleton]; [by apply IH | congruence].
Qed.

(** The first two of the counts in descending order. *)
Lemma sorted_desc_top (vs : list Z) a b rest :
  reverse (merge_sort Z.le vs) = a :: b :: rest ->
  a :: b :: rest ≡ₚ vs /\
  (forall x, x ∈ b :: rest -> x <= a) /\ (forall x, x ∈ rest -> x <= b).
Proof.
  intros Hrev.
  assert (Hsort : merge_sort Z.le vs = reverse rest ++ [b] ++ [a]).
  { rewrite <- (reverse_involutive (merge_sort Z.le vs)), Hrev.
    rewrite !reverse_cons, <- app_assoc. done. }
  pose proof (StronglySorted_merge_sort Z.le vs) as Hss.
  rewrite Hsort in Hss. split; [|split].
  - rewrite <- Hrev, reverse_Permutation. apply merge_sort_Permutation.
  - intros x Hx. rewrite app_assoc in Hss.
    apply (StronglySorted_app_1_elem_of _ _ _ x a Hss); [|left].
    apply elem_of_app. apply elem_of_cons in Hx as [-> | Hx].
    + right. left.
    + left. by apply elem_of_reverse.
  - intros x Hx.
    apply StronglySorted_app_1_elem_of with (x1 := x) (x2 := b) in Hss;
      [done | by apply elem_of_reverse | left].
Qed.

Lemma values_elem (d : gmap ascii Z) v :
  v ∈ (map_to_list d).*2 <-> exists k, d !! k = Some v.
Proof.
  rewrite list_elem_of_fmap. split.
  - intros ([k v'] & -> & Hin). exists k. by apply elem_of_map_to_list.
  - intros [k Hk]. exists (k, v). split; [done|].
    by apply elem_of_map_to_list.
Qed.

(** With two distinct characters ranked first and second, [consensus]
    takes the last branch and compares their counts. *)
Lemma consensus_ranked d countGaps plu gap errorchar k1 k2 m s :
  top_two (drop_gap countGaps gap d) k1 k2 m s ->
  exists c, drop_gap countGaps gap d !! c = Some m /\
    consensus d countGaps plu gap errorchar
    = if m - s <? plu then Ok errorchar else Ok c.
Proof.
  intros (Hne & Hk1 & Hk2 & Hmax & Hsnd). unfold consensus.
  set (d' := drop_gap countGaps gap d) in *.
  pose proof (map_to_list_delete d' k1 m Hk1) as Hperm.
  assert (Hk2' : delete k1 d' !! k2 = Some s)
    by (by rewrite lookup_delete_ne).
  assert (Hlen : (2 <= size d')%nat).
  { rewrite <- length_map_to_list, <- Hperm. simpl.
    apply elem_of_map_to_list in Hk2'.
    destruct (map_to_list (delete k1 d')); [by apply elem_of_nil in Hk2'|].
    simpl. lia. }
  replace (size d' =? 0)%nat with false
    by (symmetry; apply Nat.eqb_neq; lia).
  replace (size d' =? 1)%nat with false
    by (symmetry; apply Nat.eqb_neq; lia).
  rewrite andb_false_r.
  set (vs := (map_to_list d').*2).
  assert (Hvs : vs ≡ₚ m :: (map_to_list (delete k1 d')).*2).
  { unfold vs. by rewrite <- Hperm. }
  destruct (reverse (merge_sort Z.le vs)) as [|a [|b rest]] eqn:Hrev.
  - apply (f_equal length) in Hrev.
    rewrite length_reverse, merge_sort_Permutation in Hrev.
    unfold vs in Hrev. rewrite length_fmap, length_map_to_list in Hrev.
    simpl in Hrev. lia.
  - apply (f_equal length) in Hrev.
    rewrite length_reverse, merge_sort_Permutation in Hrev.
    unfold vs in Hrev. rewrite length_fmap, length_map_to_list in Hrev.
    simpl in Hrev. lia.
  - destruct (sorted_desc_top vs a b rest Hrev) as (Hp & Htop & Hnext).
    assert (Ha : a = m).
    { assert (Hin : a ∈ vs) by (rewrite <- Hp; left).
      apply values_elem in Hin as [k Hk]. pose proof (Hmax k a Hk).
      assert (Hm : m ∈ a :: b :: rest) by (rewrite Hp, Hvs; left).
      apply elem_of_cons in Hm as [-> | Hm]; [done|].
      pose proof (Htop m Hm). lia. }
    subst a.
    assert (Hp' : b :: rest ≡ₚ (map_to_list (delete k1 d')).*2).
    { apply (Permutation_cons_inv (a := m)). by rewrite Hp, Hvs. }
    assert (Hb : b = s).
    { assert (Hin : b ∈ (map_to_list (delete k1 d')).*2)
        by (rewrite <- Hp'; left).
      apply values_elem in Hin as [k Hk].
      apply lookup_delete_Some in Hk as [Hkne Hk].
      pose proof (Hsnd k b (not_eq_sym Hkne) Hk).
      assert (Hs : s ∈ b :: rest).
      { rewrite Hp'. apply values_elem. eauto. }
      apply elem_of_cons in Hs as [-> | Hs]; [done|].
      pose proof (Hnext s Hs). lia. }
    subst b.
    set (rdict := dict_of_items _).
    assert (Hsome : is_Some (rdict !! m)).
    { apply dict_of_items_is_Some. rewrite <- list_fmap_compose.
      apply list_elem_of_fmap. exists (k1, m). split; [done|].
      by apply elem_of_map_to_list. }
    destruct Hsome as [c Hc]. exists c. split.
    + apply dict_of_items_lookup in Hc.
      apply list_elem_of_fmap in Hc as ([k v] & [= -> ->] & Hin).
      by apply elem_of_map_to_list.
    + by rewrite Hc.
Qed.

Lemma list_max_value (l : list (ascii * Z)) :
  l <> [] ->
  exists k m, (k, m) ∈ l /\ forall k' v, (k', v) ∈ l -> v <= m.
Proof.
  induction l as [|[k v] l IH]; [done|]. intros _.
  destruct l as [|p l'].
  - exists k, v. split; [left|].
    intros k' v' [= -> ->]%list_elem_of_singleton. lia.
  - destruct IH as (k0 & m0 & Hin & Hmax); [done|].
    destruct (Z.le_gt_cases v m0) as [Hle | Hgt].
    + exists k0, m0. split; [by right|].
      intros k' v' [[= -> ->] | Hin']%elem_of_cons; [done | by eapply Hmax].
    + exists k, v. split; [left|].
      intros k' v' [[= -> ->] | Hin']%elem_of_cons; [lia|].
      specialize (Hmax k' v' Hin'). lia.
Qed.

Lemma map_max_value (d : gmap ascii Z) :
  d <> ∅ ->
  exists k m, d !! k = Some m /\ forall k' v, d !! k' = Some v -> v <= m.
Proof.
  intros Hne. destruct (list_max_value (map_to_list d)) as (k & m & Hin & Hmax).
  - by rewrite map_to_list_empty_iff.
  - exists k, m. split; [by apply elem_of_map_to_list|].
    intros k' v Hk'. apply (Hmax k'). by apply elem_of_map_to_list.
Qed.

(** A table with two or more characters has a first and a second rank. *)
Lemma top_two_exists (d : gmap ascii Z) :
  (2 <= size d)%nat -> exists k1 k2 m s, top_two d k1 k2 m s.
Proof.
  intros Hsize.
  destruct (map_max_value d) as (k1 & m & Hk1 & Hmax).
  { intros ->. rewrite map_size_empty in Hsize. lia. }
  destruct (map_max_value (delete k1 d)) as (k2 & s & Hk2 & Hsnd).
  { intros Hempty. apply (f_equal size) in Hempty.
    rewrite map_size_delete, Hk1, map_size_empty in Hempty. lia. }
  apply lookup_delete_Some in Hk2 as [Hne Hk2].
  exists k1, k2, m, s. repeat split; try done.
  intros k v Hk Hv. apply (Hsnd k). by rewrite lookup_delete_ne.
Qed.

(** Case analysis on the entries of a concrete table. *)
Ltac table_cases Hk :=
  apply elem_of_map_to_list in Hk; vm_compute in Hk;
  repeat (apply elem_of_cons in Hk as [Hk | Hk]; [injection Hk as -> -> |]);
  [.. | by apply elem_of_nil in Hk].

(** C3 (as stated, refuted): in the table [{X: 5, A: 1}] the counts of
    the two most frequent characters differ by 4, not by less than the
    margin 2, and [consensus] still returns the error marker 'X', because
    'X' is the most frequent character. *)
Lemma consensus_marker_without_tie :
  ~ (forall d plu errorchar k1 k2 m s,
       top_two (drop_gap false gap_chr d) k1 k2 m s ->
       (consensus d false plu gap_chr errorchar = Ok errorchar
        <-> m - s < plu)).
Proof.
  intros H.
  assert (Htop : top_two (drop_gap false gap_chr table_X5_A1)
                   "X"%char "A"%char 5 1).
  { repeat split; try done.
    - intros k v Hk. table_cases Hk; lia.
    - intros k v Hne Hk. table_cases Hk; (lia || done). }
  apply (H table_X5_A1 2 "X"%char) in Htop.
  assert (5 - 1 < 2); [|lia]. apply Htop. by vm_compute.
Qed.

(** C3 (amended): when at least two distinct characters remain after the
    optional gap exclusion (the table then has a first and a second
    rank), [consensus] returns the error marker if the
    counts of the two most frequent characters differ by less than the
    margin and otherwise returns a most frequent character, which is the
    single one when the margin is positive; the result is the error
    marker exactly when the counts differ by less than the margin provided
    the error marker is not itself a most frequent character of the
    table.  [{A: 5, G: 4}] with margin 2 gives the error marker and
    [{A: 5, G: 3}] gives 'A'. *)
Theorem consensus_tie_margin d countGaps plu gap errorchar :
  ((2 <= size (drop_gap countGaps gap d))%nat ->
   exists k1 k2 m s, top_two (drop_gap countGaps gap d) k1 k2 m s)
  /\ (forall k1 k2 m s,
        top_two (drop_gap countGaps gap d) k1 k2 m s ->
        (m - s < plu ->
         consensus d countGaps plu gap errorchar = Ok errorchar)
        /\ (plu <= m - s ->
            exists c, consensus d countGaps plu gap errorchar = Ok c /\
                      drop_gap countGaps gap d !! c = Some m)
        /\ (plu <= m - s -> 0 < plu ->
            consensus d countGaps plu gap errorchar = Ok k1)
        /\ (drop_gap countGaps gap d !! errorchar <> Some m ->
            (consensus d countGaps plu gap errorchar = Ok errorchar
             <-> m - s < plu)))
  /\ consensus table_A5_G4 false 2 gap_chr "X" = Ok "X"%char
  /\ consensus table_A5_G3 false 2 gap_chr "X" = Ok "A"%char.
Proof.
  split; [apply top_two_exists|]. split; [|by vm_compute].
  intros k1 k2 m s Htop.
  destruct (consensus_ranked d countGaps plu gap errorchar k1 k2 m s Htop)
    as (c & Hc & Heq).
  rewrite Heq. destruct Htop as (Hne & Hk1 & Hk2 & Hmax & Hsnd).
  destruct (Z.ltb_spec (m - s) plu) as [Hlt | Hge].
  - repeat split; try done; try lia.
  - repeat split; try done; try lia.
    + intros _. by exists c.
    + intros _ Hpos. f_equal. destruct (decide (c = k1)) as [|Hck]; [done|].
      pose proof (Hsnd c m Hck Hc). lia.
    + intros [= <-]. done.
Qed.

Lemma consensus_tie_margin_witness :
  (exists k1 k2 m s, top_two (drop_gap false gap_chr table_A5_G4) k1 k2 m s)
  /\ consensus table_A5_G4 false 2 gap_chr "X" = Ok "X"%char
  /\ (exists c, consensus table_A5_G3 false 2 gap_chr "X" = Ok c /\
                drop_gap false gap_chr table_A5_G3 !! c = Some 5)
  /\ consensus table_A5_G3 false 2 gap_chr "X" = Ok "A"%char
  /\ (consensus table_A5_G3 false 2 gap_chr "X" = Ok "X"%char <-> 5 - 3 < 2).
Proof.
  assert (H4 : top_two (drop_gap false gap_chr table_A5_G4)
                 "A"%char "G"%char 5 4).
  { repeat split; try done.
    - intros k v Hk. table_cases Hk; lia.
    - intros k v Hne Hk. table_cases Hk; (lia || done). }
  assert (H3 : top_two (drop_gap false gap_chr table_A5_G3)
                 "A"%char "G"%char 5 3).
  { repeat split; try done.
    - intros k v Hk. table_cases Hk; lia.
    - intros k v Hne Hk. table_cases Hk; (lia || done). }
  destruct (consensus_tie_margin table_A5_G4 false 2 gap_chr "X"%char)
    as (W0 & W4 & _).
  destruct (W4 _ _ _ _ H4) as (W1 & _).
  destruct (consensus_tie_margin table_A5_G3 false 2 gap_chr "X"%char)
    as (_ & W3 & _).
  destruct (W3 _ _ _ _ H3) as (_ & W2 & W5 & W6).
  split; [|split; [|split; [|split]]].
  - apply W0. vm_compute. lia.
  - apply W1. lia.
  - apply W2. lia.
  - apply W5; lia.
  - apply W6. by vm_compute.
Defined.

(** C5: if leaving out the gap character empties the table, [consensus]
    returns the error marker; if exactly one character remains after the
    optional gap exclusion, [consensus] returns it whatever the margin,
    also when it is the gap character and gaps are counted. *)
Theorem consensus_single_or_empty d countGaps plu gap errorchar :
  (countGaps = false -> delete gap d = ∅ ->
   consensus d countGaps plu gap errorchar = Ok errorchar)
  /\ (forall c,
        size (drop_gap countGaps gap d) = 1%nat ->
        is_Some (drop_gap countGaps gap d !! c) ->
        consensus d countGaps plu gap errorchar = Ok c)
  /\ consensus {[ gap_chr := 5 ]} true plu gap_chr errorchar = Ok gap_chr
  /\ consensus {[ gap_chr := 5 ]} false plu gap_chr errorchar = Ok errorchar
  /\ consensus {[ "A"%char := 3; gap_chr := 4 ]} false plu gap_chr errorchar
     = Ok "A"%char.
Proof.
  split; [|split].
  - intros -> Hempty. unfold consensus, drop_gap. rewrite Hempty.
    by rewrite map_size_empty.
  - intros c Hsize [x Hc]. unfold consensus. rewrite Hsize. simpl.
    rewrite andb_false_r.
    apply elem_of_map_to_list in Hc.
    pose proof (length_map_to_list (drop_gap countGaps gap d)) as Hlen.
    rewrite Hsize in Hlen.
    destruct (map_to_list (drop_gap countGaps gap d)) as [|[k v] [|? ?]];
      try done.
    apply list_elem_of_singleton in Hc. by injection Hc as -> ->.
  - by vm_compute.
Qed.

Lemma consensus_single_or_empty_witness :
  consensus {[ gap_chr := 7 ]} false 2 gap_chr "X" = Ok "X"%char
  /\ consensus {[ gap_chr := 7 ]} true 100 gap_chr "X" = Ok gap_chr.
Proof.
  destruct (consensus_single_or_empty {[ gap_chr := 7 ]} false 2 gap_chr "X")
    as (W1 & _).
  destruct (consensus_single_or_empty {[ gap_chr := 7 ]} true 100 gap_chr "X")
    as (_ & W2 & _).
  split.
  - apply W1; [reflexivity | by vm_compute].
  - apply W2; [by vm_compute | exists 7; by vm_compute].
Defined.

(** ** C8: tabulation *)

Lemma column_count_nonneg n strs i c : 0 <= column_count n strs i c.
Proof.
  induction strs as [|s strs IH]; simpl; [done|]. case_bool_decide; lia.
Qed.

Lemma tally_table_of cnt d c0 :
  (forall c, 0 <= cnt c) -> table_of cnt d ->
  table_of (fun c => (if bool_decide (c0 = c) then 1 else 0) + cnt c)
    (tally d c0).
Proof.
  intros Hpos Hd c. unfold tally. pose proof (Hpos c) as Hc.
  case_bool_decide as E.
  - subst c0. rewrite lookup_insert_eq, (Hd c).
    destruct (Z.eqb_spec (cnt c) 0) as [-> | Hne]; simpl.
    + done.
    + destruct (Z.eqb_spec (1 + cnt c) 0); [lia|]. f_equal. lia.
  - rewrite lookup_insert_ne by done. by rewrite (Hd c).
Qed.

Lemma tabulate_fold n (strs : list str) :
  forall (dictList : list (gmap ascii Z)) (cnt : nat -> ascii -> Z),
    length dictList = n ->
    (forall s, s ∈ strs -> (length s <= n)%nat) ->
    (forall i c, 0 <= cnt i c) ->
    (forall i d, dictList !! i = Some d -> table_of (cnt i) d) ->
    let out := foldl (tabulate_step n) dictList strs in
    length out = n /\
    forall i d, out !! i = Some d ->
                table_of (fun c => cnt i c + column_count n strs i c) d.
Proof.
  induction strs as [|s strs IH]; intros dictList cnt Hlen Hle Hpos Hd; simpl.
  - split; [done|]. intros i d Hi c. rewrite Z.add_0_r. by apply Hd.
  - assert (Hs : length (padded n s) = n).
    { unfold padded. rewrite length_app, length_replicate.
      assert (length s <= n)%nat by (apply Hle; left). lia. }
    destruct (IH (tabulate_step n dictList s)
                (fun i c => (if bool_decide (padded n s !! i = Some c)
                             then 1 else 0) + cnt i c)) as [Hlen' Hout].
    + unfold tabulate_step. fold (padded n s).
      rewrite length_zip_with. lia.
    + intros s' Hs'. apply Hle. by right.
    + intros i c. specialize (Hpos i c). case_bool_decide; lia.
    + intros i d. unfold tabulate_step. fold (padded n s).
      intros (d0 & c0 & -> & Hd0 & Hc0)%lookup_zip_with_Some.
      intros c. pose proof (tally_table_of (cnt i) d0 c0 (Hpos i)
                              (Hd i d0 Hd0) c) as Ht.
      rewrite Ht, Hc0.
      assert (Heq : bool_decide (c0 = c) = bool_decide (Some c0 = Some c)).
      { apply bool_decide_ext. split; [by intros -> | by intros [= ->]]. }
      by rewrite Heq.
    + split; [done|]. intros i d Hi c. rewrite (Hout i d Hi c).
      by rewrite Z.add_assoc, (Z.add_comm (cnt i c)).
Qed.

Lemma bind_run {A B} (m : M A) (k : A -> M B) h h' a :
  m h = (h', Ok a) -> bind m k h = k a h'.
Proof. intros H. unfold bind. by rewrite H. Qed.

Lemma bind_raise {A B} (m : M A) (k : A -> M B) h h' e :
  m h = (h', Raise e) -> bind m k h = (h', Raise e).
Proof. intros H. unfold bind. by rewrite H. Qed.

Lemma read_run r h o : h !! r = Some o -> read r h = (h, Ok o).
Proof. intros H. unfold read. by rewrite H. Qed.

Lemma get_seq_run r h o :
  h !! r = Some o -> get_seq r h = (h, Ok (seq_ o)).
Proof.
  intros H. unfold get_seq.
  by rewrite (bind_run _ _ _ _ _ (read_run _ _ _ H)).
Qed.

Lemma get_name_run r h o :
  h !! r = Some o -> get_name r h = (h, Ok (name o)).
Proof.
  intros H. unfold get_name.
  by rewrite (bind_run _ _ _ _ _ (read_run _ _ _ H)).
Qed.

Lemma mapM_get_seq (l : list ref) (objs : list Seqobj) (h : heap) :
  Forall2 (fun r o => h !! r = Some o) l objs ->
  mapM get_seq l h = (h, Ok (seq_ <$> objs)).
Proof.
  induction 1 as [|r o l objs Hr _ IH]; simpl; [done|].
  rewrite (bind_run _ _ _ _ _ (get_seq_run _ _ _ Hr)).
  by rewrite (bind_run _ _ _ _ _ IH).
Qed.

(** C8: [tabulate] raises (the [ValueError] of [max] on an empty list,
    the specification's validation error) exactly when there is no
    record; otherwise it returns one table per column of the alignment
    padded to the longest record, each holding for every character the
    number of records that have it in that column, and the stored records
    are left as they were, the padding being done on a local copy. *)
Theorem tabulate_total :
  (forall strs e, tabulate_strs strs = Raise e <-> strs = [] /\ e = ValueError)
  /\ (forall strs, strs <> [] ->
        let n := max_list (length <$> strs) in
        exists tables,
          tabulate_strs strs = Ok tables /\ length tables = n /\
          forall i, (i < n)%nat ->
            exists d, tables !! i = Some d /\
                      table_of (column_count n strs i) d)
  /\ (forall seqList objs h,
        Forall2 (fun r o => h !! r = Some o) seqList objs ->
        tabulate seqList h = (h, tabulate_strs (seq_ <$> objs))).
Proof.
  split; [|split].
  - intros [|s strs] e; simpl.
    + split; [by intros [= <-] | by intros [_ ->]].
    + split; [done | by intros [? _]].
  - intros strs Hne n. destruct strs as [|s strs]; [done|].
    unfold tabulate_strs. fold n.
    destruct (tabulate_fold n (s :: strs) (replicate n ∅) (fun _ _ => 0))
      as [Hlen Hout].
    + by rewrite length_replicate.
    + intros s' Hs'. unfold n. apply max_list_elem_of_le.
      apply list_elem_of_fmap. eauto.
    + done.
    + intros i d [-> _]%lookup_replicate c. by rewrite lookup_empty.
    + eexists. split; [done|]. split; [done|]. intros i Hi.
      destruct (lookup_lt_is_Some_2
                  (foldl (tabulate_step n) (replicate n ∅) (s :: strs)) i)
        as [d Hd]; [lia|].
      exists d. split; [done|]. apply (Hout i d Hd).
  - intros seqList objs h Hall. unfold tabulate, bind.
    by rewrite (mapM_get_seq _ _ _ Hall).
Qed.

Lemma tabulate_total_witness :
  (exists tables,
     tabulate_strs [lit "AC"; lit "A"] = Ok tables /\
     length tables = 2%nat /\
     forall i, (i < 2)%nat ->
       exists d, tables !! i = Some d /\
                 table_of (column_count 2 [lit "AC"; lit "A"] i) d)
  /\ tabulate [0; 1]%nat gap_record_store
     = (gap_record_store, tabulate_strs (seq_ <$> gap_record_store)).
Proof.
  destruct tabulate_total as (_ & W2 & W3). split.
  - apply (W2 [lit "AC"; lit "A"]). discriminate.
  - apply W3. repeat constructor.
Defined.

(** ** C6: [seqdiff] *)

Lemma upper_chr_gap a : chr_eqb (upper_chr a) gap_chr = chr_eqb a gap_chr.
Proof. by destruct a as [[] [] [] [] [] [] [] []]. Qed.

(** With a one-character marker every call of [diff] yields one
    character, so the joined string is the list of these characters. *)
Lemma concat_zip_with_single {A B} (f : A -> B -> ascii) (l1 : list A)
    (l2 : list B) :
  concat (zip_with (fun a b => [f a b]) l1 l2) = zip_with f l1 l2.
Proof.
  revert l2. induction l1 as [|a l1 IH]; intros [|b l2]; simpl; try done.
  by rewrite IH.
Qed.

Lemma seqdiff_marker_eq seq templateseq c :
  seqdiff seq templateseq [c]
  = Ok (zip_with (fun s t => if chr_eqb s t && negb (chr_eqb s gap_chr)
                             then c else s)
          (upper seq) (upper templateseq)).
Proof.
  unfold seqdiff. f_equal. rewrite <- concat_zip_with_single.
  f_equal. apply zip_with_ext; [|done|done]. intros s t.
  by destruct (chr_eqb s t && negb (chr_eqb s gap_chr)).
Qed.

(** C6 (as stated, refuted): diffing the record "." against the reference
    "A" with the marker "." leaves "." in place, so the position holds the
    marker although the two characters differ. *)
Lemma seqdiff_marker_without_match :
  ~ (forall seq templateseq c r i a b,
       seqdiff seq templateseq [c] = Ok r ->
       seq !! i = Some a -> templateseq !! i = Some b ->
       (r !! i = Some c <-> upper_chr a = upper_chr b /\ a <> gap_chr)).
Proof.
  intros H.
  destruct (H (lit ".") (lit "A") "."%char (lit ".") 0%nat "."%char "A"%char)
    as [Hfwd _]; try reflexivity.
  destruct Hfwd as [Heq _]; [reflexivity | discriminate Heq].
Qed.

(** C6 (amended): for a one-character marker, [seqdiff] returns a string
    as long as the shorter of the record and the reference; a position
    holds the marker when the uppercased record character equals the
    uppercased reference character and the record character is not a gap,
    and the uppercased record character otherwise, so it holds the marker
    exactly in the first case unless the record character is itself the
    marker; a marker of more than one character raises [ValueError]; and
    diffing a record against its own string maps every non-gap character
    to the marker. *)
Theorem seqdiff_marker seq templateseq c :
  exists r,
    seqdiff seq templateseq [c] = Ok r
    /\ length r = Nat.min (length seq) (length templateseq)
    /\ (forall i a b,
          seq !! i = Some a -> templateseq !! i = Some b ->
          r !! i = Some (if bool_decide (upper_chr a = upper_chr b
                                         /\ a <> gap_chr)
                         then c else upper_chr a))
    /\ (forall i a b,
          seq !! i = Some a -> templateseq !! i = Some b ->
          upper_chr a <> c ->
          (r !! i = Some c <-> upper_chr a = upper_chr b /\ a <> gap_chr))
    /\ (forall sim, (1 < length sim)%nat ->
                    seqdiff seq templateseq sim = Raise ValueError)
    /\ (forall r', seqdiff seq seq [c] = Ok r' ->
          length r' = length seq /\
          forall i a, seq !! i = Some a -> a <> gap_chr -> r' !! i = Some c).
Proof.
  assert (Hpos : forall t i a b,
    seq !! i = Some a -> t !! i = Some b ->
    zip_with (fun s t => if chr_eqb s t && negb (chr_eqb s gap_chr)
                         then c else s) (upper seq) (upper t) !! i
    = Some (if bool_decide (upper_chr a = upper_chr b /\ a <> gap_chr)
            then c else upper_chr a)).
  { intros t i a b Ha Hb. apply lookup_zip_with_Some.
    exists (upper_chr a), (upper_chr b). unfold upper.
    rewrite !list_lookup_fmap, Ha, Hb. split; [|done].
    rewrite upper_chr_gap. f_equal.
    assert (Hb' : chr_eqb (upper_chr a) (upper_chr b)
                  && negb (chr_eqb a gap_chr)
                  = bool_decide (upper_chr a = upper_chr b /\ a <> gap_chr)).
    { apply eq_true_iff_eq.
      rewrite andb_true_iff, negb_true_iff, chr_eqb_eq, chr_eqb_neq.
      by rewrite bool_decide_eq_true. }
    by rewrite Hb'. }
  eexists. split; [apply seqdiff_marker_eq|].
  split; [|split; [|split; [|split]]].
  - unfold upper. by rewrite length_zip_with, !length_fmap.
  - apply Hpos.
  - intros i a b Ha Hb Hne. rewrite (Hpos _ i a b Ha Hb).
    case_bool_decide; split; try done.
    + intros [= Heq]. done.
  - intros [|x [|y sim]] Hlen; simpl in Hlen; try lia. done.
  - intros r'. rewrite seqdiff_marker_eq. intros [= <-]. split.
    + unfold upper. rewrite length_zip_with, !length_fmap. lia.
    + intros i a Ha Hgap. rewrite (Hpos _ i a a Ha Ha).
      by rewrite bool_decide_eq_true_2.
Qed.

Lemma seqdiff_marker_witness :
  exists r,
    seqdiff (lit "ac-T") (lit "ACGA") (lit ".") = Ok r
    /\ length r = 4%nat
    /\ r !! 0%nat = Some "."%char
    /\ (r !! 3%nat = Some "."%char <->
        upper_chr "T" = upper_chr "A" /\ "T"%char <> gap_chr)
    /\ seqdiff (lit "ac-T") (lit "ACGA") (lit "..") = Raise ValueError.
Proof.
  destruct (seqdiff_marker (lit "ac-T") (lit "ACGA") ".")
    as (r & Hr & Hlen & Hpos & Hiff & Herr & _).
  exists r. split; [exact Hr|]. split; [exact Hlen|].
  split; [|split].
  - apply (Hpos 0%nat "a"%char "A"%char); reflexivity.
  - apply (Hiff 3%nat "T"%char "A"%char); [reflexivity | reflexivity|].
    discriminate.
  - apply Herr. simpl. lia.
Defined.

(** ** Decimal numerals *)

Section Decimal.
Local Open Scope nat_scope.
#[local] Arguments digit_chr : simpl never.
#[local] Arguments repr_nat : simpl never.

Lemma repr_fuel_irrel fuel1 fuel2 n :
  n < fuel1 -> n < fuel2 -> repr_fuel fuel1 n = repr_fuel fuel2 n.
Proof.
  revert fuel2 n. induction fuel1 as [|fuel1 IH]; intros fuel2 n H1 H2; [lia|].
  destruct fuel2 as [|fuel2]; [lia|]. cbn [repr_fuel].
  destruct (Nat.ltb_spec n 10) as [|Hge]; [done|].
  assert (n / 10 < n) by (apply Nat.div_lt; lia).
  f_equal. apply IH; lia.
Qed.

Lemma repr_nat_eq n :
  repr_nat n = if n <? 10 then [digit_chr n]
               else repr_nat (n / 10) ++ [digit_chr (n mod 10)].
Proof.
  unfold repr_nat at 1. cbn [repr_fuel].
  destruct (Nat.ltb_spec n 10) as [|Hge]; [done|].
  assert (n / 10 < n) by (apply Nat.div_lt; lia).
  f_equal. apply repr_fuel_irrel; lia.
Qed.

Lemma digit_chr_val d : d < 10 -> digit_val (digit_chr d) = Z.of_nat d.
Proof.
  intros H. unfold digit_val, digit_chr, code.
  rewrite nat_ascii_embedding by lia. lia.
Qed.

Lemma digit_chr_is_digit d : d < 10 -> is_digit (digit_chr d) = true.
Proof. intros H. do 10 (destruct d as [|d]; [reflexivity|]). lia. Qed.

Lemma digit_chr_not_space d : d < 10 -> is_space (digit_chr d) = false.
Proof. intros H. do 10 (destruct d as [|d]; [reflexivity|]). lia. Qed.

Lemma digit_chr_not_sign d :
  d < 10 -> chr_eqb (digit_chr d) "-" = false /\
            chr_eqb (digit_chr d) "+" = false.
Proof. intros H. do 10 (destruct d as [|d]; [done|]). lia. Qed.

Lemma digits_val_snoc s c :
  digits_val (s ++ [c]) = (10 * digits_val s + digit_val c)%Z.
Proof. unfold digits_val. by rewrite fold_left_app. Qed.

Lemma repr_nat_val n : digits_val (repr_nat n) = Z.of_nat n.
Proof.
  induction n as [n IH] using lt_wf_ind. rewrite repr_nat_eq.
  destruct (Nat.ltb_spec n 10) as [Hlt|Hge].
  - unfold digits_val. simpl. rewrite digit_chr_val by done. lia.
  - rewrite digits_val_snoc, IH by (apply Nat.div_lt; lia).
    rewrite digit_chr_val by (apply Nat.mod_upper_bound; lia).
    rewrite Nat2Z.inj_div, Nat2Z.inj_mod. simpl.
    pose proof (Z.div_mod (Z.of_nat n) 10). lia.
Qed.

Lemma repr_nat_digits n : forallb is_digit (repr_nat n) = true.
Proof.
  induction n as [n IH] using lt_wf_ind. rewrite repr_nat_eq.
  destruct (Nat.ltb_spec n 10) as [Hlt|Hge].
  - cbn [forallb]. rewrite digit_chr_is_digit by exact Hlt. reflexivity.
  - rewrite forallb_app, IH by (apply Nat.div_lt; lia). cbn [forallb].
    rewrite digit_chr_is_digit by (apply Nat.mod_upper_bound; lia).
    reflexivity.
Qed.

(** A numeral starts and ends with a digit. *)
Lemma repr_nat_ends n :
  exists d init, d < 10 /\ repr_nat n = init ++ [digit_chr d].
Proof.
  rewrite repr_nat_eq. destruct (Nat.ltb_spec n 10) as [Hlt|Hge].
  - exists n, []. done.
  - exists (n mod 10), (repr_nat (n / 10)). split; [|done].
    apply Nat.mod_upper_bound. lia.
Qed.

Lemma repr_nat_starts n :
  exists d rest, d < 10 /\ repr_nat n = digit_chr d :: rest.
Proof.
  induction n as [n IH] using lt_wf_ind. rewrite repr_nat_eq.
  destruct (Nat.ltb_spec n 10) as [Hlt|Hge].
  - exists n, []. done.
  - destruct (IH (n / 10)) as (d & rest & Hd & ->); [apply Nat.div_lt; lia|].
    exists d, (rest ++ [digit_chr (n mod 10)]). done.
Qed.

Lemma repr_nat_length_pos n : 1 <= length (repr_nat n).
Proof. destruct (repr_nat_starts n) as (d & rest & _ & ->). simpl. lia. Qed.

Lemma repr_nat_length_mono n m :
  n <= m -> length (repr_nat n) <= length (repr_nat m).
Proof.
  revert n. induction m as [m IH] using lt_wf_ind. intros n Hle.
  rewrite (repr_nat_eq n), (repr_nat_eq m).
  destruct (Nat.ltb_spec m 10) as [Hm|Hm];
    destruct (Nat.ltb_spec n 10) as [Hn|Hn]; try lia;
    rewrite ?length_app; cbn [length].
  - done.
  - pose proof (repr_nat_length_pos (m / 10)). lia.
  - assert (length (repr_nat (n / 10)) <= length (repr_nat (m / 10))); [|lia].
    apply IH; [apply Nat.div_lt; lia|].
    apply Nat.Div0.div_le_mono. lia.
Qed.
End Decimal.

(** ** [int()] reads back what the formats write *)

Lemma drop_while_replicate {A} (p : A -> bool) k x l :
  p x = true -> drop_while p (replicate k x ++ l) = drop_while p l.
Proof. intros Hx. induction k as [|k IH]; simpl; [done|]. by rewrite Hx. Qed.

Lemma rstrip_by_id (p : ascii -> bool) init x :
  p x = false -> rstrip_by p (init ++ [x]) = init ++ [x].
Proof.
  intros Hx. unfold rstrip_by. rewrite reverse_app. simpl.
  rewrite Hx, reverse_cons, reverse_involutive. done.
Qed.

Lemma digits_val_zeros k s :
  digits_val (replicate k "0"%char ++ s) = digits_val s.
Proof.
  unfold digits_val. rewrite fold_left_app. f_equal.
  induction k as [|k IH]; simpl; [done|]. apply IH.
Qed.

(** A non-empty string of digits is read as its value. *)
Lemma py_int_digits s :
  s <> [] -> forallb is_digit s = true -> py_int s = Some (digits_val s).
Proof.
  intros Hne Hdig. unfold py_int.
  assert (Hns : forall c, c ∈ s -> is_space c = false /\
                chr_eqb c "-" = false /\ chr_eqb c "+" = false).
  { intros c Hc. rewrite forallb_forall in Hdig.
    assert (Hd : is_digit c = true) by (by apply Hdig, list_elem_of_In).
    clear -Hd. by destruct c as [[] [] [] [] [] [] [] []]. }
  destruct s as [|c t]; [done|].
  assert (Hdrop : drop_while is_space (c :: t) = c :: t).
  { simpl. destruct (Hns c) as (-> & _); [left | done]. }
  rewrite Hdrop.
  destruct (exists_last (l := c :: t)) as (init & x & Hlast); [done|].
  rewrite Hlast, rstrip_by_id, <- Hlast.
  2:{ apply Hns. rewrite Hlast. apply elem_of_app. right. left. }
  destruct (Hns c) as (_ & -> & ->); [left|].
  unfold parse_digits. by rewrite Hdig.
Qed.

Lemma py_int_zfill w n : py_int (zfill w (repr_nat n)) = Some (Z.of_nat n).
Proof.
  unfold zfill. rewrite py_int_digits.
  - by rewrite digits_val_zeros, repr_nat_val.
  - destruct (repr_nat_starts n) as (d & rest & _ & ->).
    by destruct (w - _)%nat.
  - rewrite forallb_app, repr_nat_digits, andb_true_r.
    apply forallb_forall. intros c Hc%list_elem_of_In.
    by apply elem_of_replicate in Hc as [-> _].
Qed.

Lemma py_int_rjust w n : py_int (rjust w (repr_nat n)) = Some (Z.of_nat n).
Proof.
  pose proof (py_int_digits (repr_nat n)) as H. unfold py_int in *.
  unfold rjust. rewrite drop_while_replicate by done.
  rewrite H; [by rewrite repr_nat_val | | apply repr_nat_digits].
  by destruct (repr_nat_starts n) as (d & rest & _ & ->).
Qed.

(** ** Comprehensions that may raise *)

Lemma rmap_Ok {A B} (f : A -> result B) (l : list A) (ys : list B) :
  rmap f l = Ok ys <-> Forall2 (fun x y => f x = Ok y) l ys.
Proof.
  revert ys. induction l as [|x l IH]; intros ys; simpl.
  - split; [intros [= <-]; constructor | by intros ->%Forall2_nil_inv_l].
  - split.
    + destruct (f x) as [y|e] eqn:Ex; simpl; [|done].
      destruct (rmap f l) as [ys'|e] eqn:El; simpl; [|done].
      intros [= <-]. constructor; [done | by apply IH].
    + intros (y & ys' & Hy & Hys & ->)%Forall2_cons_inv_l.
      rewrite Hy. simpl. apply IH in Hys. by rewrite Hys.
Qed.

Lemma rmap_exists {A B} (f : A -> result B) (l : list A) :
  Forall (fun x => exists y, f x = Ok y) l -> exists ys, rmap f l = Ok ys.
Proof.
  induction 1 as [|x l [y Hy] _ [ys Hys]]; simpl; [by eexists|].
  rewrite Hy, Hys. simpl. by eexists.
Qed.

Lemma rmap_length {A B} (f : A -> result B) (l : list A) (ys : list B) :
  rmap f l = Ok ys -> length ys = length l.
Proof. intros H%rmap_Ok. symmetry. by eapply Forall2_length. Qed.

(** ** C4: the numbering ruler *)

Lemma numchars_loop_all fmt gapstr ignore_gaps i seqstr :
  ignore_gaps = true \/ gap_chr ∉ seqstr ->
  numchars_loop fmt gapstr ignore_gaps i seqstr
  = fmt <$> seq i (length seqstr).
Proof.
  revert i. induction seqstr as [|c rest IH]; intros i Hfree; simpl; [done|].
  assert (Hc : negb ignore_gaps && chr_eqb c gap_chr = false).
  { destruct Hfree as [-> | Hnot]; [done|].
    destruct (chr_eqb c gap_chr) eqn:E; [|by rewrite andb_false_r].
    apply chr_eqb_eq in E. subst c. exfalso. apply Hnot. left. }
  rewrite Hc. f_equal. apply IH.
  destruct Hfree as [-> | Hnot]; [by left | right].
  intros Hin. apply Hnot. by right.
Qed.

(** Rows of equal width [w] are transposed into [w] columns. *)
Lemma transpose_ok (rows : list str) (w : nat) :
  Forall (fun x => length x = w) rows ->
  exists cols,
    rmap (fun n => rmap (fun x => char_at x n) rows) (seq 0 w) = Ok cols /\
    Forall2 (fun n col => Forall2 (fun x c => x !! n = Some c) rows col)
      (seq 0 w) cols.
Proof.
  intros Hrows.
  destruct (rmap_exists (fun n => rmap (fun x => char_at x n) rows) (seq 0 w))
    as [cols Hcols].
  { apply Forall_forall. intros n [_ Hn]%elem_of_seq.
    apply rmap_exists. apply Forall_forall. intros x Hx.
    rewrite Forall_forall in Hrows. specialize (Hrows x Hx).
    destruct (lookup_lt_is_Some_2 x n) as [c Hc]; [lia|].
    exists c. unfold char_at. by rewrite Hc. }
  exists cols. split; [done|].
  apply rmap_Ok in Hcols. eapply Forall2_impl; [exact Hcols|].
  intros n col Hcol. simpl in Hcol. apply rmap_Ok in Hcol.
  eapply Forall2_impl; [exact Hcol|].
  intros x c. unfold char_at. destruct (x !! n); [by intros [= ->] | done].
Qed.

(** Reading the columns of a transposed table at offset [j] gives back
    row [j]. *)
Lemma transpose_read_down (rows cols : list str) (w j : nat) (x : str) :
  Forall (fun x => length x = w) rows ->
  Forall2 (fun n col => Forall2 (fun x c => x !! n = Some c) rows col)
    (seq 0 w) cols ->
  rows !! j = Some x ->
  rmap (fun s => char_at s j) cols = Ok x.
Proof.
  intros Hrows Hcols Hj. apply rmap_Ok.
  assert (Hx : length x = w).
  { rewrite Forall_forall in Hrows. apply Hrows.
    by eapply list_elem_of_lookup_2. }
  apply Forall2_same_length_lookup_2.
  - apply Forall2_length in Hcols. rewrite length_seq in Hcols. lia.
  - intros n s c Hs Hc.
    assert (Hn : seq 0 w !! n = Some n).
    { apply lookup_seq. split; [done|]. apply lookup_lt_Some in Hc. lia. }
    pose proof (Forall2_lookup_lr _ _ _ _ _ _ Hcols Hn Hs) as Hcol.
    destruct (Forall2_lookup_l _ _ _ _ _ Hcol Hj) as (c' & Hc' & Hxc).
    unfold char_at. rewrite Hc'. congruence.
Qed.

(** C4: for a sequence string of length [N] without gaps (or with the
    default [ignore_gaps]), [get_vnumbers] returns as many strings as
    [N + 1] has decimal digits, each of length [N], and for every column
    [i] from 1 to [N] the characters read down the strings at that column
    are parsed by [int] as [i]. *)
Theorem ruler_round_trip seqstr ignore_gaps leadingZeros :
  ignore_gaps = true \/ gap_chr ∉ seqstr ->
  exists ruler,
    get_vnumbers seqstr ignore_gaps leadingZeros = Ok ruler
    /\ length ruler = length (repr_nat (length seqstr + 1))
    /\ Forall (fun s => length s = length seqstr) ruler
    /\ forall i, (1 <= i <= length seqstr)%nat ->
         exists col, rmap (fun s => char_at s (i - 1)) ruler = Ok col /\
                     py_int col = Some (Z.of_nat i).
Proof.
  intros Hfree. unfold get_vnumbers.
  set (N := length seqstr). set (digs := length (repr_nat (N + 1))).
  set (fmt := fun i : nat => if leadingZeros then zfill digs (repr_nat i)
                            else rjust digs (repr_nat i)).
  rewrite (numchars_loop_all _ _ _ _ _ Hfree). fold N.
  rewrite bool_decide_eq_true_2 by done. rewrite andb_false_r.
  assert (Hrows : Forall (fun x => length x = digs) (fmt <$> seq 1 N)).
  { apply Forall_fmap, Forall_forall. intros k [Hk1 Hk2]%elem_of_seq. simpl.
    assert (length (repr_nat k) <= digs)%nat
      by (apply repr_nat_length_mono; lia).
    unfold fmt, zfill, rjust.
    destruct leadingZeros; rewrite length_app, length_replicate; lia. }
  destruct (transpose_ok _ _ Hrows) as (cols & Hcols & Ht).
  exists cols. split; [done|]. split; [|split].
  - apply rmap_length in Hcols. by rewrite length_seq in Hcols.
  - apply Forall_forall. intros s [n Hs]%list_elem_of_lookup.
    destruct (Forall2_lookup_r _ _ _ _ _ Ht Hs) as (n' & _ & Hcol).
    apply Forall2_length in Hcol.
    rewrite length_fmap, length_seq in Hcol. done.
  - intros i [Hi1 Hi2]. exists (fmt i). split.
    + apply (transpose_read_down _ _ _ _ _ Hrows Ht).
      rewrite list_lookup_fmap.
      replace (seq 1 N !! (i - 1)%nat) with (Some i); [done|].
      symmetry. apply lookup_seq. lia.
    + unfold fmt. destruct leadingZeros;
        [apply py_int_zfill | apply py_int_rjust].
Qed.

Lemma ruler_round_trip_witness :
  exists ruler,
    get_vnumbers (lit "ACGTACGTACGT") false true = Ok ruler
    /\ length ruler = 2%nat
    /\ Forall (fun s => length s = 12%nat) ruler
    /\ exists col, rmap (fun s => char_at s 10) ruler = Ok col /\
                   py_int col = Some 11.
Proof.
  destruct (ruler_round_trip (lit "ACGTACGTACGT") false true)
    as (ruler & Hr & Hlen & Hall & Hcol).
  - right. intros Hin.
    repeat (apply elem_of_cons in Hin as [Hin | Hin]; [discriminate Hin|]).
    by apply elem_of_nil in Hin.
  - exists ruler. split; [exact Hr|]. split; [exact Hlen|].
    split; [exact Hall|]. apply (Hcol 11%nat). simpl. lia.
Defined.

(** ** C7: pagination *)

Section Pagify.
Local Open Scope nat_scope.
Variables (lay : layout) (name_width num_width : nat).
Variables (seqlist : list Seqobj) (vnumstrs : list str).

Local Abbreviation page_at := (page lay name_width num_width seqlist vnumstrs).
Local Abbreviation rows_at :=
  (row_blocks lay name_width num_width seqlist vnumstrs).

(** A page is the optional status line, the number lines and the record
    lines, in this order. *)
Lemma page_with_status start stop counter first :
  nrow lay < length seqlist ->
  page_at start stop counter first
  = status_line first (Nat.min (first + nrow lay) (length seqlist))
      (length seqlist)
    :: number_lines lay name_width num_width vnumstrs start stop
    ++ record_lines lay name_width num_width start stop counter
         (slice first (Nat.min (first + nrow lay) (length seqlist)) seqlist).
Proof.
  intros H. unfold page.
  by replace (nrow lay <? length seqlist) with true
    by (symmetry; apply Nat.ltb_lt; lia).
Qed.

Lemma row_blocks_pages start stop firsts counter :
  Forall2 (fun first pg => exists c, pg = page_at start stop c first)
    firsts (rows_at start stop counter firsts).
Proof.
  revert counter. induction firsts as [|first firsts IH]; intros counter;
    cbn [row_blocks]; constructor; eauto.
Qed.

Lemma col_blocks_eq colstop firsts starts :
  xrange (length seqlist) (nrow lay) = Ok firsts ->
  col_blocks lay name_width num_width seqlist vnumstrs colstop starts
  = Ok (concat ((fun start =>
                   rows_at start (Nat.min (start + ncol lay) colstop) 1 firsts)
                <$> starts)).
Proof.
  intros Hx. induction starts as [|start starts IH]; cbn [col_blocks]; [done|].
  rewrite Hx, IH. done.
Qed.

Lemma col_blocks_pages colstop starts out :
  col_blocks lay name_width num_width seqlist vnumstrs colstop starts
  = Ok out ->
  Forall (fun pg => exists start stop c first,
                      pg = page_at start stop c first) out.
Proof.
  revert out. induction starts as [|start starts IH]; intros out;
    cbn [col_blocks].
  - intros [= <-]. constructor.
  - destruct (xrange (length seqlist) (nrow lay)) as [firsts|e]; [|done].
    cbn [rbind].
    destruct (col_blocks lay name_width num_width seqlist vnumstrs colstop
                starts) as [out'|e]; [|done].
    cbn [rbind]. intros [= <-]. apply Forall_app. split; [|by apply IH].
    apply Forall_forall. intros pg [i Hi]%list_elem_of_lookup.
    destruct (Forall2_lookup_r _ _ _ _ _
                (row_blocks_pages start (Nat.min (start + ncol lay) colstop)
                   firsts 1) Hi) as (first & _ & c & ->).
    eauto.
Qed.
End Pagify.

Lemma xrange_Ok stop step : step <> 0%nat -> exists l, xrange stop step = Ok l.
Proof.
  intros H. unfold xrange. destruct (Nat.eqb_spec step 0); [done | eauto].
Qed.

(** The widths and the two derived parameters that [pagify] computes. *)
Lemma pagify_eq s0 rest vnumstrs lay :
  pagify (s0 :: rest) vnumstrs lay
  = rbind (xrange (length (seq_ s0)) (ncol lay)) (fun starts =>
      col_blocks lay
        (Nat.max (name_min lay)
           (Nat.min (max_list ((fun s => length (name s)) <$> s0 :: rest))
              (name_max lay)))
        (length (repr_nat (length (s0 :: rest))))
        (s0 :: rest) vnumstrs (length (seq_ s0)) starts).
Proof. done. Qed.

Lemma slice_length {A} (l : list A) start stop :
  (stop <= length l)%nat -> length (slice start stop l) = (stop - start)%nat.
Proof. intros H. unfold slice. rewrite length_take, length_drop. lia. Qed.

(** ** The pages of [pagify] *)

Section Blocks.
Local Open Scope nat_scope.

Lemma ceil_div_step d step :
  0 < d -> 0 < step -> ceil_div d step = S (ceil_div (d - step) step).
Proof.
  intros Hd Hs. unfold ceil_div.
  destruct (Nat.le_gt_cases d step) as [Hle | Hgt].
  - replace (d - step) with 0 by lia.
    rewrite (Nat.div_small (0 + step - 1)) by lia.
    replace (d + step - 1) with ((d - 1) + 1 * step) by lia.
    rewrite Nat.div_add by lia. rewrite Nat.div_small by lia. done.
  - replace (d + step - 1) with ((d - step + step - 1) + 1 * step) by lia.
    rewrite Nat.div_add by lia. lia.
Qed.

Lemma ceil_div_0 step : ceil_div 0 step = 0.
Proof.
  unfold ceil_div. destruct step as [|step]; [done|].
  apply Nat.div_small. lia.
Qed.

(** [xrange] lists the multiples of the step below the bound. *)
Lemma xrange_fuel_eq step stop :
  0 < step ->
  forall fuel start,
    stop - start <= fuel ->
    xrange_fuel fuel start stop step
    = (fun k => start + k * step) <$> seq 0 (ceil_div (stop - start) step).
Proof.
  intros Hs. induction fuel as [|fuel IH]; intros start Hfuel.
  - replace (stop - start) with 0 by lia. by rewrite ceil_div_0.
  - cbn [xrange_fuel]. destruct (Nat.ltb_spec start stop) as [Hlt | Hge].
    + rewrite (ceil_div_step (stop - start) step) by lia.
      rewrite IH by lia. cbn [seq fmap list_fmap].
      f_equal; [lia|].
      replace (stop - start - step) with (stop - (start + step)) by lia.
      rewrite <- (fmap_S_seq 0), <- list_fmap_compose.
      apply list_fmap_ext. intros i k _. simpl. lia.
    + replace (stop - start) with 0 by lia. by rewrite ceil_div_0.
Qed.

Lemma xrange_eq stop step :
  0 < step ->
  xrange stop step = Ok ((fun k => k * step) <$> seq 0 (ceil_div stop step)).
Proof.
  intros Hs. unfold xrange.
  destruct (Nat.eqb_spec step 0) as [|_]; [lia|].
  rewrite (xrange_fuel_eq step stop Hs stop 0) by lia.
  by rewrite Nat.sub_0_r.
Qed.

Lemma xrange_elem stop step l x :
  xrange stop step = Ok l -> x ∈ l -> x < stop.
Proof.
  unfold xrange. destruct (Nat.eqb_spec step 0) as [|Hs]; [done|].
  intros [= <-]. generalize 0 at 1. generalize stop at 1 as fuel.
  induction fuel as [|fuel IH]; intros start; cbn [xrange_fuel].
  - by intros ?%elem_of_nil.
  - destruct (Nat.ltb_spec start stop); [|by intros ?%elem_of_nil].
    intros [-> | Hx]%elem_of_cons; [done | by eapply IH].
Qed.

Variables (lay : layout) (name_width num_width : nat).
Variables (seqlist : list Seqobj) (vnumstrs : list str).

Local Abbreviation page_at := (page lay name_width num_width seqlist vnumstrs).
Local Abbreviation rows_at :=
  (row_blocks lay name_width num_width seqlist vnumstrs).

(** The counter that a block of rows starts with is the 1-based position
    of its first record. *)
Lemma row_blocks_xrange start stop :
  forall fuel first,
    rows_at start stop (S first)
      (xrange_fuel fuel first (length seqlist) (nrow lay))
    = (fun f => page_at start stop (S f) f)
      <$> xrange_fuel fuel first (length seqlist) (nrow lay).
Proof.
  induction fuel as [|fuel IH]; intros first; cbn [xrange_fuel]; [done|].
  destruct (Nat.ltb_spec first (length seqlist)) as [Hlt | Hge]; [|done].
  cbn [row_blocks fmap list_fmap]. f_equal.
  destruct (Nat.le_gt_cases (length seqlist) (first + nrow lay))
    as [Hlast | Hmore].
  - destruct fuel as [|fuel']; [done|]. cbn [xrange_fuel].
    destruct (Nat.ltb_spec (first + nrow lay) (length seqlist)); [lia|done].
  - rewrite slice_length by lia.
    replace (S first + (Nat.min (first + nrow lay) (length seqlist) - first))
      with (S (first + nrow lay)) by lia.
    apply IH.
Qed.

(** The row blocks cut the list of records into consecutive pieces. *)
Lemma row_slices_concat :
  0 < nrow lay ->
  forall fuel first,
    length seqlist - first <= fuel ->
    concat ((fun f => slice f (Nat.min (f + nrow lay) (length seqlist))
                        seqlist)
            <$> xrange_fuel fuel first (length seqlist) (nrow lay))
    = drop first seqlist.
Proof.
  intros Hn. induction fuel as [|fuel IH]; intros first Hfuel;
    cbn [xrange_fuel].
  - by rewrite drop_ge by lia.
  - destruct (Nat.ltb_spec first (length seqlist)) as [Hlt | Hge].
    + cbn [fmap list_fmap concat]. rewrite IH by lia. unfold slice.
      etransitivity; [|apply (take_drop (nrow lay))].
      rewrite drop_drop. f_equal.
      destruct (Nat.le_gt_cases (first + nrow lay) (length seqlist)).
      * f_equal. lia.
      * rewrite !take_ge; [done | rewrite length_drop; lia
                          | rewrite length_drop; lia].
    + by rewrite drop_ge by lia.
Qed.

(** The pages that [pagify] returns, block by block. *)
Lemma pagify_exact s0 rest out :
  seqlist = s0 :: rest ->
  name_width = Nat.max (name_min lay)
                 (Nat.min (max_list ((fun s => length (name s)) <$> seqlist))
                    (name_max lay)) ->
  num_width = length (repr_nat (length seqlist)) ->
  pagify seqlist vnumstrs lay = Ok out ->
  0 < ncol lay /\
  out = concat
          ((fun start =>
              (fun f => page_at start
                          (Nat.min (start + ncol lay) (length (seq_ s0)))
                          (S f) f)
              <$> xrange_fuel (length seqlist) 0 (length seqlist) (nrow lay))
           <$> xrange_fuel (length (seq_ s0)) 0 (length (seq_ s0))
                 (ncol lay)).
Proof.
  intros Hsl Hnw Hnumw. rewrite Hsl at 1. rewrite pagify_eq.
  rewrite <- Hsl, <- Hnw, <- Hnumw.
  unfold xrange at 1. destruct (Nat.eqb_spec (ncol lay) 0) as [|Hc]; [done|].
  cbn [rbind]. intros Hcol. split; [lia|].
  set (starts := xrange_fuel (length (seq_ s0)) 0 (length (seq_ s0))
                   (ncol lay)) in *.
  clearbody starts.
  destruct (xrange (length seqlist) (nrow lay)) as [firsts|e] eqn:Ef.
  - rewrite (col_blocks_eq _ _ _ _ _ _ firsts _ Ef) in Hcol.
    injection Hcol as <-.
    unfold xrange in Ef. destruct (Nat.eqb (nrow lay) 0); [done|].
    injection Ef as <-. f_equal. apply list_fmap_ext. intros i st _.
    apply row_blocks_xrange.
  - destruct starts as [|start starts]; cbn [col_blocks] in Hcol.
    + by injection Hcol as <-.
    + by rewrite Ef in Hcol.
Qed.
End Blocks.

(** ** The pages of [pagify] in closed form *)

Section Shown.
Local Open Scope nat_scope.
Variables (lay : layout) (name_width num_width : nat).
Variables (seqlist : list Seqobj) (vnumstrs : list str).

(** The counter that [pagify] threads through the records of a page
    numbers them from the position of the first one. *)
Lemma record_lines_shown start stop l :
  forall first,
    record_lines lay name_width num_width start stop (S first) l
    = shown_records lay name_width num_width start stop first l.
Proof.
  unfold shown_records.
  induction l as [|s l IH]; intros first; cbn [record_lines]; [done|].
  rewrite imap_cons. f_equal.
  - unfold fstr, record_line. by replace (first + 0 + 1) with (S first) by lia.
  - rewrite IH. apply imap_ext. intros k x _. unfold compose. cbn beta.
    by replace (S first + k + 1) with (first + S k + 1) by lia.
Qed.

Lemma page_shown start stop first :
  page lay name_width num_width seqlist vnumstrs start stop (S first) first
  = shown_page lay name_width num_width seqlist vnumstrs start stop first.
Proof.
  unfold page, shown_page, status_line. cbv zeta.
  by rewrite record_lines_shown.
Qed.

Lemma shown_records_app start stop first l1 l2 :
  shown_records lay name_width num_width start stop first (l1 ++ l2)
  = shown_records lay name_width num_width start stop first l1
    ++ shown_records lay name_width num_width start stop
         (first + length l1) l2.
Proof.
  unfold shown_records. rewrite imap_app. f_equal.
  apply imap_ext. intros k x _. cbn beta. f_equal. lia.
Qed.

(** The record lines of the pages of one block of columns, joined, are
    the lines of all the records in their order. *)
Lemma shown_records_concat start stop :
  0 < nrow lay ->
  forall fuel first,
    length seqlist - first <= fuel ->
    concat ((fun f =>
               shown_records lay name_width num_width start stop f
                 (slice f (Nat.min (f + nrow lay) (length seqlist)) seqlist))
            <$> xrange_fuel fuel first (length seqlist) (nrow lay))
    = shown_records lay name_width num_width start stop first
        (drop first seqlist).
Proof.
  intros Hn. induction fuel as [|fuel IH]; intros first Hfuel;
    cbn [xrange_fuel].
  - by rewrite drop_ge by lia.
  - destruct (Nat.ltb_spec first (length seqlist)) as [Hlt | Hge].
    + cbn [fmap list_fmap concat]. rewrite IH by lia.
      transitivity
        (shown_records lay name_width num_width start stop first
           (take (nrow lay) (drop first seqlist)
            ++ drop (nrow lay) (drop first seqlist)));
        [|by rewrite take_drop].
      rewrite shown_records_app, drop_drop. unfold slice.
      destruct (Nat.le_gt_cases (first + nrow lay) (length seqlist)).
      * replace (Nat.min (first + nrow lay) (length seqlist) - first)
          with (nrow lay) by lia.
        rewrite length_take, length_drop.
        by replace (first + Nat.min (nrow lay) (length seqlist - first))
          with (first + nrow lay) by lia.
      * rewrite (drop_ge seqlist (first + nrow lay)) by lia.
        rewrite !app_nil_r. f_equal.
        rewrite !take_ge; [done | rewrite length_drop; lia
                          | rewrite length_drop; lia].
    + by rewrite drop_ge by lia.
Qed.

Lemma concat_singletons {A B} (g : A -> B) (l : list A) :
  concat ((fun x => [g x]) <$> l) = g <$> l.
Proof. induction l as [|x l IH]; cbn; [done | by rewrite IH]. Qed.

Lemma ceil_div_pos n step : 0 < n -> 0 < step -> 0 < ceil_div n step.
Proof.
  intros Hn Hs. unfold ceil_div. apply Nat.div_str_pos. lia.
Qed.

Lemma ceil_div_one n step : 0 < n -> n <= step -> ceil_div n step = 1.
Proof.
  intros Hn Hs. unfold ceil_div. symmetry.
  apply (Nat.div_unique _ _ _ (n - 1)); lia.
Qed.

End Shown.

(** [pagify] returns as soon as there is a record and neither [ncol] nor
    [nrow] is zero, and its pages are, block of columns by block of
    columns and block of rows by block of rows, the pages of
    [shown_page]. *)
Lemma pagify_shown seqlist vnumstrs lay s0 :
  head seqlist = Some s0 -> ncol lay <> 0%nat -> nrow lay <> 0%nat ->
  pagify seqlist vnumstrs lay
  = Ok (concat
          ((fun i =>
              (fun j =>
                 shown_page lay
                   (Nat.max (name_min lay)
                      (Nat.min
                         (max_list ((fun s => length (name s)) <$> seqlist))
                         (name_max lay)))
                   (length (repr_nat (length seqlist)))
                   seqlist vnumstrs (i * ncol lay)
                   (Nat.min (i * ncol lay + ncol lay) (length (seq_ s0)))
                   (j * nrow lay))
              <$> seq 0 (ceil_div (length seqlist) (nrow lay)))
           <$> seq 0 (ceil_div (length (seq_ s0)) (ncol lay)))).
Proof.
  intros Hhd Hc Hr. destruct seqlist as [|s0' rest] eqn:Es; [done|].
  injection Hhd as ->. rewrite <- Es.
  assert (Hok : exists out, pagify seqlist vnumstrs lay = Ok out).
  { rewrite Es, pagify_eq. unfold xrange at 1.
    destruct (Nat.eqb_spec (ncol lay) 0); [done|]. cbn [rbind].
    destruct (xrange_Ok (length (s0 :: rest)) (nrow lay) Hr) as [firsts Hf].
    rewrite (col_blocks_eq _ _ _ _ _ _ firsts _ Hf). eauto. }
  destruct Hok as [out Hout]. rewrite Hout.
  destruct (pagify_exact lay _ _ seqlist vnumstrs s0 rest out
              Es eq_refl eq_refl Hout) as [_ ->].
  rewrite (xrange_fuel_eq (ncol lay) (length (seq_ s0))) by lia.
  rewrite (xrange_fuel_eq (nrow lay) (length seqlist)) by lia.
  rewrite !Nat.sub_0_r, <- !list_fmap_compose. do 2 f_equal.
  apply list_fmap_ext. intros _ i _. unfold compose. cbn beta.
  rewrite <- list_fmap_compose.
  apply list_fmap_ext. intros _ j _. unfold compose. cbn beta.
  apply page_shown.
Qed.

(** C7: with 130 records and [nrow = 65] every block of columns consists
    of exactly two pages: the first is the line "sequences 1 to 65 of
    130", the number lines and the lines of the records 1 to 65, the
    second the line "sequences 66 to 130 of 130", the number lines and
    the lines of the records 66 to 130.  With 150 columns and [ncol = 70]
    the output is exactly three blocks of columns, none of them empty,
    whose pages show the columns 0-70, 70-140 and 140-150: in the lines
    of a record of 150 columns these are 70, 70 and 10 characters of
    sequence, the last padded with 60 blanks.  Every page begins with a
    status line when there are more than [nrow] records; otherwise the
    pages are the number lines and the lines of all the records, without
    a status line. *)
Theorem pagify_blocks seqlist vnumstrs lay s0 :
  head seqlist = Some s0 ->
  let name_width :=
    Nat.max (name_min lay)
      (Nat.min (max_list ((fun s => length (name s)) <$> seqlist))
         (name_max lay)) in
  let num_width := length (repr_nat (length seqlist)) in
  let colstop := length (seq_ s0) in
  let numbers := number_lines lay name_width num_width vnumstrs in
  let records := shown_records lay name_width num_width in
  (length seqlist = 130%nat -> nrow lay = 65%nat -> ncol lay <> 0%nat ->
   pagify seqlist vnumstrs lay
   = Ok (concat
           ((fun i =>
               let start := (i * ncol lay)%nat in
               let stop := Nat.min (start + ncol lay) colstop in
               [lit "sequences 1 to 65 of 130"
                :: numbers start stop
                ++ records start stop 0%nat (take 65 seqlist);
                lit "sequences 66 to 130 of 130"
                :: numbers start stop
                ++ records start stop 65%nat (drop 65 seqlist)])
            <$> seq 0 (ceil_div colstop (ncol lay)))))
  /\ (colstop = 150%nat -> ncol lay = 70%nat -> nrow lay <> 0%nat ->
      let rows start stop :=
        (fun j => shown_page lay name_width num_width seqlist vnumstrs
                    start stop (j * nrow lay))
        <$> seq 0 (ceil_div (length seqlist) (nrow lay)) in
      pagify seqlist vnumstrs lay
      = Ok (rows 0%nat 70%nat ++ rows 70%nat 140%nat ++ rows 140%nat 150%nat)
      /\ (0 < ceil_div (length seqlist) (nrow lay))%nat
      /\ forall s, s ∈ seqlist -> length (seq_ s) = 150%nat ->
           ljust 70 (slice 0 70 (seq_ s)) = take 70 (seq_ s)
           /\ length (take 70 (seq_ s)) = 70%nat
           /\ ljust 70 (slice 70 140 (seq_ s)) = take 70 (drop 70 (seq_ s))
           /\ length (take 70 (drop 70 (seq_ s))) = 70%nat
           /\ ljust 70 (slice 140 150 (seq_ s))
              = drop 140 (seq_ s) ++ replicate 60 " "%char
           /\ length (drop 140 (seq_ s)) = 10%nat)
  /\ (forall out, pagify seqlist vnumstrs lay = Ok out ->
        ((nrow lay < length seqlist)%nat ->
         Forall (fun pg => exists first last lines,
                   pg = status_line first last (length seqlist) :: lines)
           out)
        /\ ((length seqlist <= nrow lay)%nat ->
            out = (fun i =>
                     let start := (i * ncol lay)%nat in
                     let stop := Nat.min (start + ncol lay) colstop in
                     numbers start stop ++ records start stop 0%nat seqlist)
                  <$> seq 0 (ceil_div colstop (ncol lay)))).
Proof.
  intros Hhd name_width num_width colstop numbers records.
  split; [|split].
  - intros Hlen Hnrow Hncol.
    rewrite (pagify_shown seqlist vnumstrs lay s0 Hhd Hncol)
      by (rewrite Hnrow; discriminate).
    fold name_width num_width colstop. do 2 f_equal.
    apply list_fmap_ext. intros _ i _. cbv zeta.
    rewrite Hlen, Hnrow. change (ceil_div 130 65) with 2%nat.
    cbn [seq fmap list_fmap]. unfold shown_page. cbv zeta.
    rewrite Hlen, Hnrow. change (65 <? 130)%nat with true. cbv iota.
    change (0 * 65)%nat with 0%nat. change (1 * 65)%nat with 65%nat.
    change (Nat.min (0 + 65) 130) with 65%nat.
    change (Nat.min (65 + 65) 130) with 130%nat.
    assert (Hs2 : slice 65 130 seqlist = drop 65 seqlist).
    { unfold slice. apply take_ge. rewrite length_drop. lia. }
    rewrite Hs2. reflexivity.
  - intros Hcol Hncol Hnrow rows. subst colstop.
    rewrite (pagify_shown seqlist vnumstrs lay s0 Hhd) by (done || lia).
    fold name_width num_width. rewrite Hcol, Hncol.
    change (ceil_div 150 70) with 3%nat. cbn [seq fmap list_fmap concat].
    rewrite app_nil_r. split; [reflexivity|]. split.
    + apply ceil_div_pos; [|lia]. destruct seqlist; [done | cbn; lia].
    + intros s _ Hs. unfold ljust, slice.
      rewrite !length_take, !length_drop, Hs.
      change (70 - 0)%nat with 70%nat. change (140 - 70)%nat with 70%nat.
      change (150 - 140)%nat with 10%nat.
      change (70 - Nat.min 70 (150 - 0))%nat with 0%nat.
      change (70 - Nat.min 70 (150 - 70))%nat with 0%nat.
      change (70 - Nat.min 10 (150 - 140))%nat with 60%nat.
      change (Nat.min 70 150) with 70%nat.
      change (Nat.min 70 (150 - 70)) with 70%nat.
      cbn [replicate drop]. rewrite !app_nil_r.
      rewrite (take_ge (drop 140 (seq_ s))) by (rewrite length_drop; lia).
      done.
  - intros out Hout. split.
    + intros Hcmp.
      assert (Hpages : Forall (fun pg => exists start stop c first,
                pg = page lay name_width num_width seqlist vnumstrs
                       start stop c first) out).
      { destruct seqlist as [|s0' rest]; [done|].
        rewrite pagify_eq in Hout. fold name_width num_width in Hout.
        destruct (xrange (length (seq_ s0')) (ncol lay)) as [starts|e];
          [|done].
        by eapply col_blocks_pages. }
      eapply Forall_impl; [exact Hpages|].
      intros pg (start & stop & c & first & ->).
      rewrite page_with_status by done. eauto.
    + intros Hcmp.
      assert (Hpos : (0 < length seqlist)%nat)
        by (destruct seqlist; [done | cbn; lia]).
      assert (Hc : ncol lay <> 0%nat).
      { destruct seqlist as [|s0' rest] eqn:Es; [done|]. rewrite <- Es in *.
        destruct (pagify_exact lay _ _ seqlist vnumstrs s0' rest out
                    Es eq_refl eq_refl Hout) as [Hc _]. lia. }
      rewrite (pagify_shown seqlist vnumstrs lay s0 Hhd Hc) in Hout by lia.
      injection Hout as <-. fold name_width num_width colstop.
      rewrite (ceil_div_one (length seqlist) (nrow lay)) by done.
      cbn [seq fmap list_fmap].
      rewrite (concat_singletons
                 (fun i => shown_page lay name_width num_width seqlist
                             vnumstrs (i * ncol lay)
                             (Nat.min (i * ncol lay + ncol lay) colstop)
                             (0 * nrow lay))).
      apply list_fmap_ext. intros _ i _. cbv zeta. unfold shown_page.
      cbv zeta. cbn [Nat.mul Nat.add].
      replace (nrow lay <? length seqlist)%nat with false
        by (symmetry; apply Nat.ltb_ge; lia).
      rewrite (Nat.min_r (nrow lay) (length seqlist)) by lia. unfold slice.
      rewrite Nat.sub_0_r. cbn [drop app]. by rewrite take_ge.
Qed.

Lemma pagify_blocks_witness :
  pagify alignment_130x150 [replicate 150 "1"%char]
    (mkLayout 10 35 65 70 true true)
  = Ok (concat
          ((fun w =>
              [lit "sequences 1 to 65 of 130"
               :: (replicate 13 " "%char ++ lit "# " ++ replicate w "1"%char
                   ++ replicate (70 - w) " "%char)
               :: ((fun k => rjust 3 (repr_nat k) ++ replicate 8 " "%char
                             ++ lit "seq " ++ replicate w "A"%char
                             ++ replicate (70 - w) " "%char)
                   <$> seq 1 65);
               lit "sequences 66 to 130 of 130"
               :: (replicate 13 " "%char ++ lit "# " ++ replicate w "1"%char
                   ++ replicate (70 - w) " "%char)
               :: ((fun k => rjust 3 (repr_nat k) ++ replicate 8 " "%char
                             ++ lit "seq " ++ replicate w "A"%char
                             ++ replicate (70 - w) " "%char)
                   <$> seq 66 65)])
           <$> [70; 70; 10]%nat))
  /\ (exists b1 b2 b3,
        pagify alignment_130x150 [replicate 150 "1"%char]
          (mkLayout 10 35 65 70 true true) = Ok (b1 ++ b2 ++ b3)
        /\ length b1 = 2%nat /\ length b2 = 2%nat /\ length b3 = 2%nat)
  /\ (forall out,
        pagify alignment_130x150 [replicate 150 "1"%char]
          (mkLayout 10 35 65 70 true true) = Ok out ->
        Forall (fun pg => exists first last lines,
                  pg = status_line first last 130 :: lines) out).
Proof.
  destruct (pagify_blocks alignment_130x150 [replicate 150 "1"%char]
              (mkLayout 10 35 65 70 true true)
              (mkSeqobj (lit "seq") (replicate 150 "A"%char) false) eq_refl)
    as (W1 & W2 & W3).
  split; [|split].
  - etransitivity;
      [apply W1; [reflexivity | reflexivity | discriminate]|].
    vm_compute. reflexivity.
  - destruct W2 as (Hp & _ & _); [reflexivity | reflexivity | discriminate|].
    eexists _, _, _. split; [exact Hp|].
    split; [|split]; rewrite length_fmap, length_seq; reflexivity.
  - intros out Hout. destruct (W3 out Hout) as [Hstatus _].
    apply Hstatus. vm_compute. lia.
Defined.

(** ** C1: the mask, the records and the ruler *)

(** C1 (violated by the code): when [trim_to] is the only source of the
    mask, [reformat] applies the mask to the ruler but not to the
    records.  For the records "-AC" and "-AG" trimmed to the first one,
    the mask keeps one column and the ruler has one character, while
    every returned record still has three. *)
Theorem reformat_trim_only_misaligned :
  exists h' seqlist vnumstrs mask,
    reformat [0; 1]%nat trim_only_options trim_only_store
    = (h', Ok (seqlist, vnumstrs, mask))
    /\ mask = [false; false; true]
    /\ kept mask = 1%nat
    /\ vnumstrs = [lit "3"]
    /\ Forall (fun s => length s = 1%nat) vnumstrs
    /\ seqlist = [2; 3; 4]%nat
    /\ (seq_ <$> h' !! 2%nat) = Some (lit "-.C")
    /\ (seq_ <$> h' !! 3%nat) = Some (lit "-.G")
    /\ (seq_ <$> h' !! 4%nat) = Some (lit "XAX")
    /\ Forall (seq_length_at h' 3) seqlist.
Proof.
  eexists _, _, _, _. split; [by vm_compute|].
  do 3 (split; [reflexivity|]).
  split; [by repeat constructor|].
  do 4 (split; [reflexivity|]).
  unfold seq_length_at.
  repeat (apply List.Forall_cons; [eexists; split; reflexivity|]).
  apply List.Forall_nil.
Qed.

(** ** The column count through [reformat] *)

Lemma concat_zip_with_length {A B C} (f : A -> B -> list C) l1 l2 :
  (forall a b, length (f a b) = 1%nat) ->
  length (concat (zip_with f l1 l2)) = Nat.min (length l1) (length l2).
Proof.
  intros Hf. revert l2.
  induction l1 as [|a l1 IH]; intros [|b l2]; simpl; try done.
  by rewrite length_app, Hf, IH.
Qed.

Lemma seqdiff_length seq templateseq sim r :
  seqdiff seq templateseq sim = Ok r ->
  length r = Nat.min (length seq) (length templateseq).
Proof.
  destruct sim as [|c [|c' sim]]; unfold seqdiff; [| |done].
  - intros [= <-]. rewrite concat_zip_with_length.
    + unfold lower. by rewrite !length_fmap.
    + intros a b. by destruct (chr_eqb a b).
  - intros [= <-]. rewrite concat_zip_with_length.
    + unfold upper. by rewrite !length_fmap.
    + intros a b. by destruct (chr_eqb a b && negb (chr_eqb a gap_chr)).
Qed.

Lemma apply_mask_length (mask : list bool) (s : str) :
  length s = length mask -> length (apply_mask mask s) = kept mask.
Proof.
  unfold apply_mask, kept. rewrite length_fmap.
  revert s. induction mask as [|m mask IH]; intros [|c s] Hlen;
    simpl in Hlen; try done.
  cbn [zip zip_with]. rewrite !filter_cons. simpl.
  destruct m; simpl; rewrite IH by lia; done.
Qed.

Lemma kept_all_true {A} (l : list A) :
  kept ((fun _ => true) <$> l) = length l.
Proof.
  unfold kept. induction l as [|x l IH]; [done|].
  rewrite fmap_cons, filter_cons_True by done. simpl. by rewrite IH.
Qed.

Lemma seq_length_at_lt h n r : seq_length_at h n r -> (r < length h)%nat.
Proof. intros (o & Ho & _). by eapply lookup_lt_Some. Qed.

Lemma seq_length_at_alloc h n r o :
  seq_length_at h n r -> seq_length_at (h ++ [o]) n r.
Proof.
  intros (o' & Ho & Hlen). exists o'. split; [|done].
  by apply lookup_app_l_Some.
Qed.

Lemma seq_length_at_new h n o :
  length (seq_ o) = n -> seq_length_at (h ++ [o]) n (length h).
Proof.
  intros Hlen. exists o. split; [|done]. by rewrite list_lookup_middle.
Qed.

Lemma seq_length_at_write_ne h n r r' o :
  r <> r' -> seq_length_at h n r' -> seq_length_at (<[r := o]> h) n r'.
Proof.
  intros Hne (o' & Ho & Hlen). exists o'. split; [|done].
  by rewrite list_lookup_insert_ne.
Qed.

Lemma seq_length_at_write_eq h n r o o' :
  h !! r = Some o' -> length (seq_ o) = n ->
  seq_length_at (<[r := o]> h) n r.
Proof.
  intros Hr Hlen. exists o. split; [|done].
  apply list_lookup_insert_eq. by eapply lookup_lt_Some.
Qed.

(** Objects of one length can be read off as a list. *)
Lemma seq_length_at_objs h n (sl : list ref) :
  Forall (seq_length_at h n) sl ->
  exists objs, Forall2 (fun r o => h !! r = Some o) sl objs /\
               Forall (fun o => length (seq_ o) = n) objs.
Proof.
  induction 1 as [|r sl (o & Ho & Hlen) _ (objs & Hobjs & Hall)].
  - exists []. split; constructor.
  - exists (o :: objs). split; by constructor.
Qed.

Lemma max_list_const (n : nat) (l : list nat) :
  l <> [] -> Forall (fun x => x = n) l -> max_list l = n.
Proof.
  intros Hne Hall. destruct Hall as [|x l -> Hall]; [done|]. simpl.
  clear Hne. induction Hall as [|y l -> _ IH]; simpl; lia.
Qed.

Lemma tabulate_strs_length (strs : list str) :
  strs <> [] ->
  exists t, tabulate_strs strs = Ok t /\
            length t = max_list (length <$> strs).
Proof.
  intros Hne. destruct strs as [|s strs]; [done|]. unfold tabulate_strs.
  set (n := max_list (length <$> s :: strs)).
  destruct (tabulate_fold n (s :: strs) (replicate n ∅) (fun _ _ => 0))
    as [Hlen _].
  - by rewrite length_replicate.
  - intros s' Hs'. unfold n. apply max_list_elem_of_le.
    apply list_elem_of_fmap. eauto.
  - done.
  - intros i d [-> _]%lookup_replicate c. by rewrite lookup_empty.
  - eauto.
Qed.

Lemma tabulate_run (seqList : list ref) (objs : list Seqobj) (h : heap) :
  Forall2 (fun r o => h !! r = Some o) seqList objs ->
  tabulate seqList h = (h, tabulate_strs (seq_ <$> objs)).
Proof.
  intros Hall. unfold tabulate, bind. by rewrite (mapM_get_seq _ _ _ Hall).
Qed.

Lemma tabulate_aligned h n (sl : list ref) :
  Forall (seq_length_at h n) sl ->
  (sl = [] /\ tabulate sl h = (h, Raise ValueError)) \/
  (sl <> [] /\ exists t, tabulate sl h = (h, Ok t) /\ length t = n).
Proof.
  intros Hall. destruct (seq_length_at_objs h n sl Hall) as (objs & H2 & Hn).
  rewrite (tabulate_run sl objs h H2).
  destruct sl as [|r sl]; [left | right].
  - apply Forall2_nil_inv_l in H2 as ->. done.
  - split; [done|].
    destruct objs as [|o objs]; [by apply Forall2_cons_nil_inv in H2|].
    destruct (tabulate_strs_length (seq_ <$> o :: objs))
      as (t & -> & Hlen); [done|].
    exists t. split; [done|]. rewrite Hlen.
    apply max_list_const; [done|].
    apply Forall_fmap, Forall_fmap. eapply Forall_impl; [exact Hn|]. done.
Qed.

Section Aligned.
(** The number of columns of the input alignment. *)
Variable L : nat.

Local Abbreviation aligned := (aligned_at L).

Lemma aligned_write sl r f :
  (forall o, length (seq_ o) = L -> length (seq_ (f o)) = L) ->
  hoare (aligned sl) (write r f) (fun _ => aligned sl) any_failure.
Proof.
  intros Hf. apply hoare_write. intros h [Hnd Hall].
  destruct (h !! r) as [o|] eqn:Hr; [|done].
  split; [done|]. rewrite Forall_forall in Hall |- *. intros r' Hr'.
  destruct (decide (r = r')) as [<-|Hne].
  - eapply seq_length_at_write_eq; [done|]. apply Hf.
    destruct (Hall r Hr') as (o' & Ho' & Hlen). congruence.
  - apply seq_length_at_write_ne; [done | by apply Hall].
Qed.

Lemma aligned_alloc sl h o :
  aligned sl h -> length (seq_ o) = L ->
  aligned (length h :: sl) (h ++ [o]) /\ aligned (sl ++ [length h]) (h ++ [o]).
Proof.
  intros [Hnd Hall] Hlen.
  assert (Hfresh : length h ∉ sl).
  { intros Hin. rewrite Forall_forall in Hall.
    apply Hall, seq_length_at_lt in Hin. lia. }
  assert (Hall' : Forall (seq_length_at (h ++ [o]) L) sl).
  { eapply Forall_impl; [exact Hall|]. intros r. apply seq_length_at_alloc. }
  pose proof (seq_length_at_new h L o Hlen) as Hnew.
  split; split.
  - by constructor.
  - by constructor.
  - apply NoDup_app. split; [done|]. split; [|apply NoDup_singleton].
    intros r Hr ->%list_elem_of_singleton. done.
  - apply Forall_app. split; [done | by constructor].
Qed.

Lemma aligned_copy seqs :
  hoare (fun h => Forall (seq_length_at h L) seqs)
    (mapM (fun s => do n <- get_name s ; do q <- get_seq s ;
                    new_Seqobj n q) seqs)
    (fun sl h => aligned sl h) any_failure.
Proof.
  eapply hoare_conseq.
  - apply (hoare_mapM _ seqs
             (fun ys h => Forall (seq_length_at h L) seqs /\ aligned ys h)
             any_failure).
    intros x ys Hx.
    eapply (hoare_bind _ _ _
              (fun _ h => Forall (seq_length_at h L) seqs /\ aligned ys h)).
    { apply hoare_readonly_gen; [apply readonly_get_name | done | done]. }
    intros n. cbn beta.
    eapply (hoare_bind _ _ _
              (fun q h => (Forall (seq_length_at h L) seqs /\ aligned ys h)
                          /\ length q = L)).
    { apply hoare_get_seq. intros h [Hin Hal].
      destruct (proj1 (Forall_forall _ _) Hin x Hx) as (o & -> & Hlen).
      done. }
    intros q. apply hoare_pre_r. intros Hq.
    apply hoare_new. intros h [Hin Hal]. split.
    + eapply Forall_impl; [exact Hin|]. intros r. apply seq_length_at_alloc.
    + by apply (aligned_alloc ys h (mkSeqobj n q false)).
  - intros h Hh. split; [done|]. split; constructor.
  - by intros sl h [[_ Hal] _].
  - done.
Qed.

Lemma aligned_tabulate sl :
  hoare (aligned sl) (tabulate sl)
    (fun t h => aligned sl h /\ (sl <> [] /\ length t = L)) any_failure.
Proof.
  intros h [Hnd Hall].
  destruct (tabulate_aligned h L sl Hall)
    as [[-> ->] | (Hne & t & -> & Hlen)]; done.
Qed.

Lemma aligned_compare_body sl cname cstr sim r :
  r ∈ sl -> length cstr = L ->
  hoare (aligned sl) (compare_body cname cstr sim r)
    (fun _ => aligned sl) any_failure.
Proof.
  intros Hr Hc. unfold compare_body.
  eapply (hoare_bind _ _ _ (fun _ => aligned sl)).
  { apply hoare_readonly_gen; [apply readonly_get_name | done | done]. }
  intros n. cbn beta. case_bool_decide.
  - eapply hoare_bind; [by apply aligned_write|]. intros ?.
    by apply aligned_write.
  - eapply (hoare_bind _ _ _ (fun s h => aligned sl h /\ length s = L)).
    { apply hoare_get_seq. intros h [Hnd Hall].
      destruct (proj1 (Forall_forall _ _) Hall r Hr) as (o & -> & Hlen).
      done. }
    intros s. apply hoare_pre_r. intros Hs.
    eapply (hoare_bind _ _ _ (fun d h => aligned sl h /\ length d = L)).
    { apply hoare_lift. intros h Hh.
      destruct (seqdiff s cstr sim) as [d|e] eqn:Ed; [|done].
      split; [done|]. apply seqdiff_length in Ed. lia. }
    intros d. apply hoare_pre_r. intros Hd. by apply aligned_write.
Qed.

Lemma aligned_select sel sl :
  hoare (aligned sl) (select sel sl)
    (fun r h => aligned sl h /\ r ∈ sl) any_failure.
Proof.
  intros h Hh. destruct (select sel sl h) as [h' [r|e]] eqn:E; [|done].
  by destruct (select_ok _ _ _ _ _ E) as (-> & Hin & _).
Qed.

Lemma aligned_get_seq sl r :
  r ∈ sl ->
  hoare (aligned sl) (get_seq r)
    (fun q h => aligned sl h /\ length q = L) any_failure.
Proof.
  intros Hr. apply hoare_get_seq. intros h [Hnd Hall].
  by destruct (proj1 (Forall_forall _ _) Hall r Hr) as (o & -> & Hlen).
Qed.

Lemma aligned_prepare seqs o :
  hoare (fun h => Forall (seq_length_at h L) seqs)
    (reformat_prepare seqs o)
    (fun p h => aligned p.1.1.1 h /\
                (p.1.1.1 <> [] /\ length p.1.1.2 = L /\ length p.1.2 = L))
    any_failure.
Proof.
  unfold reformat_prepare.
  eapply hoare_bind; [apply aligned_copy|]. intros sl0. cbn beta zeta.
  eapply hoare_bind; [apply aligned_tabulate|]. intros t. cbn beta.
  apply hoare_pre_r. intros [Hne Ht].
  eapply (hoare_bind _ _ _ (fun cs h => aligned sl0 h /\ length cs = L)).
  { apply hoare_lift. intros h Hh.
    destruct (rmap _ t) as [cs|e] eqn:Ecs; [|done].
    split; [done|]. apply rmap_length in Ecs. lia. }
  intros cs. apply hoare_pre_r. intros Hcs.
  assert (Hup : length (upper cs) = L)
    by (unfold upper; by rewrite length_fmap).
  eapply (hoare_bind _ _ _ (fun sl h => aligned sl h /\ sl <> [])).
  { destruct (add_consensus o).
    - eapply (hoare_bind _ _ _
                (fun r h => aligned (r :: sl0) h /\ aligned (sl0 ++ [r]) h)).
      + apply hoare_new. intros h Hh. by apply aligned_alloc.
      + intros r. destruct (reference_top o); apply hoare_ret; intros h [H1 H2].
        * done.
        * split; [done|]. by destruct sl0.
    - apply hoare_ret. by intros h Hh. }
  intros sl. apply hoare_pre_r. intros Hsl.
  eapply (hoare_bind _ _ _ (fun _ => aligned sl)).
  { destruct (compare o); [|by apply hoare_ret].
    eapply (hoare_bind _ _ _ (fun p h => aligned sl h /\ length p.2 = L)).
    - destruct (compare_to o) as [sel|]; [|by apply hoare_ret].
      eapply hoare_bind; [apply aligned_select|]. intros s.
      apply hoare_pre_r. intros Hs.
      eapply (hoare_bind _ _ _ (fun _ => aligned sl)).
      { apply hoare_readonly_gen; [apply readonly_get_name | done | done]. }
      intros n. cbn beta.
      eapply hoare_bind; [by apply aligned_get_seq|]. intros q.
      by apply hoare_ret.
    - intros p. apply hoare_pre_r. intros Hp.
      apply (hoare_for_each _ sl (fun _ _ => aligned sl)).
      intros seen x todo Heq. apply aligned_compare_body; [|done].
      rewrite Heq. apply elem_of_app. right. left. }
  intros ?. apply hoare_ret. by intros h Hh.
Qed.
End Aligned.

(** With the default [ignore_gaps] every column is numbered, the check
    of [numchars] passes, and each ruler string spans the columns. *)
Lemma get_vnumbers_numbered (seqstr : str) (leadingZeros : bool) :
  exists nums,
    get_vnumbers seqstr true leadingZeros = Ok nums /\
    Forall (fun s => length s = length seqstr) nums.
Proof.
  unfold get_vnumbers.
  set (N := length seqstr). set (digs := length (repr_nat (N + 1))).
  set (fmt := fun i : nat => if leadingZeros then zfill digs (repr_nat i)
                            else rjust digs (repr_nat i)).
  rewrite (numchars_loop_all fmt _ true 1%nat seqstr) by (by left). fold N.
  rewrite bool_decide_eq_true_2 by done. rewrite andb_false_r.
  assert (Hrows : Forall (fun x => length x = digs) (fmt <$> seq 1 N)).
  { apply Forall_fmap, Forall_forall. intros k [Hk1 Hk2]%elem_of_seq. simpl.
    assert (length (repr_nat k) <= digs)%nat
      by (apply repr_nat_length_mono; lia).
    unfold fmt, zfill, rjust.
    destruct leadingZeros; rewrite length_app, length_replicate; lia. }
  destruct (transpose_ok _ _ Hrows) as (cols & Hcols & Ht).
  exists cols. split; [done|].
  apply Forall_forall. intros s [n Hs]%list_elem_of_lookup.
  destruct (Forall2_lookup_r _ _ _ _ _ Ht Hs) as (n' & _ & Hcol).
  apply Forall2_length in Hcol.
  by rewrite length_fmap, length_seq in Hcol.
Qed.

Section Masked.
Variable L : nat.

Local Abbreviation aligned := (aligned_at L).

(** The composed mask has one entry per column; without a range, a trim
    and the two exclusions it keeps every column. *)
Lemma aligned_mask sl tabulated nseqs o :
  sl <> [] -> length tabulated = L ->
  hoare (aligned sl) (reformat_mask sl tabulated nseqs o)
    (fun mask h =>
       aligned sl h /\
       (length mask = L /\
        (seqrange o = None -> truthy (trim_to o) = false ->
         exclude_gapcols o = false -> exclude_invariant o = false ->
         kept mask = L)))
    any_failure.
Proof.
  intros Hne Ht. unfold reformat_mask.
  destruct sl as [|r0 sl']; [done|]. set (sl := r0 :: sl') in *.
  eapply hoare_bind; [apply aligned_get_seq; left|].
  intros first. apply hoare_pre_r. intros Hfirst. cbn zeta. rewrite Hfirst.
  eapply (hoare_bind _ _ _
            (fun mask h => aligned sl h /\
               (length mask = L /\
                (seqrange o = None -> truthy (trim_to o) = false ->
                 mask = (fun _ => true) <$> seq 0 L)))).
  { destruct (seqrange o) as [[start stop]|].
    - apply hoare_ret. intros h Hh. split; [done|].
      by rewrite length_fmap, length_seq.
    - destruct (truthy (trim_to o)).
      + eapply (hoare_bind _ _ _ (fun _ => aligned sl)).
        { apply hoare_readonly_gen; [apply readonly_select | done | done]. }
        intros s. cbn beta.
        eapply (hoare_bind _ _ _ (fun _ => aligned sl)).
        { apply hoare_readonly_gen; [apply readonly_get_seq | done | done]. }
        intros q. cbn beta.
        eapply (hoare_bind _ _ _ (fun _ => aligned sl)).
        { apply hoare_readonly_gen; [apply readonly_lift | done | done]. }
        intros ext. apply hoare_ret. intros h Hh. split; [done|].
        by rewrite length_fmap, length_seq.
      + apply hoare_ret. intros h Hh. split; [done|].
        by rewrite length_fmap, length_seq. }
  intros mask0. apply hoare_pre_r. intros [Hlen0 Hall0].
  set (mask1 := if exclude_gapcols o then _ else mask0).
  assert (Hlen1 : length mask1 = L).
  { unfold mask1. destruct (exclude_gapcols o); [|done].
    rewrite length_zip_with, length_fmap. lia. }
  assert (Hall1 : seqrange o = None -> truthy (trim_to o) = false ->
                  exclude_gapcols o = false -> kept mask1 = L).
  { intros Hr Htr Hg. unfold mask1. rewrite Hg, (Hall0 Hr Htr).
    by rewrite kept_all_true, length_seq. }
  destruct (exclude_invariant o).
  - eapply (hoare_bind _ _ _
              (fun subs h => aligned sl h /\ length subs = L)).
    { apply hoare_lift. intros h Hh.
      destruct (rmap _ tabulated) as [subs|e] eqn:Es; [|done].
      split; [done|]. apply rmap_length in Es. lia. }
    intros subs. apply hoare_pre_r. intros Hsubs.
    apply hoare_ret. intros h Hh. split; [done|]. split; [|done].
    rewrite length_zip_with, length_fmap. lia.
  - apply hoare_ret. intros h Hh. split; [done|]. split; [done|].
    intros Hr Htr Hg _. by apply Hall1.
Qed.

(** The loop that masks the records. *)
Lemma aligned_apply_mask sl mask :
  length mask = L ->
  hoare (aligned sl)
    (for_each (fun r => do s <- get_seq r ; set_seq r (apply_mask mask s)) sl)
    (fun _ h => Forall (seq_length_at h (kept mask)) sl) any_failure.
Proof.
  intros Hmask.
  eapply hoare_conseq.
  - apply (hoare_for_each _ sl
             (fun seen todo h =>
                NoDup sl /\ Forall (seq_length_at h (kept mask)) seen /\
                Forall (seq_length_at h L) todo) any_failure).
    intros seen x todo Heq.
    eapply (hoare_bind _ _ _
              (fun s h => (NoDup sl /\
                           Forall (seq_length_at h (kept mask)) seen /\
                           Forall (seq_length_at h L) (x :: todo))
                          /\ length s = L)).
    { apply hoare_get_seq. intros h (Hnd & Hseen & Htodo).
      pose proof (Forall_inv Htodo) as (o & Ho & Hlen). rewrite Ho. done. }
    intros s. apply hoare_pre_r. intros Hs.
    apply hoare_write. intros h (Hnd & Hseen & Htodo).
    pose proof (Forall_inv Htodo) as (o & Ho & Hlen). rewrite Ho.
    pose proof Hnd as Hnd'. rewrite Heq in Hnd'.
    apply NoDup_app in Hnd' as (_ & Hsx & [Hxt _]%NoDup_cons).
    split; [exact Hnd|]. split.
    + apply Forall_app. split.
      * rewrite Forall_forall in Hseen |- *. intros r Hr.
        apply seq_length_at_write_ne; [|by apply Hseen].
        intros <-. apply (Hsx x Hr). left.
      * constructor; [|done].
        eapply seq_length_at_write_eq; [done|]. simpl.
        apply apply_mask_length. lia.
    + apply Forall_inv_tail in Htodo.
      rewrite Forall_forall in Htodo |- *. intros r Hr.
      apply seq_length_at_write_ne; [|by apply Htodo].
      by intros <-.
  - intros h [Hnd Hall]. split; [done|]. split; [constructor | done].
  - by intros _ h (_ & Hall & _).
  - done.
Qed.

Lemma aligned_reformat seqs o :
  truthy (trim_to o) = false \/
  given (seqrange o) || exclude_invariant o || exclude_gapcols o = true ->
  hoare (fun h => Forall (seq_length_at h L) seqs) (reformat seqs o)
    (fun res h =>
       Forall (seq_length_at h (kept res.2)) res.1.1 /\
       Forall (fun s => length s = kept res.2) res.1.2 /\
       length res.2 = L)
    any_failure.
Proof.
  intros Hguard. unfold reformat.
  eapply hoare_bind; [apply aligned_prepare|].
  intros [[[sl tabulated] consensus_str] nseqs]. cbn [fst snd].
  apply hoare_pre_r. intros (Hne & Ht & Hcs).
  eapply hoare_bind; [by apply aligned_mask|].
  intros mask. apply hoare_pre_r. intros [Hmask Hkeep]. cbn zeta.
  destruct (get_vnumbers_numbered consensus_str true)
    as (nums & Hnums & Hnlen).
  rewrite Hnums.
  eapply (hoare_bind _ _ _ (fun nums' h => aligned sl h /\ nums' = nums)).
  { apply hoare_lift. by intros h Hh. }
  intros nums'. apply hoare_pre_r. intros ->.
  eapply (hoare_bind _ _ _
            (fun _ h => Forall (seq_length_at h (kept mask)) sl)).
  - destruct (given (seqrange o) || exclude_invariant o || exclude_gapcols o)
      eqn:G.
    + by apply aligned_apply_mask.
    + apply hoare_ret. intros h [_ Hall].
      destruct Hguard as [Htrim | ?]; [|done].
      apply orb_false_iff in G as [[Hr Hi]%orb_false_iff Hg].
      rewrite Hkeep; [done | by destruct (seqrange o) | done | done | done].
  - intros ?. apply hoare_ret. intros h Hall. cbn [fst snd].
    split; [done|]. split; [|done].
    apply Forall_fmap. eapply Forall_impl; [exact Hnlen|].
    intros s Hs. cbn beta in *. apply apply_mask_length. lia.
Qed.
End Masked.

(** X18: the property of C1 holds for every alignment (records of one length
    [L]) in every configuration but the one of the failing input above:
    when [reformat] returns and either a range or one of the two
    exclusions is requested or no trim is, every returned record and
    every ruler string has as many characters as the mask has true
    entries, and the mask has one entry per column. *)
Theorem reformat_mask_applied seqs o h h' seqlist vnumstrs mask L :
  Forall (seq_length_at h L) seqs ->
  truthy (trim_to o) = false \/
  given (seqrange o) || exclude_invariant o || exclude_gapcols o = true ->
  reformat seqs o h = (h', Ok (seqlist, vnumstrs, mask)) ->
  Forall (seq_length_at h' (kept mask)) seqlist /\
  Forall (fun s => length s = kept mask) vnumstrs /\
  length mask = L.
Proof.
  intros Hin Hguard Hrun.
  pose proof (aligned_reformat L seqs o Hguard h Hin) as H.
  rewrite Hrun in H. exact H.
Qed.

Lemma reformat_mask_applied_example :
  exists h' seqlist vnumstrs mask,
    reformat [0; 1]%nat default_options gap_record_store
    = (h', Ok (seqlist, vnumstrs, mask)) /\
    Forall (seq_length_at h' (kept mask)) seqlist /\
    Forall (fun s => length s = kept mask) vnumstrs /\
    length mask = 4%nat.
Proof.
  eexists _, _, _, _. split; [by vm_compute|].
  eapply (reformat_mask_applied [0; 1]%nat default_options gap_record_store).
  - unfold seq_length_at.
    repeat (apply List.Forall_cons; [eexists; split; reflexivity|]).
    apply List.Forall_nil.
  - by right.
  - by vm_compute.
Defined.

(** * Further properties of the module *)

(** ** Substitution counts and failures of [consensus] *)

Lemma foldl_add_foldr (a : Z) (l : list Z) :
  foldl Z.add a l = a + foldr Z.add 0 l.
Proof.
  revert a. induction l as [|x l IH]; intros a; simpl; [lia|].
  rewrite IH. lia.
Qed.

Lemma foldr_add_perm (l l' : list Z) :
  l ≡ₚ l' -> foldr Z.add 0 l = foldr Z.add 0 l'.
Proof. induction 1; simpl; lia. Qed.

(** The counts in descending order start with the first and the second
    rank. *)
Lemma ranked_values (d : gmap ascii Z) k1 k2 m s :
  top_two d k1 k2 m s ->
  exists rest, reverse (merge_sort Z.le (map_to_list d).*2) = m :: s :: rest.
Proof.
  intros (Hne & Hk1 & Hk2 & Hmax & Hsnd).
  pose proof (map_to_list_delete d k1 m Hk1) as Hperm.
  assert (Hk2' : delete k1 d !! k2 = Some s) by (by rewrite lookup_delete_ne).
  set (vs := (map_to_list d).*2).
  assert (Hvs : vs ≡ₚ m :: (map_to_list (delete k1 d)).*2).
  { unfold vs. by rewrite <- Hperm. }
  assert (Hlen : (2 <= length vs)%nat).
  { rewrite Hvs. simpl. apply elem_of_map_to_list in Hk2'.
    destruct (map_to_list (delete k1 d)); [by apply elem_of_nil in Hk2'|].
    simpl. lia. }
  destruct (reverse (merge_sort Z.le vs)) as [|a [|b rest]] eqn:Hrev;
    try (apply (f_equal length) in Hrev;
         rewrite length_reverse, merge_sort_Permutation in Hrev;
         simpl in Hrev; lia).
  destruct (sorted_desc_top vs a b rest Hrev) as (Hp & Htop & Hnext).
  assert (Ha : a = m).
  { assert (Hin : a ∈ vs) by (rewrite <- Hp; left).
    apply values_elem in Hin as [k Hk]. pose proof (Hmax k a Hk).
    assert (Hm : m ∈ a :: b :: rest) by (rewrite Hp, Hvs; left).
    apply elem_of_cons in Hm as [-> | Hm]; [done|].
    pose proof (Htop m Hm). lia. }
  subst a.
  assert (Hp' : b :: rest ≡ₚ (map_to_list (delete k1 d)).*2).
  { apply (Permutation_cons_inv (a := m)). by rewrite Hp, Hvs. }
  assert (Hb : b = s).
  { assert (Hin : b ∈ (map_to_list (delete k1 d)).*2)
      by (rewrite <- Hp'; left).
    apply values_elem in Hin as [k Hk].
    apply lookup_delete_Some in Hk as [Hkne Hk].
    pose proof (Hsnd k b (not_eq_sym Hkne) Hk).
    assert (Hs : s ∈ b :: rest).
    { rewrite Hp'. apply values_elem. eauto. }
    apply elem_of_cons in Hs as [-> | Hs]; [done|].
    pose proof (Hnext s Hs). lia. }
  subst b. eauto.
Qed.

Lemma top_two_size (d : gmap ascii Z) k1 k2 m s :
  top_two d k1 k2 m s -> (2 <= size d)%nat.
Proof.
  intros Htop. destruct (ranked_values d k1 k2 m s Htop) as [rest Hrev].
  apply (f_equal length) in Hrev.
  rewrite length_reverse, merge_sort_Permutation, length_fmap,
    length_map_to_list in Hrev.
  simpl in Hrev. lia.
Qed.

Lemma table_total_delete (d : gmap ascii Z) k m :
  d !! k = Some m -> table_total d = m + table_total (delete k d).
Proof.
  intros Hk. unfold table_total.
  rewrite <- (foldr_add_perm _ _
                (fmap_Permutation snd _ _ (map_to_list_delete d k m Hk))).
  done.
Qed.

Lemma count_subs_ranked d countGaps gap k1 k2 m s :
  top_two (drop_gap countGaps gap d) k1 k2 m s ->
  count_subs d countGaps gap
  = Ok (table_total (delete k1 (drop_gap countGaps gap d))).
Proof.
  intros Htop. unfold count_subs.
  set (d' := drop_gap countGaps gap d) in *.
  pose proof (top_two_size d' k1 k2 m s Htop) as Hsize.
  replace (size d' <=? 1)%nat with false by (symmetry; apply Nat.leb_gt; lia).
  destruct (ranked_values d' k1 k2 m s Htop) as [rest Hrev].
  assert (Hsort : merge_sort Z.le (map_to_list d').*2
                  = (reverse rest ++ [s]) ++ [m]).
  { rewrite <- (reverse_involutive (merge_sort Z.le _)), Hrev.
    by rewrite !reverse_cons. }
  assert (Hlast : last (merge_sort Z.le (map_to_list d').*2) = Some m)
    by (by rewrite Hsort, last_snoc).
  cbv zeta. rewrite Hlast. f_equal.
  rewrite foldl_add_foldr, (foldr_add_perm _ _ (merge_sort_Permutation _ _)).
  destruct Htop as (_ & Hk1 & _).
  pose proof (table_total_delete d' k1 m Hk1) as Ht.
  unfold table_total in Ht. rewrite Ht. unfold table_total. lia.
Qed.

Lemma table_total_pos (d : gmap ascii Z) :
  (forall k v, d !! k = Some v -> 0 < v) -> d <> ∅ -> 0 < table_total d.
Proof.
  intros Hpos Hne. unfold table_total.
  assert (Hall : Forall (fun v => 0 < v) (map_to_list d).*2).
  { apply Forall_forall. intros v [k Hk]%values_elem. by eapply Hpos. }
  assert (Hl : (map_to_list d).*2 <> []).
  { intros Hnil. apply fmap_nil_inv in Hnil.
    by apply map_to_list_empty_iff in Hnil. }
  destruct Hall as [|v l Hv Hall]; [done|]. simpl.
  assert (0 <= foldr Z.add 0 l); [|lia].
  clear -Hall. induction Hall; simpl; lia.
Qed.

(** X1: [count_subs] never raises; it is 0 when at most one character
    remains after the optional gap exclusion and otherwise the total of
    the remaining counts minus the count of a most frequent character;
    with positive counts, as [tabulate] produces them, it is positive as
    soon as two characters remain. *)
Theorem count_subs_minority d countGaps gap :
  (exists n, count_subs d countGaps gap = Ok n)
  /\ ((size (drop_gap countGaps gap d) <= 1)%nat ->
      count_subs d countGaps gap = Ok 0)
  /\ (forall k1 k2 m s,
        top_two (drop_gap countGaps gap d) k1 k2 m s ->
        count_subs d countGaps gap
        = Ok (table_total (drop_gap countGaps gap d) - m))
  /\ ((forall k v, drop_gap countGaps gap d !! k = Some v -> 0 < v) ->
      (2 <= size (drop_gap countGaps gap d))%nat ->
      exists n, count_subs d countGaps gap = Ok n /\ 0 < n).
Proof.
  set (d' := drop_gap countGaps gap d).
  assert (Hsmall : (size d' <= 1)%nat -> count_subs d countGaps gap = Ok 0).
  { intros Hle. unfold count_subs. fold d'.
    by replace (size d' <=? 1)%nat with true
      by (symmetry; apply Nat.leb_le; lia). }
  assert (Hrank : forall k1 k2 m s, top_two d' k1 k2 m s ->
            count_subs d countGaps gap = Ok (table_total d' - m)).
  { intros k1 k2 m s Htop. rewrite (count_subs_ranked _ _ _ _ _ _ _ Htop).
    fold d'. destruct Htop as (_ & Hk1 & _).
    rewrite (table_total_delete d' k1 m Hk1). f_equal. lia. }
  split; [|split; [done | split; [done|]]].
  - destruct (decide (size d' <= 1)%nat) as [Hle | Hgt].
    + rewrite Hsmall by done. eauto.
    + destruct (top_two_exists d') as (k1 & k2 & m & s & Htop); [lia|].
      rewrite (Hrank _ _ _ _ Htop). eauto.
  - intros Hpos Hsize.
    destruct (top_two_exists d' Hsize) as (k1 & k2 & m & s & Htop).
    rewrite (count_subs_ranked _ _ _ _ _ _ _ Htop). fold d'.
    eexists. split; [done|]. destruct Htop as (Hne & Hk1 & Hk2 & _).
    apply table_total_pos.
    + intros k v [_ Hk]%lookup_delete_Some. by eapply Hpos.
    + intros Hempty.
      assert (Hk : delete k1 d' !! k2 = Some s) by (by rewrite lookup_delete_ne).
      by rewrite Hempty, lookup_empty in Hk.
Qed.

Lemma count_subs_minority_witness :
  count_subs {[ "A"%char := 3; gap_chr := 4 ]} false gap_chr = Ok 0
  /\ count_subs table_A5_G3 false gap_chr
     = Ok (table_total (drop_gap false gap_chr table_A5_G3) - 5)
  /\ (exists n, count_subs table_A5_G3 false gap_chr = Ok n /\ 0 < n).
Proof.
  destruct (count_subs_minority {[ "A"%char := 3; gap_chr := 4 ]} false
              gap_chr) as (_ & W1 & _).
  destruct (count_subs_minority table_A5_G3 false gap_chr)
    as (_ & _ & W2 & W3).
  split; [|split].
  - apply W1. vm_compute. lia.
  - apply (W2 "A"%char "G"%char 5 3). repeat split; try done.
    + intros k v Hk. table_cases Hk; lia.
    + intros k v Hne Hk. table_cases Hk; (lia || done).
  - apply W3; [|vm_compute; lia].
    intros k v Hk. table_cases Hk; lia.
Defined.

Lemma consensus_single d countGaps plu gap errorchar :
  size (drop_gap countGaps gap d) = 1%nat ->
  exists k, is_Some (drop_gap countGaps gap d !! k) /\
            consensus d countGaps plu gap errorchar = Ok k.
Proof.
  intros Hsize. unfold consensus. rewrite Hsize. simpl. rewrite andb_false_r.
  pose proof (length_map_to_list (drop_gap countGaps gap d)) as Hlen.
  rewrite Hsize in Hlen.
  destruct (map_to_list (drop_gap countGaps gap d)) as [|[k v] l] eqn:E;
    [done|].
  exists k. split; [|done]. exists v. apply elem_of_map_to_list.
  rewrite E. left.
Qed.

(** X2: [consensus] raises only for an empty table with gaps counted,
    and then [ValueError]; whenever it returns, the result is the error
    marker or a character of the table that remains after the optional
    gap exclusion. *)
Theorem consensus_failure d countGaps plu gap errorchar :
  (forall e, consensus d countGaps plu gap errorchar = Raise e <->
             countGaps = true /\ d = ∅ /\ e = ValueError)
  /\ (forall c, consensus d countGaps plu gap errorchar = Ok c ->
                c = errorchar \/ is_Some (drop_gap countGaps gap d !! c)).
Proof.
  set (d' := drop_gap countGaps gap d).
  destruct (decide (size d' = 0%nat)) as [H0 | Hn0].
  - apply map_size_empty_iff in H0. destruct countGaps.
    + unfold d', drop_gap in H0. subst d. split.
      * intros e. split; [by intros [= <-] | by intros (_ & _ & ->)].
      * done.
    + assert (Heq : consensus d false plu gap errorchar = Ok errorchar).
      { unfold consensus. fold d'. rewrite H0. by rewrite map_size_empty. }
      rewrite Heq. split.
      * intros e. split; [done | by intros (? & _)].
      * intros c [= <-]. by left.
  - assert (Hok : exists c, consensus d countGaps plu gap errorchar = Ok c /\
                            (c = errorchar \/ is_Some (d' !! c))).
    { destruct (decide (size d' = 1%nat)) as [H1 | Hn1].
      - destruct (consensus_single d countGaps plu gap errorchar H1)
          as (k & Hk & ->). eauto.
      - destruct (top_two_exists d') as (k1 & k2 & m & s & Htop); [lia|].
        destruct (consensus_ranked d countGaps plu gap errorchar _ _ _ _ Htop)
          as (c & Hc & ->).
        destruct (m - s <? plu); eauto. }
    destruct Hok as (c & -> & Hc). split.
    + intros e. split; [done|]. intros (_ & -> & _).
      destruct countGaps; unfold d', drop_gap in Hn0.
      * by rewrite map_size_empty in Hn0.
      * rewrite delete_empty, map_size_empty in Hn0. done.
    + by intros c' [= <-].
Qed.

Lemma consensus_failure_witness :
  consensus ∅ true 2 gap_chr "X" = Raise ValueError
  /\ ("A"%char = "X"%char \/
      is_Some (drop_gap false gap_chr table_A5_G3 !! "A"%char)).
Proof.
  destruct (consensus_failure ∅ true 2 gap_chr "X") as [W1 _].
  destruct (consensus_failure table_A5_G3 false 2 gap_chr "X") as [_ W2].
  split.
  - apply W1. done.
  - apply W2. by vm_compute.
Defined.

(** ** The case-highlight mode of [seqdiff] *)

Lemma upper_lower_chr a : upper_chr (lower_chr a) = upper_chr a.
Proof. by destruct a as [[] [] [] [] [] [] [] []]. Qed.

(** X3: with an empty marker [seqdiff] never raises; the result is as
    long as the shorter of the two strings, and a position holds the
    uppercased record character where record and reference agree up to
    case (gaps included) and the lowercased record character elsewhere. *)
Theorem seqdiff_case_mode seq templateseq :
  exists r,
    seqdiff seq templateseq [] = Ok r
    /\ length r = Nat.min (length seq) (length templateseq)
    /\ forall i a b,
         seq !! i = Some a -> templateseq !! i = Some b ->
         r !! i = Some (if bool_decide (lower_chr a = lower_chr b)
                        then upper_chr a else lower_chr a).
Proof.
  unfold seqdiff.
  rewrite (zip_with_ext _
             (fun s t => [if chr_eqb s t then upper_chr s else s])
             (lower seq) (lower seq)
             (lower templateseq) (lower templateseq)); [| |done|done].
  2:{ intros s t. by destruct (chr_eqb s t). }
  rewrite (concat_zip_with_single
             (fun s t => if chr_eqb s t then upper_chr s else s)).
  eexists. split; [done|]. split.
  - unfold lower. by rewrite length_zip_with, !length_fmap.
  - intros i a b Ha Hb. apply lookup_zip_with_Some.
    exists (lower_chr a), (lower_chr b). unfold lower.
    rewrite !list_lookup_fmap, Ha, Hb. split; [|done].
    rewrite upper_lower_chr. f_equal.
    destruct (chr_eqb (lower_chr a) (lower_chr b)) eqn:E.
    + apply chr_eqb_eq in E. by rewrite bool_decide_eq_true_2.
    + apply chr_eqb_neq in E. by rewrite bool_decide_eq_false_2.
Qed.

Lemma seqdiff_case_mode_witness :
  exists r,
    seqdiff (lit "aC-gT") (lit "ACGG") [] = Ok r
    /\ length r = 4%nat
    /\ r !! 0%nat = Some "A"%char
    /\ r !! 2%nat = Some "-"%char.
Proof.
  destruct (seqdiff_case_mode (lit "aC-gT") (lit "ACGG"))
    as (r & Hr & Hlen & Hpos).
  exists r. split; [exact Hr|]. split; [exact Hlen|]. split.
  - apply (Hpos 0%nat "a"%char "A"%char); reflexivity.
  - apply (Hpos 2%nat "-"%char "G"%char); reflexivity.
Defined.

(** ** What the column tables hold *)

Lemma tabulate_strs_tables (strs : list str) :
  strs <> [] ->
  let n := max_list (length <$> strs) in
  exists tables,
    tabulate_strs strs = Ok tables /\ length tables = n /\
    forall i d, tables !! i = Some d -> table_of (column_count n strs i) d.
Proof.
  intros Hne n. destruct strs as [|s strs]; [done|]. unfold tabulate_strs.
  fold n.
  destruct (tabulate_fold n (s :: strs) (replicate n ∅) (fun _ _ => 0))
    as [Hlen Hout].
  - by rewrite length_replicate.
  - intros s' Hs'. unfold n. apply max_list_elem_of_le.
    apply list_elem_of_fmap. eauto.
  - done.
  - intros i d [-> _]%lookup_replicate c. by rewrite lookup_empty.
  - eexists. split; [done|]. split; [done|]. intros i d Hd. by apply Hout.
Qed.

Lemma column_count_le n strs i c :
  column_count n strs i c <= Z.of_nat (length strs).
Proof.
  induction strs as [|s strs IH]; simpl; [done|]. case_bool_decide; lia.
Qed.

Lemma column_count_all n strs i c :
  column_count n strs i c = Z.of_nat (length strs) <->
  forall s, s ∈ strs -> padded n s !! i = Some c.
Proof.
  induction strs as [|s strs IH]; simpl.
  - split; [intros _ s Hs; by apply elem_of_nil in Hs | done].
  - pose proof (column_count_le n strs i c) as Hle.
    pose proof (column_count_nonneg n strs i c) as Hge.
    case_bool_decide as E; split.
    + intros Heq s' [-> | Hs']%elem_of_cons; [done|]. apply IH; [lia | done].
    + intros Hall. assert (column_count n strs i c = Z.of_nat (length strs)).
      { apply IH. intros s' Hs'. apply Hall. by right. }
      lia.
    + lia.
    + intros Hall. exfalso. apply E, Hall. left.
Qed.

Lemma table_total_tally (d : gmap ascii Z) c :
  table_total (tally d c) = table_total d + 1.
Proof.
  unfold tally.
  rewrite (table_total_delete (<[c := default 0 (d !! c) + 1]> d) c
             (default 0 (d !! c) + 1)) by apply lookup_insert_eq.
  rewrite delete_insert_eq.
  destruct (d !! c) as [v|] eqn:E; simpl.
  - rewrite (table_total_delete d c v E). lia.
  - rewrite delete_id by done. lia.
Qed.

(** Each pass of the loop of [tabulate] adds one to the total of every
    column. *)
Lemma tabulate_fold_total n (strs : list str) :
  forall (dictList : list (gmap ascii Z)) (k : Z),
    length dictList = n ->
    (forall s, s ∈ strs -> (length s <= n)%nat) ->
    Forall (fun d => table_total d = k) dictList ->
    Forall (fun d => table_total d = k + Z.of_nat (length strs))
      (foldl (tabulate_step n) dictList strs).
Proof.
  induction strs as [|s strs IH]; intros dictList k Hlen Hle Hall; simpl.
  - eapply Forall_impl; [exact Hall|]. intros d Hd. simpl in *. lia.
  - assert (Hs : length (padded n s) = n).
    { unfold padded. rewrite length_app, length_replicate.
      assert (length s <= n)%nat by (apply Hle; left). lia. }
    eapply Forall_impl.
    + apply (IH (tabulate_step n dictList s) (k + 1)).
      * unfold tabulate_step. fold (padded n s). rewrite length_zip_with. lia.
      * intros s' Hs'. apply Hle. by right.
      * unfold tabulate_step. fold (padded n s).
        apply Forall_forall. intros d [i Hi]%list_elem_of_lookup.
        apply lookup_zip_with_Some in Hi as (d0 & c0 & -> & Hd0 & Hc0).
        rewrite table_total_tally. rewrite Forall_forall in Hall.
        rewrite (Hall d0); [done|]. by eapply list_elem_of_lookup_2.
    + intros d Hd. simpl in *. lia.
Qed.

(** X4: in every column table that [tabulate] returns the counts add up
    to the number of records, every count lies between 1 and that number,
    and the count of the gap character equals the number of records
    exactly when every record has a gap in that column or ends before
    it. *)
Theorem tabulate_column_invariants strs tables i d :
  tabulate_strs strs = Ok tables -> tables !! i = Some d ->
  table_total d = Z.of_nat (length strs)
  /\ (forall c v, d !! c = Some v -> 1 <= v <= Z.of_nat (length strs))
  /\ (default 0 (d !! gap_chr) = Z.of_nat (length strs) <->
      forall s, s ∈ strs ->
                padded (max_list (length <$> strs)) s !! i = Some gap_chr).
Proof.
  intros Htab Hd.
  assert (Hne : strs <> []) by (by intros ->).
  destruct (tabulate_strs_tables strs Hne) as (tables' & Heq & Hlen & Hof).
  rewrite Htab in Heq. injection Heq as <-.
  set (n := max_list (length <$> strs)) in *.
  specialize (Hof i d Hd). split; [|split].
  - destruct strs as [|s strs]; [done|]. unfold tabulate_strs in Htab.
    injection Htab as <-. fold n in Hd.
    assert (Hall : Forall
              (fun d => table_total d = 0 + Z.of_nat (length (s :: strs)))
              (foldl (tabulate_step n) (replicate n ∅) (s :: strs))).
    { apply tabulate_fold_total.
      - by rewrite length_replicate.
      - intros s' Hs'. unfold n. apply max_list_elem_of_le.
        apply list_elem_of_fmap. eauto.
      - apply Forall_forall. intros d0 [-> _]%elem_of_replicate. done. }
    rewrite Forall_forall in Hall. rewrite (Hall d); [lia|].
    by eapply list_elem_of_lookup_2.
  - intros c v Hc. rewrite (Hof c) in Hc.
    pose proof (column_count_nonneg n strs i c).
    pose proof (column_count_le n strs i c).
    destruct (Z.eqb_spec (column_count n strs i c) 0); [done|].
    injection Hc as <-. lia.
  - rewrite (Hof gap_chr), <- column_count_all.
    destruct (Z.eqb_spec (column_count n strs i gap_chr) 0) as [E|E]; simpl.
    + rewrite E. done.
    + done.
Qed.

Lemma tabulate_column_invariants_witness :
  exists tables d,
    tabulate_strs [lit "A-"; lit "C"] = Ok tables /\
    tables !! 1%nat = Some d /\
    table_total d = 2 /\
    (forall c v, d !! c = Some v -> 1 <= v <= 2) /\
    (default 0 (d !! gap_chr) = 2 <->
     forall s, s ∈ [lit "A-"; lit "C"] -> padded 2 s !! 1%nat = Some gap_chr).
Proof.
  eexists _, _. split; [by vm_compute|]. split; [reflexivity|].
  eapply (tabulate_column_invariants [lit "A-"; lit "C"]);
    [by vm_compute | reflexivity].
Defined.

(** ** Masking keeps the columns aligned *)

Lemma apply_mask_cons m mask c s :
  apply_mask (m :: mask) (c :: s)
  = if m then c :: apply_mask mask s else apply_mask mask s.
Proof.
  unfold apply_mask. cbn [zip zip_with]. rewrite filter_cons. simpl.
  by destruct m.
Qed.

Lemma apply_mask_from (mask : list bool) :
  forall (i : nat) (pre s : str),
    length pre = i -> (length mask <= length s)%nat ->
    Forall2 (fun j c => (pre ++ s) !! j = Some c)
      (true_indices i mask) (apply_mask mask s).
Proof.
  induction mask as [|m mask IH]; intros i pre s Hpre Hlen.
  - destruct s; constructor.
  - destruct s as [|c s]; [simpl in Hlen; lia|].
    rewrite apply_mask_cons. cbn [true_indices].
    assert (Hrest : Forall2 (fun j c0 => (pre ++ c :: s) !! j = Some c0)
                      (true_indices (S i) mask) (apply_mask mask s)).
    { replace (pre ++ c :: s) with ((pre ++ [c]) ++ s)
        by (by rewrite <- app_assoc).
      apply IH; [rewrite length_app; simpl; lia | simpl in Hlen; lia]. }
    destruct m; [|done]. constructor; [|done].
    subst i. apply list_lookup_middle. done.
Qed.

Lemma true_indices_elem (mask : list bool) (i j : nat) :
  j ∈ true_indices i mask <->
  (i <= j)%nat /\ mask !! (j - i)%nat = Some true.
Proof.
  revert i. induction mask as [|m mask IH]; intros i; cbn [true_indices].
  - split; [by intros ?%elem_of_nil | by intros [_ ?]].
  - assert (Hstep : j ∈ true_indices (S i) mask <->
                    (i < j)%nat /\ (m :: mask) !! (j - i)%nat = Some true).
    { rewrite IH. split.
      - intros [Hle Hj]. split; [lia|].
        replace (j - i)%nat with (S (j - S i)) by lia. done.
      - intros [Hlt Hj]. split; [lia|].
        replace (j - i)%nat with (S (j - S i)) in Hj by lia. done. }
    destruct m.
    + rewrite elem_of_cons, Hstep. split.
      * intros [-> | [Hlt Hj]]; [|split; [lia | done]].
        split; [lia|]. by rewrite Nat.sub_diag.
      * intros [Hle Hj]. destruct (decide (j = i)) as [->|Hne]; [by left|].
        right. split; [lia | done].
    + rewrite Hstep. split.
      * intros [Hlt Hj]. split; [lia | done].
      * intros [Hle Hj]. destruct (decide (j = i)) as [->|Hne].
        -- by rewrite Nat.sub_diag in Hj.
        -- split; [lia | done].
Qed.

Lemma true_indices_sorted (mask : list bool) (i : nat) :
  StronglySorted lt (true_indices i mask).
Proof.
  revert i. induction mask as [|m mask IH]; intros i; cbn [true_indices].
  - constructor.
  - destruct m; [|apply IH]. constructor; [apply IH|].
    apply Forall_forall. intros j [Hj _]%true_indices_elem. lia.
Qed.

(** X5: [apply_mask] keeps exactly the characters at the true positions
    of the mask, in their order: the k-th character of the result is the
    character at the k-th true position.  Strings masked with one mask
    therefore stay aligned column by column. *)
Theorem apply_mask_aligned (mask : list bool) (s : str) :
  (length mask <= length s)%nat ->
  Forall2 (fun j c => s !! j = Some c) (true_indices 0 mask)
    (apply_mask mask s)
  /\ (forall j, j ∈ true_indices 0 mask <-> mask !! j = Some true)
  /\ StronglySorted lt (true_indices 0 mask).
Proof.
  intros Hlen. split; [|split].
  - by apply (apply_mask_from mask 0%nat [] s).
  - intros j. rewrite true_indices_elem, Nat.sub_0_r. split.
    + by intros [_ ?].
    + intros ?. split; [lia | done].
  - apply true_indices_sorted.
Qed.

Lemma apply_mask_aligned_witness :
  Forall2 (fun j c => lit "ACGT" !! j = Some c)
    (true_indices 0 [false; true; false; true])
    (apply_mask [false; true; false; true] (lit "ACGT")).
Proof.
  apply (apply_mask_aligned [false; true; false; true] (lit "ACGT")).
  simpl. lia.
Defined.

(** ** The ruler when gaps are not numbered *)

Lemma lookup_cons_S {A} (x : A) (l : list A) (j : nat) :
  (x :: l) !! S j = l !! j.
Proof. done. Qed.

Lemma numchars_loop_lookup fmt gapstr (seqstr : str) :
  forall (i j : nat) c,
    seqstr !! j = Some c ->
    numchars_loop fmt gapstr false i seqstr !! j
    = Some (if chr_eqb c gap_chr then gapstr
            else fmt (i + non_gaps_before seqstr j)%nat).
Proof.
  unfold non_gaps_before.
  induction seqstr as [|c0 rest IH]; intros i j c Hj; [done|].
  cbn [numchars_loop negb andb].
  destruct j as [|j]; simpl in Hj.
  - injection Hj as ->. destruct (chr_eqb c gap_chr); simpl; [done|].
    by rewrite Nat.add_0_r.
  - destruct (chr_eqb c0 gap_chr) eqn:E0.
    + rewrite lookup_cons_S, (IH i j c Hj).
      apply chr_eqb_eq in E0. subst c0.
      cbn [take]. rewrite filter_cons_False by (by intros ?). done.
    + rewrite lookup_cons_S, (IH (S i) j c Hj).
      apply chr_eqb_neq in E0.
      cbn [take]. rewrite filter_cons_True by done.
      destruct (chr_eqb c gap_chr); [done|]. simpl. do 2 f_equal. lia.
Qed.

Lemma numchars_loop_rows fmt gapstr (seqstr : str) :
  forall i : nat,
    Forall (fun x => x = gapstr \/
                     exists k, (i <= k < i + length seqstr)%nat /\ x = fmt k)
      (numchars_loop fmt gapstr false i seqstr).
Proof.
  induction seqstr as [|c rest IH]; intros i; cbn [numchars_loop negb andb].
  - constructor.
  - destruct (chr_eqb c gap_chr).
    + constructor; [by left|].
      eapply Forall_impl; [apply (IH i)|].
      intros x [-> | (k & Hk & ->)]; [by left | right].
      exists k. split; [simpl; lia | done].
    + constructor; [right; exists i; split; [simpl; lia | done]|].
      eapply Forall_impl; [apply (IH (S i))|].
      intros x [-> | (k & Hk & ->)]; [by left | right].
      exists k. split; [simpl; lia | done].
Qed.

Lemma numchars_loop_length fmt gapstr ignore_gaps (seqstr : str) :
  forall i, length (numchars_loop fmt gapstr ignore_gaps i seqstr)
            = length seqstr.
Proof.
  induction seqstr as [|c rest IH]; intros i; cbn [numchars_loop]; [done|].
  destruct (negb ignore_gaps && chr_eqb c gap_chr); simpl; by rewrite IH.
Qed.

(** X6: with [ignore_gaps=False] the ruler has as many strings as
    [len(seqstr) + 1] has digits, each as long as the sequence; a column
    that holds a gap reads '-' in every string, and any other column
    reads as the number of non-gap characters up to and including it. *)
Theorem ruler_with_gaps seqstr leadingZeros :
  exists ruler,
    get_vnumbers seqstr false leadingZeros = Ok ruler
    /\ length ruler = length (repr_nat (length seqstr + 1))
    /\ Forall (fun s => length s = length seqstr) ruler
    /\ forall j c, seqstr !! j = Some c ->
         exists col,
           rmap (fun s => char_at s j) ruler = Ok col /\
           (c = gap_chr ->
            col = replicate (length (repr_nat (length seqstr + 1))) gap_chr)
           /\ (c <> gap_chr ->
               py_int col = Some (Z.of_nat (S (non_gaps_before seqstr j)))).
Proof.
  unfold get_vnumbers.
  set (N := length seqstr). set (digs := length (repr_nat (N + 1))).
  set (fmt := fun i : nat => if leadingZeros then zfill digs (repr_nat i)
                            else rjust digs (repr_nat i)).
  set (rows := numchars_loop fmt (replicate digs gap_chr) false 1 seqstr).
  cbn [andb].
  assert (Hrows : Forall (fun x => length x = digs) rows).
  { eapply Forall_impl; [apply numchars_loop_rows|].
    intros x [-> | (k & Hk & ->)]; [by rewrite length_replicate|]. simpl.
    assert (length (repr_nat k) <= digs)%nat
      by (apply repr_nat_length_mono; lia).
    unfold fmt, zfill, rjust.
    destruct leadingZeros; rewrite length_app, length_replicate; lia. }
  destruct (transpose_ok _ _ Hrows) as (cols & Hcols & Ht).
  exists cols. split; [done|]. split; [|split].
  - apply rmap_length in Hcols. by rewrite length_seq in Hcols.
  - apply Forall_forall. intros s [n Hs]%list_elem_of_lookup.
    destruct (Forall2_lookup_r _ _ _ _ _ Ht Hs) as (n' & _ & Hcol).
    apply Forall2_length in Hcol. unfold rows in Hcol.
    by rewrite numchars_loop_length in Hcol.
  - intros j c Hj.
    pose proof (numchars_loop_lookup fmt (replicate digs gap_chr) seqstr
                  1 j c Hj) as Hrow.
    fold rows in Hrow.
    eexists. split; [by apply (transpose_read_down _ _ _ _ _ Hrows Ht)|].
    split.
    + intros ->. by rewrite chr_eqb_refl.
    + intros Hne. apply chr_eqb_neq in Hne. rewrite Hne. unfold fmt.
      destruct leadingZeros; [apply py_int_zfill | apply py_int_rjust].
Qed.

Lemma ruler_with_gaps_witness :
  exists ruler col1 col2,
    get_vnumbers (lit "A-C") false true = Ok ruler
    /\ rmap (fun s => char_at s 1) ruler = Ok col1
    /\ col1 = replicate 1 gap_chr
    /\ rmap (fun s => char_at s 2) ruler = Ok col2
    /\ py_int col2 = Some 2.
Proof.
  destruct (ruler_with_gaps (lit "A-C") true) as (ruler & Hr & _ & _ & Hcol).
  destruct (Hcol 1%nat gap_chr eq_refl) as (col1 & H1 & Hgap & _).
  destruct (Hcol 2%nat "C"%char eq_refl) as (col2 & H2 & _ & Hnum).
  exists ruler, col1, col2. split; [exact Hr|]. split; [exact H1|].
  split; [by apply Hgap|]. split; [exact H2|]. by apply Hnum.
Defined.

(** ** The selected record is one of the list *)

(** X17: whatever the selector, a record that [get_seq_from_list]
    returns is an element of the list it was given; on an empty list it
    raises [ValueError]. *)
Theorem get_seq_from_list_member {A} (name_of : A -> str) sel (l : list A) :
  (forall x, get_seq_from_list name_of sel l = Ok x -> x ∈ l)
  /\ (l = [] -> get_seq_from_list name_of sel l = Raise ValueError).
Proof.
  split; [intros x; apply get_seq_from_list_elem|].
  intros ->. unfold get_seq_from_list, by_index.
  destruct (py_int sel) as [n|]; [|done].
  by destruct (0 <? n); rewrite py_index_out by (simpl; lia).
Qed.

Lemma get_seq_from_list_member_witness :
  mkSeqobj (lit "bar") (lit "ACGA") false ∈ foo_bar_foobar
  /\ get_seq_from_list name (lit "1") [] = Raise ValueError.
Proof.
  destruct (get_seq_from_list_member name (lit "2") foo_bar_foobar) as [W1 _].
  destruct (get_seq_from_list_member name (lit "1") []) as [_ W2].
  split; [apply W1; reflexivity | by apply W2].
Defined.

(** ** What [reformat] returns *)

Lemma hoare_any {A} (m : M A) (P : heap -> Prop) :
  hoare P m (fun _ _ => True) any_failure.
Proof. intros h _. by destruct (m h) as [h' [a|e]]. Qed.

Lemma hoare_any_post {A} (m : M A) (P : heap -> Prop)
    (Q : A -> heap -> Prop) :
  (forall a h, Q a h) -> hoare P m Q any_failure.
Proof. intros HQ h _. destruct (m h) as [h' [a|e]]; [apply HQ | done]. Qed.

Lemma hoare_pure {A} (m : M A) (X : Prop) (Q : A -> heap -> Prop)
    (E : exn -> heap -> Prop) :
  (X -> hoare (fun _ => True) m Q E) -> hoare (fun _ => X) m Q E.
Proof. intros H h HX. by apply H. Qed.

Lemma zip_with_andb_true (m1 m2 : list bool) (i : nat) :
  zip_with andb m1 m2 !! i = Some true ->
  m1 !! i = Some true /\ m2 !! i = Some true.
Proof.
  intros (x & y & Hxy & Hx & Hy)%lookup_zip_with_Some.
  symmetry in Hxy. apply andb_true_iff in Hxy as [-> ->]. done.
Qed.

Lemma reformat_mask_kept seqlist tabulated nseqs o :
  hoare (fun _ => True) (reformat_mask seqlist tabulated nseqs o)
    (fun mask _ =>
       forall i, mask !! i = Some true ->
         (forall a z, seqrange o = Some (a, z) ->
                      a <= Z.of_nat i + 1 <= z)
         /\ (exclude_gapcols o = true ->
             exists d, tabulated !! i = Some d /\
                       default 0 (d !! gap_chr) <> Z.of_nat nseqs)
         /\ (exclude_invariant o = true ->
             exists d n, tabulated !! i = Some d /\
                         count_subs d (countGaps o) gap_chr = Ok n /\
                         min_subs o <= n))
    any_failure.
Proof.
  unfold reformat_mask.
  eapply hoare_bind; [apply hoare_any|]. intros first. cbn zeta.
  eapply (hoare_bind _ _ _
            (fun mask0 _ => forall i, mask0 !! i = Some true ->
               forall a z, seqrange o = Some (a, z) ->
                           a <= Z.of_nat i + 1 <= z)).
  { destruct (seqrange o) as [[start stop]|] eqn:Er.
    - apply hoare_ret. intros h _ i Hi a z [= <- <-].
      rewrite list_lookup_fmap in Hi.
      destruct (seq 0 (length first) !! i) as [i'|] eqn:Ei; [|done].
      apply lookup_seq in Ei as [-> _]. simpl in Hi.
      injection Hi as Hi. apply andb_true_iff in Hi as [H1 H2].
      apply Z.leb_le in H1, H2. lia.
    - apply hoare_any_post. intros mask0 h i _ a z [=]. }
  intros mask0. apply hoare_pure. intros Hrange.
  set (mask1 := if exclude_gapcols o then _ else mask0).
  assert (H1 : forall i, mask1 !! i = Some true ->
            mask0 !! i = Some true /\
            (exclude_gapcols o = true ->
             exists d, tabulated !! i = Some d /\
                       default 0 (d !! gap_chr) <> Z.of_nat nseqs)).
  { intros i Hi. unfold mask1 in Hi. destruct (exclude_gapcols o); [|done].
    apply zip_with_andb_true in Hi as [H0 Hg]. split; [done|]. intros _.
    rewrite list_lookup_fmap in Hg.
    destruct (tabulated !! i) as [d|]; [|done]. exists d. split; [done|].
    simpl in Hg. injection Hg as Hg. apply negb_true_iff in Hg.
    by apply Z.eqb_neq in Hg. }
  destruct (exclude_invariant o) eqn:Einv.
  - eapply (hoare_bind _ _ _
              (fun subs _ => Forall2
                 (fun d n => count_subs d (countGaps o) gap_chr = Ok n)
                 tabulated subs)).
    { apply hoare_lift. intros h _.
      destruct (rmap _ tabulated) as [subs|e] eqn:Es; [|done].
      by apply rmap_Ok in Es. }
    intros subs. apply hoare_pure. intros Hsubs.
    apply hoare_ret. intros h _ i Hi.
    apply zip_with_andb_true in Hi as [Hm1 Hinv].
    destruct (H1 i Hm1) as [Hm0 Hgap].
    split; [by apply Hrange|]. split; [done|]. intros _.
    rewrite list_lookup_fmap in Hinv.
    destruct (subs !! i) as [n|] eqn:En; [|done].
    destruct (Forall2_lookup_r _ _ _ _ _ Hsubs En) as (d & Hd & Hn).
    exists d, n. split; [done|]. split; [done|].
    simpl in Hinv. injection Hinv as Hinv. by apply Z.leb_le.
  - apply hoare_ret. intros h _ i Hi. destruct (H1 i Hi) as [Hm0 Hgap].
    split; [by apply Hrange|]. split; [done | done].
Qed.

(** X7: a column that the composed mask of [reformat] keeps passes
    every enabled criterion: it lies in the 1-based inclusive range when
    one is given, its gap count differs from the number of records when
    all-gap columns are excluded, and its substitution count reaches
    [min_subs] when invariant columns are excluded. *)
Theorem reformat_mask_entry seqlist tabulated nseqs o h h' mask i :
  reformat_mask seqlist tabulated nseqs o h = (h', Ok mask) ->
  mask !! i = Some true ->
  (forall a z, seqrange o = Some (a, z) -> a <= Z.of_nat i + 1 <= z)
  /\ (exclude_gapcols o = true ->
      exists d, tabulated !! i = Some d /\
                default 0 (d !! gap_chr) <> Z.of_nat nseqs)
  /\ (exclude_invariant o = true ->
      exists d n, tabulated !! i = Some d /\
                  count_subs d (countGaps o) gap_chr = Ok n /\
                  min_subs o <= n).
Proof.
  intros Hrun Hi.
  pose proof (reformat_mask_kept seqlist tabulated nseqs o h I) as H.
  rewrite Hrun in H. by apply H.
Qed.

Lemma reformat_mask_entry_witness :
  exists d, gap_record_tables !! 1%nat = Some d /\
            default 0 (d !! gap_chr) <> 2.
Proof.
  destruct (reformat_mask_entry [0; 1]%nat gap_record_tables 2
              default_options gap_record_store gap_record_store
              [true; true; false; true] 1%nat) as (_ & W & _).
  - by vm_compute.
  - reflexivity.
  - apply W. reflexivity.
Defined.

Lemma reformat_prepare_count seqs o :
  hoare (fun _ => True) (reformat_prepare seqs o)
    (fun p _ => length p.1.1.1
                = (length seqs + (if add_consensus o then 1 else 0))%nat)
    any_failure.
Proof.
  unfold reformat_prepare.
  eapply hoare_bind.
  { apply (hoare_mapM _ seqs (fun _ _ => True) any_failure).
    intros x ys _. by apply hoare_any_post. }
  intros sl0. cbn beta zeta. apply hoare_pre_r. intros Hlen.
  eapply hoare_bind; [apply hoare_any|]. intros t.
  eapply hoare_bind; [apply hoare_any|]. intros cs.
  eapply (hoare_bind _ _ _
            (fun sl _ => length sl
               = (length seqs + (if add_consensus o then 1 else 0))%nat)).
  { destruct (add_consensus o).
    - eapply hoare_bind; [apply hoare_any|]. intros r.
      destruct (reference_top o); apply hoare_ret; intros h _.
      + simpl. lia.
      + rewrite length_app. simpl. lia.
    - apply hoare_ret. intros h _. lia. }
  intros sl. apply hoare_pure. intros Hsl.
  eapply hoare_bind; [apply hoare_any|]. intros ?.
  apply hoare_ret. by intros h _.
Qed.

Lemma reformat_count seqs o :
  hoare (fun _ => True) (reformat seqs o)
    (fun res _ => length res.1.1
                  = (length seqs + (if add_consensus o then 1 else 0))%nat)
    any_failure.
Proof.
  unfold reformat.
  eapply hoare_bind; [apply reformat_prepare_count|].
  intros [[[sl tabulated] consensus_str] nseqs]. cbn [fst snd].
  apply hoare_pure. intros Hsl.
  eapply hoare_bind; [apply hoare_any|]. intros mask. cbn zeta.
  eapply hoare_bind; [apply hoare_any|]. intros nums.
  eapply hoare_bind; [apply hoare_any|]. intros ?.
  apply hoare_ret. by intros h _.
Qed.

Lemma reformat_empty o h : reformat [] o h = (h, Raise ValueError).
Proof. reflexivity. Qed.

(** X8: [reformat] raises [ValueError] when it is given no record, and
    when it returns, the list of records it returns has one entry per
    input record, plus one for the consensus when [add_consensus] is
    set. *)
Theorem reformat_record_count seqs o h :
  (seqs = [] -> reformat seqs o h = (h, Raise ValueError))
  /\ (forall h' seqlist vnumstrs mask,
        reformat seqs o h = (h', Ok (seqlist, vnumstrs, mask)) ->
        seqs <> [] /\
        length seqlist
        = (length seqs + (if add_consensus o then 1 else 0))%nat).
Proof.
  split; [intros ->; apply reformat_empty|].
  intros h' seqlist vnumstrs mask Hrun. split.
  - intros ->. by rewrite reformat_empty in Hrun.
  - pose proof (reformat_count seqs o h I) as H. by rewrite Hrun in H.
Qed.

Lemma reformat_record_count_witness :
  reformat [] default_options gap_record_store
  = (gap_record_store, Raise ValueError)
  /\ exists h' seqlist vnumstrs mask,
       reformat [0; 1]%nat default_options gap_record_store
       = (h', Ok (seqlist, vnumstrs, mask)) /\
       length seqlist = 3%nat.
Proof.
  destruct (reformat_record_count [] default_options gap_record_store)
    as [W1 _].
  destruct (reformat_record_count [0; 1]%nat default_options
              gap_record_store) as [_ W2].
  split; [by apply W1|].
  eexists _, _, _, _. split; [by vm_compute|].
  eapply W2. by vm_compute.
Defined.


Lemma xrange_fuel_lt fuel start stop step x :
  x ∈ xrange_fuel fuel start stop step -> (x < stop)%nat.
Proof.
  revert start. induction fuel as [|fuel IH]; intros start; cbn [xrange_fuel].
  - by intros ?%elem_of_nil.
  - destruct (Nat.ltb_spec start stop); [|by intros ?%elem_of_nil].
    intros [-> | Hx]%elem_of_cons; [done | by eapply IH].
Qed.

Lemma length_concat_const {A} (ls : list (list A)) (n : nat) :
  Forall (fun l => length l = n) ls ->
  length (concat ls) = (length ls * n)%nat.
Proof.
  induction 1 as [|l ls Hl _ IH]; simpl; [done|].
  rewrite length_app, Hl, IH. lia.
Qed.

Lemma pagify_raises_nrow s0 rest vnumstrs lay :
  nrow lay = 0%nat -> seq_ s0 <> [] ->
  pagify (s0 :: rest) vnumstrs lay = Raise ValueError.
Proof.
  intros Hr Hs. rewrite pagify_eq. unfold xrange at 1.
  destruct (Nat.eqb (ncol lay) 0); [done|]. cbn [rbind].
  destruct (seq_ s0) as [|c q]; [done|]. cbn [length xrange_fuel].
  destruct (Nat.ltb_spec 0 (S (length q))); [|lia].
  cbn [col_blocks]. unfold xrange. by rewrite Hr.
Qed.

(** X9: [pagify] raises [ValueError] for an empty list of records, for
    [ncol = 0], and for [nrow = 0] unless the records have no columns; in
    every other case it returns. *)
Theorem pagify_failure seqlist vnumstrs lay :
  (seqlist = [] -> pagify seqlist vnumstrs lay = Raise ValueError)
  /\ (ncol lay = 0%nat -> pagify seqlist vnumstrs lay = Raise ValueError)
  /\ (forall s0, head seqlist = Some s0 -> nrow lay = 0%nat ->
                 seq_ s0 <> [] ->
                 pagify seqlist vnumstrs lay = Raise ValueError)
  /\ (forall s0, head seqlist = Some s0 -> ncol lay <> 0%nat ->
                 nrow lay <> 0%nat \/ seq_ s0 = [] ->
                 exists out, pagify seqlist vnumstrs lay = Ok out).
Proof.
  split; [by intros ->|]. split; [|split].
  - intros Hc. destruct seqlist as [|s0 rest]; [done|].
    rewrite pagify_eq. unfold xrange at 1. by rewrite Hc.
  - intros s0 Hhd Hr Hs. destruct seqlist as [|s0' rest]; [done|].
    injection Hhd as ->. by apply pagify_raises_nrow.
  - intros s0 Hhd Hc Hcases. destruct seqlist as [|s0' rest]; [done|].
    injection Hhd as ->. rewrite pagify_eq. unfold xrange at 1.
    destruct (Nat.eqb_spec (ncol lay) 0); [done|]. cbn [rbind].
    destruct Hcases as [Hr | Hs].
    + destruct (xrange_Ok (length (s0 :: rest)) (nrow lay) Hr) as [firsts Hf].
      rewrite (col_blocks_eq _ _ _ _ _ _ firsts _ Hf). eauto.
    + rewrite Hs. cbn [length xrange_fuel col_blocks]. eauto.
Qed.

Lemma pagify_failure_witness :
  pagify foo_bar_foobar [] (mkLayout 10 35 0 70 true false)
  = Raise ValueError
  /\ exists out, pagify foo_bar_foobar [] default_layout = Ok out.
Proof.
  destruct (pagify_failure foo_bar_foobar []
              (mkLayout 10 35 0 70 true false)) as (_ & _ & W3 & _).
  destruct (pagify_failure foo_bar_foobar [] default_layout)
    as (_ & _ & _ & W4).
  split.
  - eapply W3; [reflexivity | reflexivity | discriminate].
  - eapply W4; [reflexivity | discriminate | left; discriminate].
Defined.

(** X10: the number of pages that [pagify] returns is the number of
    column blocks times the number of row blocks: the column count
    divided by [ncol] and the record count divided by [nrow], both rounded
    up. *)
Theorem pagify_page_count seqlist vnumstrs lay s0 out :
  head seqlist = Some s0 ->
  pagify seqlist vnumstrs lay = Ok out ->
  length out = (ceil_div (length (seq_ s0)) (ncol lay)
                * ceil_div (length seqlist) (nrow lay))%nat.
Proof.
  intros Hhd Hout. destruct seqlist as [|s0' rest]; [done|].
  injection Hhd as ->.
  destruct (pagify_exact lay _ _ (s0 :: rest) vnumstrs s0 rest out
              eq_refl eq_refl eq_refl Hout) as [Hc ->].
  rewrite (xrange_fuel_eq (ncol lay) (length (seq_ s0)) Hc) by lia.
  rewrite Nat.sub_0_r.
  destruct (Nat.eq_dec (nrow lay) 0%nat) as [Hr | Hr].
  - destruct (decide (seq_ s0 = [])) as [Hs | Hs];
      [|by rewrite pagify_raises_nrow in Hout].
    rewrite Hs. cbn [length]. by rewrite ceil_div_0.
  - rewrite (xrange_fuel_eq (nrow lay) (length (s0 :: rest))) by lia.
    rewrite Nat.sub_0_r.
    rewrite (length_concat_const _ (ceil_div (length (s0 :: rest)) (nrow lay))).
    + by rewrite !length_fmap, length_seq.
    + apply Forall_fmap, Forall_forall. intros st _. simpl.
      by rewrite !length_fmap, length_seq.
Qed.

Lemma pagify_page_count_witness :
  exists out,
    pagify alignment_130x150 [] default_layout = Ok out /\
    length out = (ceil_div 150 70 * ceil_div 130 65)%nat.
Proof.
  destruct (pagify alignment_130x150 [] default_layout) as [out|e] eqn:E;
    [|by vm_compute in E].
  exists out. split; [done|].
  apply (pagify_page_count alignment_130x150 [] default_layout
           (mkSeqobj (lit "seq") (replicate 150 "A"%char) false) out);
    [reflexivity | exact E].
Defined.

Lemma lookup_concat_const {A} (ls : list (list A)) (m i j : nat) l :
  Forall (fun l => length l = m) ls -> ls !! i = Some l -> (j < m)%nat ->
  concat ls !! (i * m + j)%nat = l !! j.
Proof.
  intros Hall. revert i. induction Hall as [|l0 ls Hl0 _ IH]; intros i Hi Hj.
  - done.
  - destruct i as [|i]; cbn [concat].
    + injection Hi as ->. cbn [Nat.mul Nat.add].
      apply lookup_app_l. lia.
    + rewrite lookup_app_r by lia.
      replace (S i * m + j - length l0)%nat with (i * m + j)%nat by lia.
      by apply IH.
Qed.

Lemma ceil_div_gt j n step :
  step <> 0%nat -> (j * step < n)%nat -> (j < ceil_div n step)%nat.
Proof.
  intros Hs Hj. unfold ceil_div.
  apply (Nat.lt_le_trans _ (S j)); [lia|].
  apply Nat.div_le_lower_bound; [done | nia].
Qed.

Lemma slice_lookup_lt {A} (l : list A) start stop k :
  (k < stop - start)%nat -> slice start stop l !! k = l !! (start + k)%nat.
Proof.
  intros Hk. unfold slice. destruct (l !! (start + k)%nat) as [x|] eqn:E.
  - apply lookup_take_Some. by rewrite lookup_drop.
  - apply eq_None_not_Some. intros [x Hx].
    apply lookup_take_Some in Hx as [Hx _]. rewrite lookup_drop in Hx.
    congruence.
Qed.

(** X11: [pagify] in closed form, and the records in it.  When there is
    a record and neither [ncol] nor [nrow] is zero, [pagify] returns, for
    each block of [ncol] columns in turn, one page per block of [nrow]
    records: the status line (when there are more than [nrow] records),
    the number lines and the lines of these records.  Page [j] of block
    [i] is entry [i * pages + j] of the output; its record lines are the
    last lines of the page, [min nrow (records left)] of them, and the
    line at offset [k] shows record [j * nrow + k] of the list with the
    number [j * nrow + k + 1], its name and the columns of the block.
    The record lines of the pages of one block, joined in order, are the
    lines of all the records: every record is shown exactly once per
    block of columns. *)
Theorem pagify_records_partition seqlist vnumstrs lay s0 :
  head seqlist = Some s0 -> ncol lay <> 0%nat -> nrow lay <> 0%nat ->
  let name_width :=
    Nat.max (name_min lay)
      (Nat.min (max_list ((fun s => length (name s)) <$> seqlist))
         (name_max lay)) in
  let num_width := length (repr_nat (length seqlist)) in
  let colstop := length (seq_ s0) in
  let blocks := ceil_div colstop (ncol lay) in
  let pages := ceil_div (length seqlist) (nrow lay) in
  let stop_of i := Nat.min (i * ncol lay + ncol lay) colstop in
  pagify seqlist vnumstrs lay
  = Ok (concat
          ((fun i =>
              (fun j => shown_page lay name_width num_width seqlist vnumstrs
                          (i * ncol lay) (stop_of i) (j * nrow lay))
              <$> seq 0 pages)
           <$> seq 0 blocks))
  /\ (forall out i j k s,
        pagify seqlist vnumstrs lay = Ok out ->
        (i < blocks)%nat -> (k < nrow lay)%nat ->
        seqlist !! (j * nrow lay + k)%nat = Some s ->
        exists hdr recs,
          out !! (i * pages + j)%nat = Some (hdr ++ recs)
          /\ length recs
             = Nat.min (nrow lay) (length seqlist - j * nrow lay)
          /\ recs !! k
             = Some (record_line lay name_width num_width (i * ncol lay)
                       (stop_of i) (j * nrow lay + k + 1) s))
  /\ (forall start stop,
        concat ((fun j =>
                   shown_records lay name_width num_width start stop
                     (j * nrow lay)
                     (slice (j * nrow lay)
                        (Nat.min (j * nrow lay + nrow lay) (length seqlist))
                        seqlist))
                <$> seq 0 pages)
        = imap (fun r s => record_line lay name_width num_width start stop
                             (r + 1) s) seqlist).
Proof.
  intros Hhd Hc Hr name_width num_width colstop blocks pages stop_of.
  pose proof (pagify_shown seqlist vnumstrs lay s0 Hhd Hc Hr) as Hshown.
  fold name_width num_width colstop blocks pages in Hshown.
  split; [exact Hshown|]. split.
  - intros out i j k s Hout Hi Hk Hs. rewrite Hshown in Hout.
    injection Hout as <-.
    assert (Hlt : (j * nrow lay + k < length seqlist)%nat)
      by by eapply lookup_lt_Some.
    assert (Hj : (j < pages)%nat) by (apply ceil_div_gt; [done | lia]).
    exists ((if Nat.ltb (nrow lay) (length seqlist)
             then [lit "sequences " ++ repr_nat (j * nrow lay + 1)
                   ++ lit " to "
                   ++ repr_nat (Nat.min (j * nrow lay + nrow lay)
                                  (length seqlist))
                   ++ lit " of " ++ repr_nat (length seqlist)]
             else [])
            ++ number_lines lay name_width num_width vnumstrs
                 (i * ncol lay) (stop_of i)).
    exists (shown_records lay name_width num_width (i * ncol lay) (stop_of i)
              (j * nrow lay)
              (slice (j * nrow lay)
                 (Nat.min (j * nrow lay + nrow lay) (length seqlist))
                 seqlist)).
    split; [|split].
    + rewrite (lookup_concat_const _ pages i j
                 ((fun j => shown_page lay name_width num_width seqlist
                              vnumstrs (i * ncol lay) (stop_of i)
                              (j * nrow lay)) <$> seq 0 pages)).
      * rewrite list_lookup_fmap, lookup_seq_lt by done.
        cbn [fmap option_fmap option_map Nat.add]. f_equal.
        unfold shown_page. cbv zeta. by rewrite app_assoc.
      * apply Forall_fmap, Forall_forall. intros x _. unfold compose.
        by rewrite length_fmap, length_seq.
      * rewrite list_lookup_fmap, lookup_seq_lt by done. done.
      * done.
    + unfold shown_records, slice.
      rewrite length_imap, length_take, length_drop. lia.
    + unfold shown_records. rewrite list_lookup_imap.
      rewrite slice_lookup_lt by lia. by rewrite Hs.
  - intros start stop. subst pages.
    pose proof (xrange_fuel_eq (nrow lay) (length seqlist)
                  ltac:(lia) (length seqlist) 0%nat ltac:(lia)) as Hx.
    pose proof (shown_records_concat lay name_width num_width seqlist
                  start stop ltac:(lia) (length seqlist) 0%nat ltac:(lia))
      as Hcat.
    rewrite Nat.sub_0_r in Hx. rewrite Hx, <- list_fmap_compose in Hcat.
    cbn [drop] in Hcat. unfold shown_records at 2 in Hcat.
    etransitivity; [|etransitivity; [exact Hcat|]].
    + reflexivity.
    + by apply imap_ext.
Qed.

Lemma pagify_records_partition_witness :
  pagify foo_bar_foobar [] (mkLayout 10 35 2 70 true true)
  = Ok [[lit "sequences 1 to 2 of 3";
         lit "1        foo ACGT" ++ replicate 66 " "%char;
         lit "2        bar ACGA" ++ replicate 66 " "%char];
        [lit "sequences 3 to 3 of 3";
         lit "3     foobar AC-T" ++ replicate 66 " "%char]].
Proof.
  destruct (pagify_records_partition foo_bar_foobar []
              (mkLayout 10 35 2 70 true true)
              (mkSeqobj (lit "foo") (lit "ACGT") false))
    as (W & _); [reflexivity | discriminate | discriminate |].
  etransitivity; [exact W|]. vm_compute. reflexivity.
Defined.

Lemma rjust_length w s : length (rjust w s) = Nat.max w (length s).
Proof. unfold rjust. rewrite length_app, length_replicate. lia. Qed.

Lemma ljust_length w s : length (ljust w s) = Nat.max w (length s).
Proof. unfold ljust. rewrite length_app, length_replicate. lia. Qed.

Lemma fstr_length lay nw numw count nm seqstr :
  (length count <= numw)%nat -> (length nm <= nw)%nat ->
  (length seqstr <= ncol lay)%nat ->
  length (fstr lay nw numw count nm seqstr) = line_width lay nw numw.
Proof.
  intros H1 H2 H3. unfold fstr, line_width.
  rewrite !length_app, rjust_length, ljust_length.
  destruct (seqnums lay); rewrite ?length_app, ?rjust_length;
    cbn [lit list_ascii_of_string length]; lia.
Qed.

Lemma record_lines_width lay nw start stop n l :
  (stop - start <= ncol lay)%nat ->
  forall counter,
    (counter + length l <= S n)%nat ->
    Forall (fun line => length line
                        = line_width lay nw (length (repr_nat n)))
      (record_lines lay nw (length (repr_nat n)) start stop counter l).
Proof.
  intros Hw. induction l as [|s l IH]; intros counter Hc;
    cbn [record_lines]; constructor.
  - apply fstr_length.
    + apply repr_nat_length_mono. cbn [length] in Hc. lia.
    + rewrite length_take. lia.
    + unfold slice. rewrite length_take. lia.
  - apply IH. cbn [length] in Hc. lia.
Qed.

(** X12: every page that [pagify] returns ends with the lines of its
    records, at most [nrow] of them, and every such line has the same
    width: the name column of [name_width] characters, a space and [ncol]
    characters of sequence, preceded under [seqnums] by the counter column
    of [num_width] characters and a space.  Short names, short counters
    and a short last column block are padded. *)
Theorem pagify_line_width seqlist vnumstrs lay out :
  pagify seqlist vnumstrs lay = Ok out ->
  let name_width :=
    Nat.max (name_min lay)
      (Nat.min (max_list ((fun s => length (name s)) <$> seqlist))
         (name_max lay)) in
  let num_width := length (repr_nat (length seqlist)) in
  Forall (fun pg =>
            exists hdr recs first,
              pg = hdr ++ recs
              /\ (first < length seqlist)%nat
              /\ length recs
                 = Nat.min (nrow lay) (length seqlist - first)
              /\ Forall (fun line =>
                           length line
                           = line_width lay name_width num_width) recs)
    out.
Proof.
  intros Hout name_width num_width.
  destruct seqlist as [|s0 rest] eqn:Es; [done|].
  subst name_width num_width. rewrite <- Es in *.
  set (name_width := Nat.max _ _). set (num_width := length (repr_nat _)).
  destruct (pagify_exact lay name_width num_width seqlist vnumstrs s0 rest
              out Es eq_refl eq_refl Hout) as [Hc ->].
  apply Forall_concat, Forall_fmap, Forall_forall. intros st _.
  apply Forall_fmap, Forall_forall. intros f Hf%xrange_fuel_lt.
  cbn beta. unfold page. cbv zeta.
  eexists (_ ++ _), _, f. rewrite <- app_assoc.
  split; [reflexivity|]. split; [done|]. split.
  - assert (Hlen : forall l counter,
               length (record_lines lay name_width num_width st
                         (Nat.min (st + ncol lay) (length (seq_ s0)))
                         counter l) = length l).
    { induction l as [|s l IH]; intros counter; cbn [record_lines length];
        [done | by rewrite IH]. }
    rewrite Hlen. unfold slice. rewrite length_take, length_drop. lia.
  - apply record_lines_width; [lia|].
    unfold slice. rewrite length_take, length_drop. lia.
Qed.

Lemma pagify_line_width_witness :
  exists out,
    pagify foo_bar_foobar [] (mkLayout 10 35 2 70 true true) = Ok out /\
    Forall (fun pg =>
              exists hdr recs first,
                pg = hdr ++ recs
                /\ (first < 3)%nat
                /\ length recs = Nat.min 2 (3 - first)
                /\ Forall (fun line => length line = 83%nat) recs)
      out.
Proof.
  destruct (pagify foo_bar_foobar [] (mkLayout 10 35 2 70 true true))
    as [out|e] eqn:E; [|by vm_compute in E].
  exists out. split; [done|].
  exact (pagify_line_width foo_bar_foobar []
           (mkLayout 10 35 2 70 true true) out E).
Defined.

(** ** [readfasta] *)

Lemma rstrip_by_nil (p : ascii -> bool) : rstrip_by p [] = [].
Proof. done. Qed.

Lemma rstrip_by_snoc (p : ascii -> bool) s x :
  rstrip_by p (s ++ [x]) = if p x then rstrip_by p s else s ++ [x].
Proof.
  destruct (p x) eqn:Hx; [|by apply rstrip_by_id].
  unfold rstrip_by. rewrite reverse_app. simpl. by rewrite Hx.
Qed.

Lemma rstrip_by_prefix (p : ascii -> bool) s : rstrip_by p s `prefix_of` s.
Proof.
  induction s as [|x s IH] using rev_ind; [done|].
  rewrite rstrip_by_snoc. destruct (p x); [|done].
  by apply prefix_app_r.
Qed.

Lemma rstrip_by_last (p : ascii -> bool) s c :
  last (rstrip_by p s) = Some c -> p c = false.
Proof.
  induction s as [|x s IH] using rev_ind; [done|].
  rewrite rstrip_by_snoc. destruct (p x) eqn:Hx; [done|].
  rewrite last_snoc. by intros [= <-].
Qed.

Lemma rstrip_by_cons (p : ascii -> bool) x s :
  p x = false -> rstrip_by p (x :: s) = x :: rstrip_by p s.
Proof.
  intros Hx. induction s as [|y s IH] using rev_ind.
  - by rewrite (rstrip_by_id p [] x Hx : rstrip_by p [x] = [x]).
  - change (x :: s ++ [y]) with ((x :: s) ++ [y]).
    rewrite !rstrip_by_snoc, IH. by destruct (p y).
Qed.

Lemma rstrip_by_app (p : ascii -> bool) a s :
  Forall (fun c => p c = false) a -> rstrip_by p (a ++ s) = a ++ rstrip_by p s.
Proof.
  induction 1 as [|x a Hx _ IH]; [done|].
  cbn [app]. by rewrite rstrip_by_cons, IH.
Qed.

Lemma strip_plain l :
  Forall (fun c => is_space c = false) l -> strip (l ++ ["010"%char]) = l.
Proof.
  intros Hl. unfold strip. destruct Hl as [|c l Hc Hl]; [done|].
  cbn [app drop_while]. rewrite Hc.
  change (c :: l ++ ["010"%char]) with ((c :: l) ++ ["010"%char]).
  rewrite rstrip_by_snoc. cbn [is_space]. change (is_space "010") with true.
  cbv iota. rewrite <- (app_nil_r (c :: l)) at 1.
  rewrite rstrip_by_app by by constructor. by rewrite app_nil_r.
Qed.

Lemma take_while_app {A} (p : A -> bool) a w :
  Forall (fun c => p c = true) a ->
  w = [] \/ (exists x t, w = x :: t /\ p x = false) ->
  take_while p (a ++ w) = a.
Proof.
  intros Ha Hw. induction Ha as [|c a Hc _ IH]; cbn [app take_while].
  - destruct Hw as [-> | (x & t & -> & Hx)]; [done|].
    cbn [take_while]. by rewrite Hx.
  - by rewrite Hc, IH.
Qed.

Lemma starts_with_gt s :
  starts_with (lit ">") s = true <-> head s = Some ">"%char.
Proof.
  destruct s as [|c s]; [done|]. cbn [lit list_ascii_of_string starts_with].
  unfold chr_eqb. rewrite andb_true_r. cbn [head].
  destruct (Ascii.eqb_spec ">" c) as [<- | Hne]; split; try done.
  intros [= ->]. done.
Qed.

Section Header.
Variables (n d : str).
Hypothesis (Hn : n <> []) (Hgt : head n <> Some ">"%char).
Hypothesis (Hsp : Forall (fun c => is_space c = false) n).

Local Abbreviation tail_of :=
  (rstrip_by is_space (lit " " ++ d)).

Lemma header_strip :
  strip (lit ">" ++ n ++ lit " " ++ d ++ ["010"%char])
  = lit ">" ++ n ++ tail_of.
Proof using Hsp.
  unfold strip. cbn [lit list_ascii_of_string app drop_while].
  change (is_space ">") with false. cbv iota.
  rewrite rstrip_by_cons by done. f_equal.
  rewrite rstrip_by_app by done. f_equal.
  change (" "%char :: d ++ ["010"%char])
    with ((" "%char :: d) ++ ["010"%char]).
  by rewrite rstrip_by_snoc.
Qed.

Lemma header_rest :
  lstrip_chars (lit "> ") (lit ">" ++ n ++ tail_of) = n ++ tail_of.
Proof using Hn Hgt Hsp.
  unfold lstrip_chars. cbn [lit list_ascii_of_string app drop_while existsb].
  change (chr_eqb ">" ">") with true. cbn [orb].
  destruct n as [|c n']; [done|]. cbn [app drop_while existsb].
  replace (chr_eqb c ">") with false.
  2:{ symmetry. apply Ascii.eqb_neq. intros ->. by apply Hgt. }
  replace (chr_eqb c " ") with false; [done|].
  symmetry. apply Ascii.eqb_neq. intros ->. by inversion Hsp.
Qed.

Lemma tail_of_cases :
  tail_of = [] \/ exists t, tail_of = " "%char :: t.
Proof.
  destruct (rstrip_by_prefix is_space (lit " " ++ d)) as [k Hk].
  destruct tail_of as [|c t]; [by left | right].
  cbn [lit list_ascii_of_string app] in Hk. injection Hk as <- _. eauto.
Qed.

Lemma header_name_none :
  header_name SplitNone (lit ">" ++ n ++ tail_of) = Ok n.
Proof using Hn Hgt Hsp.
  unfold header_name. cbv zeta. rewrite header_rest. unfold first_field.
  destruct n as [|c n'] eqn:En; [done|]. cbn [app drop_while].
  assert (Hc : is_space c = false) by by inversion Hsp.
  rewrite Hc. f_equal.
  change (c :: n' ++ tail_of) with ((c :: n') ++ tail_of).
  apply take_while_app.
  - eapply Forall_impl; [exact Hsp|]. intros x Hx. cbn beta in *.
    by rewrite Hx.
  - destruct tail_of_cases as [-> | [t ->]]; [by left | right].
    by exists " "%char, t.
Qed.

Lemma header_name_false :
  header_name SplitFalse (lit ">" ++ n ++ tail_of)
  = Ok (strip (n ++ lit " " ++ d))
  /\ strip (n ++ lit " " ++ d) <> [].
Proof using Hn Hgt Hsp.
  unfold header_name. cbv zeta. rewrite header_rest.
  assert (E : strip (n ++ lit " " ++ d) = n ++ tail_of).
  { unfold strip. destruct n as [|c n'] eqn:En; [done|].
    cbn [app drop_while].
    assert (Hc : is_space c = false) by by inversion Hsp.
    rewrite Hc.
    change (c :: n' ++ lit " " ++ d) with ((c :: n') ++ lit " " ++ d).
    by rewrite rstrip_by_app. }
  rewrite E. split; [done|]. by destruct n.
Qed.

End Header.

Lemma yield_record_cons name seq :
  name <> [] -> yield_record name seq = [mkSeqobj name seq false].
Proof. by destruct name. Qed.

(** The lines of a sequence are joined to the current sequence. *)
Lemma readfasta_loop_lines degap name_split ls rest :
  Forall (fun l => head l <> Some ">"%char
                   /\ Forall (fun c => is_space c = false) l) ls ->
  forall name seq,
    readfasta_loop degap name_split
      (((fun l => l ++ ["010"%char]) <$> ls) ++ rest) name seq
    = readfasta_loop degap name_split rest name
        (seq ++ (if degap then remove_gaps (concat ls) else concat ls)).
Proof.
  induction 1 as [|l ls [Hgt Hsp] _ IH]; intros name seq.
  - cbn [fmap list_fmap app concat]. destruct degap; by rewrite app_nil_r.
  - cbn [fmap list_fmap app concat readfasta_loop]. cbv zeta.
    rewrite (strip_plain l Hsp).
    destruct (starts_with (lit ">") l) eqn:Hst;
      [by apply starts_with_gt in Hst|].
    change (list_fmap _ _ (fun l0 => l0 ++ ["010"%char]) ls)
      with ((fun l0 => l0 ++ ["010"%char]) <$> ls).
    rewrite IH. f_equal. rewrite <- app_assoc. f_equal.
    destruct degap; [|done]. unfold remove_gaps. by rewrite filter_app.
Qed.

Lemma readfasta_loop_plain degap name_split name_of rs :
  Forall plain_record rs ->
  (forall n d, n <> [] -> head n <> Some ">"%char ->
               Forall (fun c => is_space c = false) n ->
               header_name name_split
                 (lit ">" ++ n ++ rstrip_by is_space (lit " " ++ d))
               = Ok (name_of n d) /\ name_of n d <> []) ->
  forall name seq,
    readfasta_loop degap name_split (fasta_lines rs) name seq
    = Ok (yield_record name seq
          ++ ((fun '(n, d, ls) =>
                 mkSeqobj (name_of n d)
                   (if degap then remove_gaps (concat ls) else concat ls)
                   false) <$> rs)).
Proof.
  intros Hrs Hname. induction Hrs as [|[[n d] ls] rs Hr _ IH];
    intros name seq.
  - cbn. by rewrite app_nil_r.
  - destruct Hr as (Hn & Hgt & Hsp & Hls).
    unfold fasta_lines. cbn [mbind list_bind].
    change (list_bind _ _ ?f rs) with (fasta_lines rs).
    rewrite <- app_comm_cons. cbn [readfasta_loop]. cbv zeta.
    rewrite (header_strip n d Hsp).
    cbn [lit list_ascii_of_string app starts_with].
    change (chr_eqb ">" ">") with true. cbn [andb].
    destruct (Hname n d Hn Hgt Hsp) as [Hh Hne].
    cbn [lit list_ascii_of_string app] in Hh. rewrite Hh. cbn [rbind].
    rewrite (readfasta_loop_lines degap name_split ls _ Hls), IH.
    cbn [rbind app fmap list_fmap].
    by rewrite (yield_record_cons (name_of n d)) by done.
Qed.

(** X13: reading and writing agree.  For a file written from records
    whose names and sequence lines hold no white space and start with no
    ['>'], each as a header line ['>name description'] followed by the
    lines of its sequence, [readfasta] returns the records in order: with
    [name_split=None] the name is the name whatever the description, with
    [name_split=False] it is the stripped header; the sequence is the
    lines joined, without their gap characters under [degap]; and
    [reference] is [False]. *)
Theorem readfasta_round_trip rs degap :
  Forall plain_record rs ->
  readfasta (fasta_lines rs) degap SplitNone
  = Ok ((fun '(n, d, ls) =>
           mkSeqobj n (if degap then remove_gaps (concat ls) else concat ls)
             false) <$> rs)
  /\ readfasta (fasta_lines rs) degap SplitFalse
     = Ok ((fun '(n, d, ls) =>
              mkSeqobj (strip (n ++ lit " " ++ d))
                (if degap then remove_gaps (concat ls) else concat ls)
                false) <$> rs).
Proof.
  intros Hrs. unfold readfasta. split.
  - rewrite (readfasta_loop_plain degap SplitNone (fun n _ => n) rs Hrs);
      [done|].
    intros n d Hn Hgt Hsp. split; [|done]. by apply header_name_none.
  - rewrite (readfasta_loop_plain degap SplitFalse
               (fun n d => strip (n ++ lit " " ++ d)) rs Hrs); [done|].
    intros n d Hn Hgt Hsp. by apply header_name_false.
Qed.

Lemma readfasta_round_trip_witness :
  readfasta
    [lit ">s1 first record" ++ ["010"%char];
     lit "AC-G" ++ ["010"%char];
     lit "T-" ++ ["010"%char];
     lit ">s2 " ++ ["010"%char];
     lit "GG" ++ ["010"%char]] true SplitNone
  = Ok [mkSeqobj (lit "s1") (lit "ACGT") false;
        mkSeqobj (lit "s2") (lit "GG") false].
Proof.
  destruct (readfasta_round_trip
              [(lit "s1", lit "first record", [lit "AC-G"; lit "T-"]);
               (lit "s2", [], [lit "GG"])] true) as [W _].
  - repeat constructor; done.
  - exact W.
Defined.

Lemma yield_record_length name seq : (length (yield_record name seq) <= 1)%nat.
Proof. destruct name; simpl; lia. Qed.

Lemma take_while_Forall {A} (p : A -> bool) l :
  Forall (fun x => p x = true) (take_while p l).
Proof.
  induction l as [|x l IH]; cbn [take_while]; [constructor|].
  destruct (p x) eqn:Hx; by constructor.
Qed.

Lemma drop_while_suffix {A} (p : A -> bool) l : drop_while p l `suffix_of` l.
Proof.
  induction l as [|x l IH]; cbn [drop_while]; [done|].
  destruct (p x); [by apply suffix_cons_r | done].
Qed.

Lemma drop_while_nil {A} (p : A -> bool) l :
  drop_while p l = [] <-> Forall (fun x => p x = true) l.
Proof.
  induction l as [|x l IH]; cbn [drop_while]; [done|].
  destruct (p x) eqn:Hx; split.
  - intros H. constructor; [done | by apply IH].
  - intros H. apply IH. by inversion H.
  - done.
  - intros H. inversion H. congruence.
Qed.

Lemma header_name_Ok_name name_split line n :
  header_name name_split line = Ok n ->
  name_split = SplitNone -> Forall (fun c => is_space c = false) n.
Proof.
  intros H ->. unfold header_name, first_field in H. cbv zeta in H.
  destruct (drop_while is_space _) as [|c t]; [done|].
  injection H as <-.
  eapply Forall_impl;
    [apply (take_while_Forall (fun c => negb (is_space c)) (c :: t))|].
  intros x Hx. cbn beta in Hx. by destruct (is_space x).
Qed.

Lemma readfasta_loop_inv degap name_split infile :
  forall nm sq out,
    readfasta_loop degap name_split infile nm sq = Ok out ->
    (name_split = SplitNone -> Forall (fun c => is_space c = false) nm) ->
    (degap = true -> gap_chr ∉ sq) ->
    Forall (fun r => name r <> [] /\ reference r = false
                     /\ (degap = true -> gap_chr ∉ seq_ r)
                     /\ (name_split = SplitNone ->
                         Forall (fun c => is_space c = false) (name r)))
      out
    /\ (length out <= length (yield_record nm sq)
                      + length (List.filter is_header infile))%nat.
Proof.
  assert (Hy : forall nm sq,
             (name_split = SplitNone ->
              Forall (fun c => is_space c = false) nm) ->
             (degap = true -> gap_chr ∉ sq) ->
             Forall (fun r => name r <> [] /\ reference r = false
                     /\ (degap = true -> gap_chr ∉ seq_ r)
                     /\ (name_split = SplitNone ->
                         Forall (fun c => is_space c = false) (name r)))
               (yield_record nm sq)).
  { intros [|c nm] sq Hn Hs; cbn [yield_record]; [constructor|].
    constructor; [|constructor]. cbn [name seq_ reference].
    split; [done|]. split; [done|]. split; done. }
  induction infile as [|raw rest IH]; intros nm sq out Hout Hname Hseq;
    cbn [readfasta_loop] in Hout; cbv zeta in Hout.
  - injection Hout as <-. split; [by apply Hy|]. cbn [List.filter length]. lia.
  - cbn [List.filter]. unfold is_header at 1.
    destruct (starts_with (lit ">") (strip raw)) eqn:Hst.
    + destruct (header_name name_split (strip raw)) as [n'|e] eqn:Hh;
        [|done]. cbn [rbind] in Hout.
      destruct (readfasta_loop degap name_split rest n' []) as [out'|e]
        eqn:Hrest; [|done].
      cbn [rbind] in Hout. injection Hout as <-.
      destruct (IH n' [] out' Hrest) as [HF Hlen].
      * by eapply header_name_Ok_name.
      * intros _. by apply not_elem_of_nil.
      * split; [apply Forall_app; split; [by apply Hy | done]|].
        rewrite length_app. cbn [length].
        pose proof (yield_record_length n' []). lia.
    + apply IH in Hout as [HF Hlen]; [| done |].
      * split; [done|].
        destruct nm; cbn [yield_record length] in *; lia.
      * intros Hd. rewrite Hd. intros [H | H]%elem_of_app; [by apply Hseq|].
        unfold remove_gaps in H. by apply list_elem_of_filter in H as [? _].
Qed.

(** X14: every record that [readfasta] returns has a name that is not
    empty and [reference = False]; under [degap] its sequence holds no gap
    character; with [name_split=None] its name holds no white space; and
    there are at most as many records as header lines. *)
Theorem readfasta_records infile degap name_split out :
  readfasta infile degap name_split = Ok out ->
  Forall (fun r => name r <> [] /\ reference r = false
                   /\ (degap = true -> gap_chr ∉ seq_ r)
                   /\ (name_split = SplitNone ->
                       Forall (fun c => is_space c = false) (name r)))
    out
  /\ (length out <= length (List.filter is_header infile))%nat.
Proof.
  intros H. apply readfasta_loop_inv in H; [exact H | by constructor |].
  intros _. apply not_elem_of_nil.
Qed.

Lemma readfasta_records_witness :
  exists out,
    readfasta [lit "> " ++ ["010"%char]; lit "AC" ++ ["010"%char];
               lit ">a b" ++ ["010"%char]; lit "A-C-" ++ ["010"%char]]
      true SplitFalse = Ok out
    /\ Forall (fun r => name r <> [] /\ reference r = false
                        /\ (true = true -> gap_chr ∉ seq_ r)
                        /\ (SplitFalse = SplitNone ->
                            Forall (fun c => is_space c = false) (name r)))
         out
    /\ (length out <= 2)%nat.
Proof.
  destruct (readfasta
              [lit "> " ++ ["010"%char]; lit "AC" ++ ["010"%char];
               lit ">a b" ++ ["010"%char]; lit "A-C-" ++ ["010"%char]]
              true SplitFalse) as [out|e] eqn:E; [|by vm_compute in E].
  exists out. split; [done|].
  exact (readfasta_records _ true SplitFalse out E).
Defined.

Lemma readfasta_loop_ok degap name_split infile :
  (forall raw, raw ∈ infile -> is_header raw = true ->
               exists n, header_name name_split (strip raw) = Ok n) ->
  forall name seq,
    exists out, readfasta_loop degap name_split infile name seq = Ok out.
Proof.
  induction infile as [|raw rest IH]; intros Hh name seq;
    cbn [readfasta_loop]; cbv zeta; [eauto|].
  assert (Hrest : forall raw', raw' ∈ rest -> is_header raw' = true ->
             exists n, header_name name_split (strip raw') = Ok n).
  { intros raw' Hin. apply Hh. by right. }
  destruct (starts_with (lit ">") (strip raw)) eqn:Hst.
  - destruct (Hh raw) as [n' ->]; [left | done |]. cbn [rbind].
    destruct (IH Hrest n' []) as [out' ->]. cbn [rbind]. eauto.
  - by apply IH.
Qed.

Lemma readfasta_loop_raise degap name_split e infile :
  (forall line e', header_name name_split line = Raise e' -> e' = e) ->
  (exists raw, raw ∈ infile /\ is_header raw = true
               /\ header_name name_split (strip raw) = Raise e) ->
  forall name seq,
    readfasta_loop degap name_split infile name seq = Raise e.
Proof.
  intros He. induction infile as [|raw rest IH];
    intros (raw' & Hin & Hhd & Hraise) name seq.
  - by apply elem_of_nil in Hin.
  - cbn [readfasta_loop]. cbv zeta.
    destruct (starts_with (lit ">") (strip raw)) eqn:Hst.
    + destruct (header_name name_split (strip raw)) as [n'|e'] eqn:Hh.
      * cbn [rbind]. rewrite IH; [done|].
        apply elem_of_cons in Hin as [-> | Hin]; [congruence|].
        by exists raw'.
      * cbn [rbind]. f_equal. by eapply He.
    + apply IH. apply elem_of_cons in Hin as [-> | Hin].
      * unfold is_header in Hhd. congruence.
      * by exists raw'.
Qed.

(** A header line defines no name under [name_split=None] exactly when it
    consists of ['>'] and blanks only. *)
Lemma header_name_none_cases raw :
  (Forall (fun c => c = ">"%char \/ c = " "%char) (strip raw) ->
   header_name SplitNone (strip raw) = Raise IndexError)
  /\ (~ Forall (fun c => c = ">"%char \/ c = " "%char) (strip raw) ->
      exists n, header_name SplitNone (strip raw) = Ok n).
Proof.
  set (q := fun c : ascii => existsb (chr_eqb c) (lit "> ")).
  assert (Hq : forall c, q c = true <-> c = ">"%char \/ c = " "%char).
  { intros c. unfold q. cbn [lit list_ascii_of_string existsb].
    rewrite orb_false_r, orb_true_iff. unfold chr_eqb.
    by rewrite !Ascii.eqb_eq. }
  unfold header_name, first_field, lstrip_chars. cbv zeta. fold q. split.
  - intros Hall.
    assert (E : drop_while q (strip raw) = []).
    { apply drop_while_nil. eapply Forall_impl; [exact Hall|].
      intros c Hc. by apply Hq. }
    by rewrite E.
  - intros Hnot.
    destruct (drop_while is_space (drop_while q (strip raw))) eqn:E; [|eauto].
    exfalso. apply Hnot. apply drop_while_nil in E.
    destruct (drop_while q (strip raw)) as [|c t] eqn:Er.
    + apply drop_while_nil in Er. eapply Forall_impl; [exact Er|].
      intros c Hc. by apply Hq.
    + destruct (drop_while_suffix q (strip raw)) as [pre Hpre].
      rewrite Er in Hpre.
      destruct (exists_last (l := c :: t)) as (init & x & Hlast); [done|].
      assert (Hx : is_space x = true).
      { rewrite Hlast in E. apply Forall_app in E as [_ E].
        by inversion E. }
      assert (Hl : last (strip raw) = Some x).
      { rewrite Hpre, Hlast, app_assoc. apply last_snoc. }
      apply rstrip_by_last in Hl. congruence.
Qed.

(** X15: when [readfasta] fails.  With [name_split=False] or a separator
    that is not empty it returns for every file.  With the empty
    separator it raises [ValueError] as soon as the file has a header
    line.  With [name_split=None] it raises [IndexError] when some header
    line consists of ['>'] and blanks only, and returns otherwise. *)
Theorem readfasta_failure infile degap :
  (exists out, readfasta infile degap SplitFalse = Ok out)
  /\ (forall sep, sep <> [] ->
                  exists out, readfasta infile degap (SplitOn sep) = Ok out)
  /\ ((exists raw, raw ∈ infile /\ is_header raw = true) ->
      readfasta infile degap (SplitOn []) = Raise ValueError)
  /\ ((exists raw, raw ∈ infile /\ is_header raw = true /\
                   Forall (fun c => c = ">"%char \/ c = " "%char)
                     (strip raw)) ->
      readfasta infile degap SplitNone = Raise IndexError)
  /\ ((forall raw, raw ∈ infile -> is_header raw = true ->
                   ~ Forall (fun c => c = ">"%char \/ c = " "%char)
                       (strip raw)) ->
      exists out, readfasta infile degap SplitNone = Ok out).
Proof.
  unfold readfasta. repeat split.
  - apply readfasta_loop_ok. intros raw _ _. by eexists.
  - intros sep Hsep. apply readfasta_loop_ok. intros raw _ _.
    destruct sep; [done|]. by eexists.
  - intros (raw & Hin & Hhd). apply readfasta_loop_raise.
    + by intros line e' [= <-].
    + by exists raw.
  - intros (raw & Hin & Hhd & Hall). apply readfasta_loop_raise.
    + intros line e' H. unfold header_name, first_field in H.
      cbv zeta in H. destruct (drop_while is_space _); congruence.
    + exists raw. split; [done|]. split; [done|].
      by apply header_name_none_cases.
  - intros Hall. apply readfasta_loop_ok. intros raw Hin Hhd.
    apply header_name_none_cases. by apply Hall.
Qed.

Lemma readfasta_failure_witness :
  readfasta [lit "> >" ++ ["010"%char]; lit "ACGT" ++ ["010"%char]]
    false SplitNone = Raise IndexError
  /\ readfasta [lit ">s1" ++ ["010"%char]; lit "ACGT" ++ ["010"%char]]
       false (SplitOn []) = Raise ValueError.
Proof.
  split.
  - destruct (readfasta_failure
                [lit "> >" ++ ["010"%char]; lit "ACGT" ++ ["010"%char]]
                false) as (_ & _ & _ & W & _).
    apply W. eexists. split; [left|]. split; [reflexivity|].
    vm_compute.
    repeat (apply List.Forall_cons; [first [by left | by right]|]).
    apply List.Forall_nil.
  - destruct (readfasta_failure
                [lit ">s1" ++ ["010"%char]; lit "ACGT" ++ ["010"%char]]
                false) as (_ & _ & W & _).
    apply W. eexists. split; [left | reflexivity].
Defined.

Lemma readfasta_loop_no_name degap name_split infile :
  forall seq seq',
    readfasta_loop degap name_split infile [] seq
    = readfasta_loop degap name_split infile [] seq'.
Proof.
  induction infile as [|raw rest IH]; intros seq seq';
    cbn [readfasta_loop]; cbv zeta; [done|].
  destruct (starts_with (lit ">") (strip raw)); [done | apply IH].
Qed.

(** X16: what precedes the first header line is ignored: with or without
    the lines [pre], none of which is a header line, [readfasta] gives the
    same result; a file without header lines gives no record. *)
Theorem readfasta_before_first_header pre rest degap name_split :
  Forall (fun raw => is_header raw = false) pre ->
  readfasta (pre ++ rest) degap name_split = readfasta rest degap name_split
  /\ readfasta pre degap name_split = Ok [].
Proof.
  intros Hpre. unfold readfasta.
  assert (H : forall rest seq,
             readfasta_loop degap name_split (pre ++ rest) [] seq
             = readfasta_loop degap name_split rest [] []).
  { clear rest. intros rest. induction Hpre as [|raw pre Hraw _ IH];
      intros seq.
    - apply readfasta_loop_no_name.
    - cbn [app readfasta_loop]. cbv zeta. unfold is_header in Hraw.
      rewrite Hraw. apply IH. }
  split; [apply H|]. rewrite <- (app_nil_r pre) at 1. by rewrite H.
Qed.

Lemma readfasta_before_first_header_witness :
  readfasta ([lit "; a comment" ++ ["010"%char]; lit "ACGT" ++ ["010"%char]]
             ++ [lit ">s1" ++ ["010"%char]; lit "GG" ++ ["010"%char]])
    false SplitNone
  = readfasta [lit ">s1" ++ ["010"%char]; lit "GG" ++ ["010"%char]]
      false SplitNone.
Proof.
  apply (readfasta_before_first_header
           [lit "; a comment" ++ ["010"%char]; lit "ACGT" ++ ["010"%char]]).
  repeat constructor.
Defined.

(** ** The comparison loop of [reformat] *)

Lemma write_run r f h o :
  h !! r = Some o -> write r f h = (<[r := f o]> h, Ok tt).
Proof. intros H. unfold write. by rewrite H. Qed.

Lemma seqdiff_short s t sim :
  (length sim <= 1)%nat -> exists d, seqdiff s t sim = Ok d.
Proof.
  intros H. destruct sim as [|c [|c' sim]]; cbn [length] in H; [| |lia];
    unfold seqdiff; eauto.
Qed.

(** One pass of the loop body on a stored record. *)
Lemma compare_body_run nm str sim r h obj :
  h !! r = Some obj -> (length sim <= 1)%nat ->
  exists obj',
    compare_body nm str sim r h = (<[r := obj']> h, Ok tt)
    /\ if bool_decide (name obj = nm)
       then obj' = mkSeqobj (ref_prefix ++ name obj) (seq_ obj) true
       else name obj' = name obj /\ reference obj' = reference obj
            /\ seqdiff (seq_ obj) str sim = Ok (seq_ obj').
Proof.
  intros Hr Hsim. unfold compare_body.
  rewrite (bind_run _ _ _ _ _ (get_name_run _ _ _ Hr)).
  destruct (bool_decide (name obj = nm)).
  - eexists. split; [|reflexivity]. unfold set_name, set_reference.
    rewrite (bind_run _ _ _ _ _ (write_run _ _ _ _ Hr)).
    rewrite (write_run r _ _ (mkSeqobj (ref_prefix ++ name obj) (seq_ obj)
                                (reference obj))).
    + by rewrite list_insert_insert_eq.
    + apply list_lookup_insert_eq. by eapply lookup_lt_Some.
  - rewrite (bind_run _ _ _ _ _ (get_seq_run _ _ _ Hr)).
    destruct (seqdiff_short (seq_ obj) str sim Hsim) as [d Hd].
    exists (mkSeqobj (name obj) d (reference obj)). split; [|done].
    unfold lift at 1. rewrite (bind_run _ _ h h d) by by rewrite Hd.
    unfold set_seq. by rewrite (write_run _ _ _ _ Hr).
Qed.

(** X19: the comparison loop of [reformat], run on distinct stored
    records with a marker of at most one character, returns; it marks
    every record whose name is the name of the reference (the name gets
    the prefix "==REF==> ", [reference] becomes [True], the sequence is
    left as it is), replaces the sequence of every other record by its
    difference to the reference string and leaves name and [reference] of
    those alone; objects that are not in the list are untouched. *)
Theorem compare_loop nm str sim (seqlist : list ref) (h : heap) :
  NoDup seqlist ->
  (forall r, r ∈ seqlist -> is_Some (h !! r)) ->
  (length sim <= 1)%nat ->
  exists h',
    for_each (compare_body nm str sim) seqlist h = (h', Ok tt)
    /\ length h' = length h
    /\ (forall r, r ∉ seqlist -> h' !! r = h !! r)
    /\ forall r obj, r ∈ seqlist -> h !! r = Some obj ->
         exists obj',
           h' !! r = Some obj'
           /\ if bool_decide (name obj = nm)
              then obj' = mkSeqobj (ref_prefix ++ name obj) (seq_ obj) true
              else name obj' = name obj /\ reference obj' = reference obj
                   /\ seqdiff (seq_ obj) str sim = Ok (seq_ obj').
Proof.
  intros Hnd Hin Hsim. revert h Hin.
  induction Hnd as [|r rest Hr Hnd IH]; intros h Hin.
  - exists h. split; [done|]. split; [done|]. split; [done|].
    intros r obj Hr. by apply elem_of_nil in Hr.
  - destruct (Hin r) as [obj Hobj]; [left|].
    destruct (compare_body_run nm str sim r h obj Hobj Hsim)
      as (obj1 & Hrun & Hspec).
    destruct (IH (<[r := obj1]> h)) as (h' & Hloop & Hlen & Hframe & Hall).
    { intros r' Hr'. destruct (Hin r') as [o' Ho']; [by right|].
      exists o'. rewrite list_lookup_insert_ne; [done|].
      intros ->. by apply Hr. }
    exists h'. cbn [for_each]. rewrite (bind_run _ _ _ _ _ Hrun).
    split; [done|]. split; [by rewrite Hlen, length_insert|]. split.
    + intros r' Hr'. apply not_elem_of_cons in Hr' as [Hne Hr'].
      rewrite Hframe by done. by rewrite list_lookup_insert_ne.
    + intros r' obj' [-> | Hr']%elem_of_cons Hobj'.
      * exists obj1. rewrite Hframe by done.
        rewrite list_lookup_insert_eq by by eapply lookup_lt_Some.
        split; [done|]. by replace obj' with obj by congruence.
      * apply Hall; [done|]. rewrite list_lookup_insert_ne; [done|].
        intros ->. by apply Hr.
Qed.

Lemma compare_loop_witness :
  exists h',
    for_each (compare_body (lit "bar") (lit "ACGA") (lit "."))
      [0; 1; 2]%nat foo_bar_foobar = (h', Ok tt)
    /\ h' !! 1%nat
       = Some (mkSeqobj (lit "==REF==> bar") (lit "ACGA") true)
    /\ h' !! 2%nat = Some (mkSeqobj (lit "foobar") (lit "..-T") false).
Proof.
  destruct (compare_loop (lit "bar") (lit "ACGA") (lit ".") [0; 1; 2]%nat
              foo_bar_foobar) as (h' & Hrun & _ & _ & _).
  - apply (bool_decide_unpack _). by vm_compute.
  - intros r Hr. repeat (apply elem_of_cons in Hr as [-> | Hr]; [by eexists|]).
    by apply elem_of_nil in Hr.
  - cbn. lia.
  - exists h'. split; [exact Hrun|].
    vm_compute in Hrun. injection Hrun as <-. by split.
Defined.
